(** * web_frequencies: a shallow embedding of [scraper.py]

    The script fetches one page, counts its HTML tags, extracts the visible
    text, splits it into words and prints the most frequent ones.  This file
    embeds the functions of [scraper.py] together with the parts of the
    Python libraries they call ([re], [collections.Counter], [heapq],
    [bs4], [argparse]) and proves or refutes the statements of the design
    document about them.

    Conventions.
    - A Python [str] is a Rocq [string]; one [ascii] stands for one code
      point below 256.  [lower], [strip] and the character classes are the
      Python ones restricted to these code points.
    - A Python [int] is a [Z]; a count held by a [Counter] is a [nat].
    - A function that mutates its argument returns the new value of the
      argument next to its result. *)

From Stdlib Require Import List String Ascii ZArith NArith Bool Arith Lia.
From Stdlib Require Import Permutation Sorted.
From Stdlib Require Import DecimalString.
From Stdlib Require DecimalPos DecimalFacts.
From Equations Require Import Equations.
Import ListNotations.

Local Open Scope string_scope.
Local Open Scope list_scope.

(* ===================================================================== *)
(** * Python strings                                                      *)
(* ===================================================================== *)

Module Str.

Definition code (c : ascii) : N := N_of_ascii c.

Definition between (lo hi : N) (c : ascii) : bool :=
((lo <=? code c) && (code c <=? hi))%N.

(** [c.isupper()] for a code point below 256: A-Z, and the Latin-1
  capitals U+00C0..U+00DE without the multiplication sign U+00D7. *)
Definition is_upper (c : ascii) : bool :=
between 65 90 c || (between 192 222 c && negb (code c =? 215)%N).

(** [c.lower()]: every upper-case code point below 256 has its lower-case
  partner 32 places further. *)
Definition lower_char (c : ascii) : ascii :=
if is_upper c then ascii_of_N (code c + 32) else c.

(** [s.lower()] *)
Fixpoint lower (s : string) : string :=
match s with
| EmptyString => EmptyString
| String c s' => String (lower_char c) (lower s')
end.

(** [c.isspace()] for a code point below 256. *)
Definition is_space (c : ascii) : bool :=
between 9 13 c || between 28 32 c || (code c =? 133)%N || (code c =? 160)%N.

Fixpoint lstrip (s : string) : string :=
match s with
| EmptyString => EmptyString
| String c s' => if is_space c then lstrip s' else s
end.

(** Drops trailing white space: a character stays when it is not white
  space or when something that stays follows it. *)
Fixpoint rstrip (s : string) : string :=
match s with
| EmptyString => EmptyString
| String c s' =>
    match rstrip s' with
    | EmptyString => if is_space c then EmptyString else String c EmptyString
    | r => String c r
    end
end.

(** [s.strip()] *)
Definition strip (s : string) : string := rstrip (lstrip s).

(** [sep.join(parts)] *)
Fixpoint join (sep : string) (parts : list string) : string :=
match parts with
| [] => EmptyString
| [p] => p
| p :: ps => (p ++ sep ++ join sep ps)%string
end.

(** [x in xs] for a list or set of strings. *)
Definition mem (x : string) (xs : list string) : bool :=
existsb (String.eqb x) xs.

End Str.

(* ===================================================================== *)
(** * The [re] module, for patterns of the shape [[ranges]{m,}]           *)
(* ===================================================================== *)

Module re.

(** A compiled pattern: one character class, repeated greedily at least
  [min_repeat] times.  [min_repeat] is positive, so that a match is
  never empty. *)
Record Pattern := {
ranges : list (ascii * ascii);
min_repeat : positive
}.

Definition in_class (p : Pattern) (c : ascii) : bool :=
existsb (fun r => Str.between (Str.code (fst r)) (Str.code (snd r)) c)
        (ranges p).

(** The greedy repetition: the longest prefix of class characters, and
  what follows it. *)
Fixpoint greedy (p : Pattern) (s : list ascii) : list ascii * list ascii :=
match s with
| [] => ([], [])
| c :: s' =>
    if in_class p c
    then let (m, rest) := greedy p s' in (c :: m, rest)
    else ([], s)
end.

(** An attempt to match at the start of [s]: the repetition takes all it
  can, and the match succeeds when that is at least [min_repeat]
  characters (nothing follows the repetition in the pattern, so giving
  characters back never helps). *)
Definition match_here (p : Pattern) (s : list ascii)
: option (list ascii * list ascii) :=
let (m, rest) := greedy p s in
if (Pos.to_nat (min_repeat p) <=? List.length m)%nat
then Some (m, rest) else None.

Lemma greedy_app p s : fst (greedy p s) ++ snd (greedy p s) = s.
Proof.
induction s as [|c s IH]; simpl; [reflexivity|].
destruct (in_class p c); [|reflexivity].
destruct (greedy p s) as [m rest]; simpl in *. now rewrite IH.
Qed.

Lemma match_here_shorter p s m rest :
match_here p s = Some (m, rest) ->
(List.length rest < List.length s)%nat.
Proof.
unfold match_here. pose proof (greedy_app p s) as E.
destruct (greedy p s) as [m' rest']; simpl in E.
destruct (Nat.leb_spec (Pos.to_nat (min_repeat p)) (List.length m'));
  [|discriminate].
intros [= <- <-]. rewrite <- E, length_app.
pose proof (Pos2Nat.is_pos (min_repeat p)). lia.
Qed.

Definition inspect {A : Type} (x : A) : { y : A | x = y } :=
exist _ x eq_refl.

(** [p.finditer(s)], as the list of matched substrings: scan from the
  left; where the pattern matches, yield the match and go on after it;
  where it does not, move one character on. *)
Equations? scan (p : Pattern) (s : list ascii) : list (list ascii)
by wf (List.length s) lt :=
scan p [] := [];
scan p (c :: s') with inspect (match_here p (c :: s')) := {
  | exist _ (Some (m, rest)) _ => m :: scan p rest;
  | exist _ None _ => scan p s' }.
Proof.
pose proof (match_here_shorter _ _ _ _ e) as Hlt. simpl in Hlt. lia.
Qed.

Definition finditer (p : Pattern) (s : string) : list string :=
map string_of_list_ascii (scan p (list_ascii_of_string s)).

End re.

(* ===================================================================== *)
(** * [scraper.py]: configuration and the tokeniser                       *)
(* ===================================================================== *)

Definition STOP_WORDS : list string :=
  [ "a"; "an"; "and"; "are"; "as"; "at"; "be"; "by"; "for"; "from"; "has";
    "he"; "in"; "is"; "it"; "its"; "of"; "on"; "that"; "the"; "to"; "was";
    "were"; "with" ].

(** [re.compile(r"[A-Za-z]{2,}")] *)
Definition TOKEN_RE : re.Pattern :=
  {| re.ranges := [("A"%char, "Z"%char); ("a"%char, "z"%char)];
     re.min_repeat := 2 |}.

Definition tokenise (text : string) : list string :=
  let tokens := map Str.lower (re.finditer TOKEN_RE text) in
  filter (fun tok => negb (Str.mem tok STOP_WORDS)) tokens.

(* ===================================================================== *)
(** * Built-ins: [sorted], [max], slices, [range]                         *)
(* ===================================================================== *)

Module builtins.

Section Ordering.
Context {A : Type}.
(** [ltb x y]: the sort key of [x] is smaller than that of [y]. *)
Variable ltb : A -> A -> bool.

(** [x] stood before every element of [l] in the input: it goes in
front of the first element that is not greater than it. *)
Fixpoint insert_desc (x : A) (l : list A) : list A :=
match l with
| [] => [x]
| y :: l' => if ltb x y then y :: insert_desc x l' else x :: l
end.

(** [sorted(l, key=..., reverse=True)].  Python's sort is stable, also
with [reverse=True]: elements with equal keys keep their order. *)
Definition sorted_reverse (l : list A) : list A :=
fold_right insert_desc [] l.

(** [max(l, key=...)] on a non-empty list: the running maximum is
replaced only by a strictly greater element, so the first of
several maxima is returned. *)
Fixpoint max_from (best : A) (l : list A) : A :=
match l with
| [] => best
| x :: l' => max_from (if ltb best x then x else best) l'
end.

(** [max(l, default=sentinel, key=...)], [None] for the sentinel. *)
Definition max (l : list A) : option A :=
match l with
| [] => None
| x :: l' => Some (max_from x l')
end.
End Ordering.

(** [l[:n]] *)
Definition slice_to {A : Type} (n : Z) (l : list A) : list A :=
if (n <? 0)%Z
then firstn (List.length l - Z.to_nat (- n)) l
else firstn (Z.to_nat n) l.

(** [range(0, stop, -1)]: 0, -1, ..., stop + 1; empty when [stop >= 0]. *)
Definition range_down (stop : Z) : list Z :=
map (fun i => (- Z.of_nat i)%Z) (seq 0 (Z.to_nat (- stop))).

End builtins.

(* ===================================================================== *)
(** * [heapq.nlargest]                                                    *)
(* ===================================================================== *)

Module heapq.

Section Nlargest.
Context {A : Type}.
(** The [key] function; the keys of this program are counts. *)
Variable key : A -> nat.

Definition key_ltb (x y : A) : bool := (key x <? key y)%nat.

(** The heap holds tuples [(key(elem), order, elem)].  Python compares
tuples from the left; no two tuples of a heap share their [order],
so the comparison never reaches [elem]. *)
Definition Entry : Type := nat * Z * A.
Definition entry_key (e : Entry) : nat := fst (fst e).
Definition entry_order (e : Entry) : Z := snd (fst e).
Definition entry_elem (e : Entry) : A := snd e.

Definition entry_ltb (x y : Entry) : bool :=
(entry_key x <? entry_key y)%nat
|| ((entry_key x =? entry_key y)%nat
  && (entry_order x <? entry_order y)%Z).

(** A heap is kept as the bag of its entries: what the code observes
of it is its smallest entry [result[0]] and, at the end, its
content in sorted order. *)
Fixpoint smallest_from (best : Entry) (h : list Entry) : Entry :=
match h with
| [] => best
| e :: h' => smallest_from (if entry_ltb e best then e else best) h'
end.

(** [result[0]] of a non-empty heap *)
Definition smallest (h : list Entry) : option Entry :=
match h with
| [] => None
| e :: h' => Some (smallest_from e h')
end.

Fixpoint remove_order (o : Z) (h : list Entry) : list Entry :=
match h with
| [] => []
| e :: h' => if (entry_order e =? o)%Z then h' else e :: remove_order o h'
end.

(** [heapreplace(h, item)]: pop the smallest entry, push [item]. *)
Definition heapreplace (h : list Entry) (item : Entry) : list Entry :=
match smallest h with
| None => h
| Some s => item :: remove_order (entry_order s) h
end.

(** [result[0][0]], the variable [top] of the loop. *)
Definition top (h : list Entry) : nat :=
match smallest h with
| None => 0%nat
| Some s => entry_key s
end.

(** The loop [for elem in it: ...] over what is left of the input. *)
Fixpoint select (result : list Entry) (order : Z) (it : list A)
: list Entry :=
match it with
| [] => result
| elem :: it' =>
  let k := key elem in
  if (top result <? k)%nat
  then select (heapreplace result (k, order, elem)) (order - 1)%Z it'
  else select result order it'
end.

Definition nlargest (n : Z) (iterable : list A) : list A :=
if (n =? 1)%Z then
(* Short-cut for n==1 is to use max() *)
match builtins.max key_ltb iterable with
| None => []
| Some result => [result]
end
else
let size := Z.of_nat (List.length iterable) in
if (n >=? size)%Z then
  (* When n>=size, it's faster to use sorted() *)
  builtins.slice_to n (builtins.sorted_reverse key_ltb iterable)
else
  (* General case *)
  let result :=
    map (fun ie => (key (snd ie), fst ie, snd ie))
        (combine (builtins.range_down (- n)) iterable) in
  match result with
  | [] => []
  | _ :: _ =>
      let it := skipn (List.length result) iterable in
      let result := select result (- n)%Z it in
      map entry_elem (builtins.sorted_reverse entry_ltb result)
  end.
End Nlargest.

End heapq.

(* ===================================================================== *)
(** * [collections.Counter]                                               *)
(* ===================================================================== *)

Module Counter.

(** A [Counter] is a [dict]: its items are kept in the order in which
  the keys were first inserted. *)
Definition t : Type := list (string * nat).

(** [c[elem] = c.get(elem, 0) + 1] *)
Fixpoint incr (elem : string) (c : t) : t :=
match c with
| [] => [(elem, 1%nat)]
| (k, v) :: c' =>
    if String.eqb elem k then (k, S v) :: c' else (k, v) :: incr elem c'
end.

(** [Counter(iterable)] *)
Definition of_list (iterable : list string) : t :=
fold_left (fun c elem => incr elem c) iterable [].

(** [itemgetter(1)] *)
Definition count_of (item : string * nat) : nat := snd item.

(** [c.most_common(n)], [None] for the default of [n]. *)
Definition most_common (n : option Z) (c : t) : list (string * nat) :=
match n with
| None => builtins.sorted_reverse (heapq.key_ltb count_of) c
| Some n => heapq.nlargest count_of n c
end.

End Counter.

(** ** The frequency functions of [scraper.py] *)

Definition top_n_words (tokens : list string) (n : Z) : list (string * nat) :=
  Counter.most_common (Some n) (Counter.of_list tokens).

(* ===================================================================== *)
(** * [bs4]: the parse tree                                               *)
(* ===================================================================== *)

Module bs4.

(** The classes of string nodes; all of them derive from
  [NavigableString], which derives from [str]. *)
Inductive StringClass :=
| NavigableString
| CData
| Comment
| ProcessingInstruction
| Declaration
| Doctype
| Stylesheet
| Script
| TemplateString
| RubyTextString
| RubyParenthesisString.

Definition StringClass_eqb (a b : StringClass) : bool :=
match a, b with
| NavigableString, NavigableString | CData, CData | Comment, Comment
| ProcessingInstruction, ProcessingInstruction
| Declaration, Declaration | Doctype, Doctype
| Stylesheet, Stylesheet | Script, Script
| TemplateString, TemplateString
| RubyTextString, RubyTextString
| RubyParenthesisString, RubyParenthesisString => true
| _, _ => false
end.

(** A node of the tree: a tag with its name and children, or a string
  of some class.  Attributes are not read by [scraper.py]. *)
#[local] Unset Elimination Schemes.
Inductive PageElement :=
| Tag (name : string) (contents : list PageElement)
| NavString (cls : StringClass) (text : string).
#[local] Set Elimination Schemes.

(** The [BeautifulSoup] object is the root of the tree, itself not a
  descendant; it is kept as the list of its children. *)
Definition BeautifulSoup : Type := list PageElement.

(** [tag.descendants]: every node below, in document order. *)
Fixpoint below (e : PageElement) : list PageElement :=
match e with
| Tag _ cs => flat_map (fun c => c :: below c) cs
| NavString _ _ => []
end.

(** [soup.descendants] *)
Definition descendants (soup : BeautifulSoup) : list PageElement :=
flat_map (fun c => c :: below c) soup.

Definition tag_name (e : PageElement) : option string :=
match e with
| Tag n _ => Some n
| NavString _ _ => None
end.

(** [soup.find_all(m)]: the tags among the descendants whose name [m]
  accepts, in document order.
  [soup.find_all(True)] accepts every name, [soup([n1, ...])] the
  listed names. *)
Definition find_all (m : string -> bool) (soup : BeautifulSoup)
: list PageElement :=
filter (fun e => match e with
                 | Tag n _ => m n
                 | NavString _ _ => false
                 end) (descendants soup).

(** The loop [for tag in soup(names): tag.decompose()].  [soup(names)]
  lists the matching tags of every depth; [decompose] takes a tag,
  with everything below it, out of its parent.  A match below an
  earlier match has left the tree with it when its turn comes.  What
  the loop leaves is the tree without the subtrees rooted at a match;
  [decompose_el] gives what is left of one node: nothing, or the node
  with its children filtered. *)
Fixpoint decompose_el (m : string -> bool) (e : PageElement)
: list PageElement :=
match e with
| Tag n cs => if m n then [] else [Tag n (flat_map (decompose_el m) cs)]
| NavString _ _ => [e]
end.

Definition decompose_all (m : string -> bool) (soup : BeautifulSoup)
: BeautifulSoup :=
flat_map (decompose_el m) soup.

(** The class of a Python value, as far as [isinstance] is asked about
  it in [scraper.py]. *)
Inductive PyClass :=
| class_str
| class_string (c : StringClass)
| class_Tag.

Record PyObject := { class_of : PyClass; str_value : string }.

Definition isinstance_NavigableString (o : PyObject) : bool :=
match class_of o with
| class_string _ => true
| _ => false
end.

Definition isinstance_Tag (o : PyObject) : bool :=
match class_of o with
| class_Tag => true
| _ => false
end.

(** [Tag.interesting_string_types] of a tag that holds no special kind
  of string, as is the root: [(NavigableString, CData)]. *)
Definition interesting_string_types : list StringClass :=
[NavigableString; CData].

Definition interesting (c : StringClass) : bool :=
existsb (StringClass_eqb c) interesting_string_types.

(** [soup.stripped_strings], that is [soup._all_strings(strip=True)]:
  of the descendants, the strings whose class is one of the
  interesting types itself (not a subclass: comments, doctypes and
  the like are passed over); each is stripped, and dropped when
  nothing is left.

  [class_after_strip c] is the class of what [descendant.strip()]
  returns for a string of class [c].  [strip] is the method of [str],
  which returns a plain [str] also for an instance of a subclass:
  see [plain_str] below.  It is left open here, so that what is proved
  about the extraction does not rest on it. *)
Definition stripped_strings (class_after_strip : StringClass -> PyClass)
  (soup : BeautifulSoup) : list PyObject :=
flat_map (fun e =>
            match e with
            | Tag _ _ => []
            | NavString c s =>
                if interesting c then
                  let stripped := Str.strip s in
                  if (String.length stripped =? 0)%nat then []
                  else [{| class_of := class_after_strip c;
                           str_value := stripped |}]
                else []
            end) (descendants soup).

(** What [str.strip] returns in Python. *)
Definition plain_str (c : StringClass) : PyClass := class_str.

End bs4.

(* ===================================================================== *)
(** * [scraper.py]: text extraction and tag counting                      *)
(* ===================================================================== *)

Definition NON_VISIBLE : list string :=
  ["script"; "style"; "noscript"; "template"].

Definition is_non_visible (name : string) : bool := Str.mem name NON_VISIBLE.

Section Extraction.

(** The class of a stripped string, see [bs4.stripped_strings]. *)
Variable class_after_strip : bs4.StringClass -> bs4.PyClass.

(** [html.unescape], which replaces character references. *)
Variable unescape : string -> string.

(** The generator [gen] of [visible_text_from_soup], on the tree as the
  [decompose] loop left it. *)
Definition gen (soup : bs4.BeautifulSoup) : list string :=
map (fun element => unescape (bs4.str_value element))
    (filter (fun element =>
               bs4.isinstance_NavigableString element
               && negb (bs4.isinstance_Tag element))
            (bs4.stripped_strings class_after_strip soup)).

(** Returns the text and the tree as the call leaves it. *)
Definition visible_text_from_soup (soup : bs4.BeautifulSoup)
: string * bs4.BeautifulSoup :=
let soup := bs4.decompose_all is_non_visible soup in
(Str.join " " (gen soup), soup).

End Extraction.

Definition tag_frequencies (soup : bs4.BeautifulSoup) : list (string * nat) :=
  let tags :=
    flat_map (fun tag => match bs4.tag_name tag with
                         | Some name => [Str.lower name]
                         | None => []
                         end) (bs4.find_all (fun _ => true) soup) in
  Counter.most_common None (Counter.of_list tags).

(** The page of the design document's scenario:
    [<html><body><script>ignored</script><p>The Cat sat. The cat RAN.</p>
    </body></html>] *)
Definition cat_page : bs4.BeautifulSoup :=
  [ bs4.Tag "html"
      [ bs4.Tag "body"
          [ bs4.Tag "script" [ bs4.NavString bs4.Script "ignored" ];
            bs4.Tag "p"
              [ bs4.NavString bs4.NavigableString
                  "The Cat sat. The cat RAN." ] ] ] ].

(* ===================================================================== *)
(** * Numbers as text: [str(n)], [int(s)], format specifications          *)
(* ===================================================================== *)

Module Fmt.

(** [str(n)] for a count *)
Definition str_of_nat (n : nat) : string :=
NilZero.string_of_uint (Nat.to_uint n).

(** [n] in decimal: [str(n)], for an [int] of at most [max_str_digits]
  digits (for a longer one [str] raises [ValueError]). *)
Definition str_of_int (n : Z) : string :=
NilZero.string_of_int (Z.to_int n).

(** The number of decimal digits of [n]. *)
Definition num_digits (n : Z) : nat :=
Decimal.nb_digits (N.to_uint (Z.abs_N n)).

(** [sys.get_int_max_str_digits()], at its default: [int] refuses a
  decimal string of more digits; signs, white space and underscores do
  not count, leading zeros do. *)
Definition max_str_digits : nat := 4300.

(** [c * n] for a one-character string [c] *)
Fixpoint repeat (c : ascii) (n : nat) : string :=
match n with
| O => EmptyString
| S n' => String c (repeat c n')
end.

(** [f"{s:<w}"] *)
Definition ljust (w : nat) (s : string) : string :=
(s ++ repeat " " (w - String.length s))%string.

(** [f"{s:>w}"] *)
Definition rjust (w : nat) (s : string) : string :=
(repeat " " (w - String.length s) ++ s)%string.

(** The white space that [int] accepts around a number. *)
Definition is_int_space (c : ascii) : bool :=
Str.between 9 13 c || (Str.code c =? 32)%N
|| (Str.code c =? 133)%N || (Str.code c =? 160)%N.

Fixpoint lstrip_int (s : string) : string :=
match s with
| EmptyString => EmptyString
| String c s' => if is_int_space c then lstrip_int s' else s
end.

Fixpoint rstrip_int (s : string) : string :=
match s with
| EmptyString => EmptyString
| String c s' =>
    match rstrip_int s' with
    | EmptyString =>
        if is_int_space c then EmptyString else String c EmptyString
    | r => String c r
    end
end.

Definition is_digit (c : ascii) : bool := Str.between 48 57 c.

(** Digits with single underscores between them: the digits alone, or
  [None] where an underscore stands first, last or next to another. *)
Fixpoint group_digits (after_digit : bool) (s : string) : option string :=
match s with
| EmptyString => if after_digit then Some EmptyString else None
| String c s' =>
    if Ascii.eqb c "_"
    then if after_digit then group_digits false s' else None
    else if is_digit c
         then option_map (String c) (group_digits true s')
         else None
end.

Definition digits_value (s : string) : option Z :=
match group_digits false s with
| Some ds =>
    if (String.length ds <=? max_str_digits)%nat
    then option_map Z.of_uint (NilEmpty.uint_of_string ds)
    else None
| None => None
end.

(** [int(s)]; [None] for [ValueError]. *)
Definition int (s : string) : option Z :=
match rstrip_int (lstrip_int s) with
| EmptyString => None
| String c ds =>
    if Ascii.eqb c "-" then option_map Z.opp (digits_value ds)
    else if Ascii.eqb c "+" then digits_value ds
    else digits_value (String c ds)
end.

End Fmt.

(* ===================================================================== *)
(** * [scraper.py]: the report                                            *)
(* ===================================================================== *)

Definition newline : string := String (ascii_of_nat 10) EmptyString.

(** [enumerate(l, start)] *)
Fixpoint enumerate {A : Type} (start : nat) (l : list A) : list (nat * A) :=
  match l with
  | [] => []
  | x :: l' => (start, x) :: enumerate (S start) l'
  end.

Definition render_report (url : string)
    (word_counts tag_counts : list (string * nat)) : string :=
  let title := ("Report for " ++ url)%string in
  let rank_width :=
    String.length (Fmt.str_of_nat (List.length word_counts)) in
  let lines :=
    [ title; Fmt.repeat "=" (String.length title); "";
      "HTML tag frequencies:" ]
    ++ map (fun tc =>
              ("  " ++ Fmt.ljust 15 (fst tc) ++ " "
               ++ Fmt.rjust 6 (Fmt.str_of_nat (snd tc)))%string) tag_counts
    ++ [ "";
         ("Top " ++ Fmt.str_of_nat (List.length word_counts)
          ++ " words:")%string ]
    ++ map (fun iwc =>
              let idx := fst iwc in
              let word := fst (snd iwc) in
              let count := snd (snd iwc) in
              ("  " ++ Fmt.rjust rank_width (Fmt.str_of_nat idx) ++ ". "
               ++ Fmt.ljust 20 word ++ " "
               ++ Fmt.rjust 6 (Fmt.str_of_nat count))%string)
         (enumerate 1 word_counts)
    ++ [ "" ] in
  Str.join newline lines.

(* ===================================================================== *)
(** * [argparse], for the parser that [parse_args] builds                 *)
(* ===================================================================== *)

Module argparse.

(** The actions behind option strings: [-h/--help], which
  [ArgumentParser] adds itself, and [-t/--top] ([store], one
  argument, [type=int]).  The positional [url] has no option string. *)
Inductive Action := help | store_top.

(** [parser._option_string_actions], in insertion order *)
Definition option_string_actions : list (string * Action) :=
[("-h", help); ("--help", help); ("-t", store_top); ("--top", store_top)].

Fixpoint lookup (o : string) (m : list (string * Action)) : option Action :=
match m with
| [] => None
| (k, a) :: m' => if String.eqb o k then Some a else lookup o m'
end.

(** [c in s] *)
Fixpoint contains (c : ascii) (s : string) : bool :=
match s with
| EmptyString => false
| String a s' => Ascii.eqb a c || contains c s'
end.

(** [s.split(c, 1)] for a string that contains [c] *)
Fixpoint split_once (c : ascii) (s : string) : string * string :=
match s with
| EmptyString => (EmptyString, EmptyString)
| String a s' =>
    if Ascii.eqb a c then (EmptyString, s')
    else let (l, r) := split_once c s' in (String a l, r)
end.

Fixpoint all_digits (s : string) : bool :=
match s with
| EmptyString => true
| String c s' => Fmt.is_digit c && all_digits s'
end.

(** What [$] allows at the end of a match: nothing, or one final
  newline. *)
Definition at_end (s : string) : bool :=
String.eqb s "" || String.eqb s newline.

(** [\d*] followed by [tail], matched greedily; [tail] never starts
  with a digit here, so the digits are taken as far as they go. *)
Fixpoint after_digits (tail : string -> bool) (s : string) : bool :=
match s with
| String c s' => if Fmt.is_digit c then after_digits tail s' else tail s
| EmptyString => tail s
end.

Definition starts_with_digit (s : string) : bool :=
match s with
| String c _ => Fmt.is_digit c
| EmptyString => false
end.

(** [parser._negative_number_matcher.match(s)], the pattern being
  [^-\d+$|^-\d*\.\d+$] *)
Definition negative_number (s : string) : bool :=
match s with
| String "-" r =>
    (starts_with_digit r && after_digits at_end r)
    || after_digits
         (fun t => match t with
                   | String "." f =>
                       starts_with_digit f && after_digits at_end f
                   | _ => false
                   end) r
| _ => false
end.

(** An option tuple [(action, option_string, explicit_arg)] *)
Definition OptionTuple : Type := option Action * string * option string.

(** [parser._get_option_tuples(s)] for a string of at least two
  characters that starts with [-] *)
Definition get_option_tuples (s : string) : list OptionTuple :=
match s with
| String "-" (String "-" _) =>
    (* two prefix characters: abbreviations of long options *)
    let (option_prefix, explicit_arg) :=
      if contains "=" s
      then let (l, r) := split_once "=" s in (l, Some r)
      else (s, None) in
    flat_map (fun oa =>
                if String.prefix option_prefix (fst oa)
                then [(Some (snd oa), fst oa, explicit_arg)] else [])
             option_string_actions
| String "-" (String c rest) =>
    (* a short option with its argument attached *)
    let short_option_prefix := String "-" (String c EmptyString) in
    flat_map (fun oa =>
                if String.eqb (fst oa) short_option_prefix
                then [(Some (snd oa), fst oa, Some rest)]
                else if String.prefix s (fst oa)
                     then [(Some (snd oa), fst oa, None)] else [])
             option_string_actions
| _ => []
end.

Inductive ArgClass :=
| Positional                         (* 'A' in the pattern *)
| Optional (t : OptionTuple)         (* 'O' in the pattern *)
| Ambiguous.                         (* [parser.error] *)

(** [parser._parse_optional(s)] *)
Definition parse_optional (s : string) : ArgClass :=
match s with
| EmptyString => Positional
| String c rest =>
    if negb (Ascii.eqb c "-") then Positional
    else
      match lookup s option_string_actions with
      | Some a => Optional (Some a, s, None)
      | None =>
          if String.eqb rest "" then Positional
          else
            let by_equals :=
              if contains "=" s then
                let (option_string, explicit_arg) := split_once "=" s in
                match lookup option_string option_string_actions with
                | Some a => Some (Some a, option_string, Some explicit_arg)
                | None => None
                end
              else None in
            match by_equals with
            | Some t => Optional t
            | None =>
                match get_option_tuples s with
                | [t] => Optional t
                | _ :: _ :: _ => Ambiguous
                | [] =>
                    if negative_number s then Positional
                    else if contains " " s then Positional
                    else Optional (None, s, None)
                end
            end
      end
end.

(** What [store] puts under [top].  The argument strings of an action
  lose their first ["--"] before they are converted: an explicit
  argument ["--"] leaves none, and the value is the empty list. *)
Inductive TopValue := IntValue (n : Z) | EmptyList.

Record Namespace := { url : string; top : TopValue }.

(** [SystemExit code] stands for [parser.exit] and [parser.error]:
  status 0 after the help text, 2 after a usage error. *)
Inductive Outcome := Parsed (ns : Namespace) | SystemExit (code : Z).

(** What the parser writes itself before it leaves: the help text, on
  stdout, when the help action runs ([print_help], then status 0); the
  usage line and an error message, on stderr, in [parser.error]
  (status 2).  The texts themselves are left out. *)
Inductive Message := HelpText | UsageError.

Definition written (code : Z) : Message :=
if (code =? 0)%Z then HelpText else UsageError.

Record State := {
st_url : option string;
st_top : TopValue;
st_extras : list string
}.

Definition set_url (u : string) (st : State) : State :=
{| st_url := Some u; st_top := st_top st; st_extras := st_extras st |}.

Definition set_top (v : TopValue) (st : State) : State :=
{| st_url := st_url st; st_top := v; st_extras := st_extras st |}.

Definition add_extras (l : list string) (st : State) : State :=
{| st_url := st_url st; st_top := st_top st;
   st_extras := st_extras st ++ l |}.

(** [parser._get_values(action, [arg])] for [-t/--top]; [None] for the
  [ArgumentError] of a string that [int] refuses. *)
Definition top_value (arg : string) : option TopValue :=
if String.eqb arg "--" then Some EmptyList
else option_map IntValue (Fmt.int arg).

Definition is_optional (x : string * ArgClass) : bool :=
match snd x with
| Optional _ => true
| _ => false
end.

Definition single_dash (option_string : string) : bool :=
match option_string with
| String _ (String c _) => negb (Ascii.eqb c "-")
| _ => false
end.

(** [-h] with something attached, as in [-hx]: the characters after it
  are read as further short options.  [true] when that works out
  (the help action then runs first), [false] for an [ArgumentError].
  [next_is_arg] says whether an argument follows in the command
  line. *)
Fixpoint help_cluster (explicit_arg : string) (next_is_arg : bool) : bool :=
match explicit_arg with
| EmptyString => false
| String c rest =>
    match lookup (String "-" (String c EmptyString))
                 option_string_actions with
    | None => false
    | Some help =>
        if String.eqb rest "" then true
        else help_cluster rest next_is_arg
    | Some store_top =>
        if String.eqb rest "" then next_is_arg else true
    end
end.

(** The strings that stand from the separator on. *)
Definition from_separator (after : option (list string)) : list string :=
match after with
| Some l => "--" :: l
| None => []
end.

(** Beyond the last option: [consume_positionals] once more, the rest
  goes to [extras]; then the checks for required and for unrecognized
  arguments. *)
Definition finish (l : list string) (after : option (list string))
  (st : State) : Outcome :=
let st :=
  match st_url st with
  | Some _ => add_extras (l ++ from_separator after) st
  | None =>
      match l, after with
      | x :: [], Some rest => add_extras rest (set_url x st)
      | x :: l', _ => add_extras (l' ++ from_separator after) (set_url x st)
      | [], Some (y :: rest) => add_extras rest (set_url y st)
      | [], _ => add_extras (from_separator after) st
      end
  end in
match st_url st, st_extras st with
| Some u, [] => Parsed {| url := u; top := st_top st |}
| _, _ => SystemExit 2
end.

(** The loop of [_parse_known_args] over the classified strings that
  stand before the separator ["--"], [after] being what follows it. *)
Fixpoint consume (l : list (string * ArgClass))
  (after : option (list string)) (st : State) : Outcome :=
match l with
| [] => finish [] after st
| (s, Optional (None, _, _)) :: l' =>
    (* no such option: the string goes to [extras] *)
    consume l' after (add_extras [s] st)
| (s, Optional (Some help, option_string, explicit_arg)) :: l' =>
    match explicit_arg with
    | None => SystemExit 0
    | Some e =>
        let next_is_arg :=
          match l' with
          | (_, Positional) :: _ => true
          | _ => false
          end in
        if single_dash option_string && help_cluster e next_is_arg
        then SystemExit 0 else SystemExit 2
    end
| (s, Optional (Some store_top, _, Some e)) :: l' =>
    match top_value e with
    | Some v => consume l' after (set_top v st)
    | None => SystemExit 2
    end
| (s, Optional (Some store_top, _, None)) :: l' =>
    match l' with
    | (a, Positional) :: l'' =>
        match top_value a with
        | Some v => consume l'' after (set_top v st)
        | None => SystemExit 2
        end
    | _ => SystemExit 2
    end
| (s, _) :: l' =>
    if existsb is_optional l' then
      match st_url st with
      | None => consume l' after (set_url s st)
      | Some _ => consume l' after (add_extras [s] st)
      end
    else finish (map fst l) after st
end.

(** The command line up to the first ["--"], and what follows it. *)
Fixpoint split_separator (argv : list string)
: list string * option (list string) :=
match argv with
| [] => ([], None)
| s :: argv' =>
    if String.eqb s "--" then ([], Some argv')
    else let (l, after) := split_separator argv' in (s :: l, after)
end.

Definition is_ambiguous (x : string * ArgClass) : bool :=
match snd x with
| Ambiguous => true
| _ => false
end.

(** [parser.parse_args(argv)]: every string before the separator is
  classified first (an ambiguous abbreviation is an error at once),
  then the strings are consumed from the left. *)
Definition parse_args (argv : list string) : Outcome :=
let (before, after) := split_separator argv in
let classified := map (fun s => (s, parse_optional s)) before in
if existsb is_ambiguous classified then SystemExit 2
else consume classified after
       {| st_url := None; st_top := IntValue 100; st_extras := [] |}.

End argparse.

(** [parse_args] of [scraper.py]: it builds the parser and runs it. *)
Definition parse_args (argv : list string) : argparse.Outcome :=
  argparse.parse_args argv.

(* ===================================================================== *)
(** * [scraper.py]: fetching the page and [main]                          *)
(* ===================================================================== *)

Module requests.

(** How [requests.get(url, headers=..., timeout=TIMEOUT)],
  [raise_for_status()] and [response.text] can fail: with a
  [RequestException] or a [UnicodeDecodeError], which the [except]
  clause of [fetch_html] catches ([message] is [str(exc)]); or with any
  other exception, which it does not catch. *)
Inductive Failure :=
| Caught (message : string)
| Uncaught (exception : string).

End requests.

(** How a run ends: [main] returns, the process leaves through
    [sys.exit] or [parser.exit] with a status, or an exception is not
    caught. *)
Inductive Status :=
| Returned
| Exited (code : Z)
| Raised (exception : string).

(** What a run shows: the lines of the log on stderr (the logging
    format is [levelname: message]); what [argparse] wrote itself, when
    the parser left; what [print] wrote on stdout, that is the reports;
    and how the run ends. *)
Record Run := {
  log : list string;
  parser_wrote : option argparse.Message;
  printed : list string;
  status : Status
}.

(** How [fetch_html] ends: it returns the page; it logs a line and
    leaves through [sys.exit]; or an exception passes through it. *)
Inductive Fetch :=
| fetch_returns (text : string)
| fetch_exits (line : string) (code : Z)
| fetch_raises (exception : string).

Section Program.

(** The request of [fetch_html]: the text of the response, or how the
  request failed. *)
Variable http_get : string -> string + requests.Failure.

(** [BeautifulSoup(html, "lxml")], taken to return a tree. *)
Variable parse_html : string -> bs4.BeautifulSoup.

Variable class_after_strip : bs4.StringClass -> bs4.PyClass.

Variable unescape : string -> string.

Definition fetch_html (url : string) : Fetch :=
match http_get url with
| inl text => fetch_returns text
| inr (requests.Caught exc) =>
    fetch_exits ("ERROR: Failed to fetch " ++ url ++ ": " ++ exc)%string 1
| inr (requests.Uncaught exception) => fetch_raises exception
end.

Definition main (argv : list string) : Run :=
match parse_args argv with
| argparse.SystemExit code =>
    {| log := []; parser_wrote := Some (argparse.written code);
       printed := []; status := Exited code |}
| argparse.Parsed args =>
    let url := argparse.url args in
    let log1 := [("INFO: Fetching " ++ url ++ " ...")%string] in
    match fetch_html url with
    | fetch_exits line code =>
        {| log := log1 ++ [line]; parser_wrote := None;
           printed := []; status := Exited code |}
    | fetch_raises exception =>
        {| log := log1; parser_wrote := None;
           printed := []; status := Raised exception |}
    | fetch_returns html =>
        let soup := parse_html html in
        let log2 := log1 ++ ["INFO: Analysing HTML structure ..."] in
        let tag_counts := tag_frequencies soup in
        let log3 := log2 ++ ["INFO: Extracting and processing text ..."] in
        let (text, soup) :=
          visible_text_from_soup class_after_strip unescape soup in
        let tokens := tokenise text in
        match argparse.top args with
        | argparse.EmptyList =>
            (* [n >= size] in [heapq.nlargest], with a list for [n] *)
            {| log := log3; parser_wrote := None; printed := [];
               status := Raised "TypeError" |}
        | argparse.IntValue n =>
            let word_counts := top_n_words tokens n in
            let report := render_report url word_counts tag_counts in
            {| log := log3; parser_wrote := None; printed := [report];
               status := Returned |}
        end
    end
end.

End Program.

(* ===================================================================== *)
(** * The tokeniser in the words of the design document                   *)
(* ===================================================================== *)

(** An ASCII alphabetic character: [A-Z] or [a-z]. *)
Definition is_ascii_alpha (c : ascii) : bool :=
  Str.between 65 90 c || Str.between 97 122 c.

Definition starts_alpha (s : list ascii) : bool :=
  match s with
  | c :: _ => is_ascii_alpha c
  | [] => false
  end.

(** A text read as separators and runs: [sep] holds no alphabetic
    character, a run holds nothing else and is not empty, and what follows
    a run does not start with an alphabetic character.  The runs of such
    a reading are the maximal runs of the text. *)
Inductive RunsOf : list ascii -> list (list ascii) -> Prop :=
| RunsOf_end sep :
    Forall (fun c => is_ascii_alpha c = false) sep ->
    RunsOf sep []
| RunsOf_run sep run rest runs :
    Forall (fun c => is_ascii_alpha c = false) sep ->
    run <> [] ->
    Forall (fun c => is_ascii_alpha c = true) run ->
    starts_alpha rest = false ->
    RunsOf rest runs ->
    RunsOf (sep ++ run ++ rest) (run :: runs).

(** The maximal runs, computed from the right: an alphabetic character
    joins the run that starts right after it, or starts a run of its own. *)
Fixpoint maximal_runs (s : list ascii) : list (list ascii) :=
  match s with
  | [] => []
  | c :: s' =>
      if is_ascii_alpha c then
        if starts_alpha s' then
          match maximal_runs s' with
          | run :: runs => (c :: run) :: runs
          | [] => [[c]]
          end
        else [c] :: maximal_runs s'
      else maximal_runs s'
  end.

(** The contract of the tokeniser: the maximal runs of length at least 2,
    lower-cased, without the stop-words, in the order of the text. *)
Definition tokenise_spec (text : string) : list string :=
  let runs :=
    filter (fun run => (2 <=? List.length run)%nat)
           (maximal_runs (list_ascii_of_string text)) in
  filter (fun tok => negb (Str.mem tok STOP_WORDS))
         (map (fun run => Str.lower (string_of_list_ascii run)) runs).

Definition is_ascii_lower (c : ascii) : bool := Str.between 97 122 c.

(* ===================================================================== *)
(** * Ranked lists in the words of the design document                    *)
(* ===================================================================== *)

(** The distinct keys of a sequence, in the order of first appearance. *)
Fixpoint distinct (l : list string) : list string :=
  match l with
  | [] => []
  | x :: l' => x :: filter (fun y => negb (String.eqb y x)) (distinct l')
  end.

(** [l.index(k)]: the place of the first occurrence. *)
Fixpoint index (k : string) (l : list string) : option nat :=
  match l with
  | [] => None
  | x :: l' => if String.eqb x k then Some 0%nat else option_map S (index k l')
  end.

(** [l.count(k)] *)
Definition count (k : string) (l : list string) : nat :=
  List.length (filter (String.eqb k) l).

(** [sum(c for _, c in ranked)] *)
Definition total (ranked : list (string * nat)) : nat :=
  fold_right (fun kc acc => (snd kc + acc)%nat) 0%nat ranked.

(** [c[k]] *)
Fixpoint get (k : string) (c : Counter.t) : nat :=
  match c with
  | [] => 0%nat
  | (k', v) :: c' => if String.eqb k k' then v else get k c'
  end.

(** [x] stands before [y] in [l]. *)
Inductive Before {A : Type} : list A -> A -> A -> Prop :=
| Before_here x y l : In y l -> Before (x :: l) x y
| Before_later z x y l : Before l x y -> Before (z :: l) x y.

(** The order of a ranked list: counts do not grow, and of two keys with
    the same count the one that appears first in [keys] stands first. *)
Definition RankedBefore (keys : list string) (a b : string * nat) : Prop :=
  (snd b <= snd a)%nat
  /\ (snd a = snd b ->
      exists p q, index (fst a) keys = Some p
                  /\ index (fst b) keys = Some q /\ (p < q)%nat).

Section Orders.

Context {A : Type}.
Variable ltb : A -> A -> bool.

(** No element is smaller than one that stands after it. *)
Definition Descending (l : list A) : Prop :=
StronglySorted (fun x y => ltb x y = false) l.

(** Same sort key. *)
Definition same_key (a z : A) : bool := negb (ltb a z) && negb (ltb z a).

(** The sort seen from the other end: the last element of the input
  goes behind everything that is not smaller than it. *)
Fixpoint insert_after (x : A) (l : list A) : list A :=
match l with
| [] => [x]
| y :: l' => if ltb y x then x :: l else y :: insert_after x l'
end.

End Orders.

(** What the loop of [nlargest] maintains: the heap holds the first [k]
    of the sorted prefix [seen]; every [order] in it is above the next
    one to be given out, and no two are equal. *)
Definition HeapInv {A : Type} (key : A -> nat) (k : nat) (order : Z)
    (h : list (heapq.Entry (A := A))) (seen : list A) : Prop :=
  map heapq.entry_elem (builtins.sorted_reverse heapq.entry_ltb h)
  = firstn k (builtins.sorted_reverse (heapq.key_ltb key) seen)
  /\ List.length h = k
  /\ (1 <= k <= List.length seen)%nat
  /\ Forall (fun e => heapq.entry_key e = key (heapq.entry_elem e)
                      /\ (order < heapq.entry_order e)%Z) h
  /\ NoDup (map heapq.entry_order h).

(* ===================================================================== *)
(** * Trees in the words of the design document                           *)
(* ===================================================================== *)

Section PageElementInduction.

Variable P : bs4.PageElement -> Prop.
Hypothesis P_Tag : forall n cs, Forall P cs -> P (bs4.Tag n cs).
Hypothesis P_NavString : forall c s, P (bs4.NavString c s).

(** Induction over the tree: a tag has the property when all its
  children have it. *)
Fixpoint PageElement_tree_ind (e : bs4.PageElement) : P e :=
match e with
| bs4.Tag n cs =>
    P_Tag n cs
      ((fix children (l : list bs4.PageElement) : Forall P l :=
          match l with
          | [] => Forall_nil P
          | c :: l' => Forall_cons c (PageElement_tree_ind c) (children l')
          end) cs)
| bs4.NavString c s => P_NavString c s
end.

End PageElementInduction.

(** A string node of the tree that no tag accepted by [m] encloses. *)
Inductive VisibleString (m : string -> bool)
  : bs4.BeautifulSoup -> bs4.StringClass -> string -> Prop :=
| VisibleString_here soup c s :
    In (bs4.NavString c s) soup -> VisibleString m soup c s
| VisibleString_below soup n cs c s :
    In (bs4.Tag n cs) soup -> m n = false ->
    VisibleString m cs c s -> VisibleString m soup c s.

(** Two nodes that differ at most below tags accepted by [m]. *)
#[local] Unset Elimination Schemes.
Inductive SameOutside (m : string -> bool)
  : bs4.PageElement -> bs4.PageElement -> Prop :=
| SameOutside_hidden n cs1 cs2 :
    m n = true -> SameOutside m (bs4.Tag n cs1) (bs4.Tag n cs2)
| SameOutside_tag n cs1 cs2 :
    m n = false -> Forall2 (SameOutside m) cs1 cs2 ->
    SameOutside m (bs4.Tag n cs1) (bs4.Tag n cs2)
| SameOutside_string c s :
    SameOutside m (bs4.NavString c s) (bs4.NavString c s).
#[local] Set Elimination Schemes.

(** The lower-cased names of all tags of the tree, in document order. *)
Definition tag_names (soup : bs4.BeautifulSoup) : list string :=
  flat_map (fun tag => match bs4.tag_name tag with
                       | Some name => [Str.lower name]
                       | None => []
                       end) (bs4.find_all (fun _ => true) soup).

(** ** Example pages and runs *)

(** [cat_page] with another script. *)
Definition script_variant : bs4.BeautifulSoup :=
  [ bs4.Tag "html"
      [ bs4.Tag "body"
          [ bs4.Tag "script" [ bs4.NavString bs4.Script "something else" ];
            bs4.Tag "p"
              [ bs4.NavString bs4.NavigableString
                  "The Cat sat. The cat RAN." ] ] ] ].

(** [<div><style>p {}</style></div>] *)
Definition style_page : bs4.BeautifulSoup :=
  [ bs4.Tag "div" [ bs4.Tag "style" [ bs4.NavString bs4.Stylesheet "p {}" ] ] ].

(** [<p><!--secret-->shown</p>] *)
Definition comment_page : bs4.BeautifulSoup :=
  [ bs4.Tag "p" [ bs4.NavString bs4.Comment "secret";
                  bs4.NavString bs4.NavigableString "shown" ] ].

(** [<p>plain</p>], with nothing to filter. *)
Definition plain_page : bs4.BeautifulSoup :=
  [ bs4.Tag "p" [ bs4.NavString bs4.NavigableString "plain" ] ].

(** The reading of [stripped_strings] under which a stripped string
    keeps the class of the node it comes from. *)
Definition same_class (c : bs4.StringClass) : bs4.PyClass :=
  bs4.class_string c.

(** A string that starts with a minus sign. *)
Definition starts_with_minus (s : string) : bool :=
  match s with
  | String c _ => Ascii.eqb c "-"
  | EmptyString => false
  end.

Definition cat_html : string :=
  "<html><body><script>ignored</script><p>The Cat sat. The cat RAN.</p></body></html>".

(** A network that answers every request with the page of the scenario,
    and the tree that the parser builds from it. *)
Definition example_fetch (url : string) : string + requests.Failure :=
  inl cat_html.

Definition example_parse (html : string) : bs4.BeautifulSoup := cat_page.

(** No character reference to replace. *)
Definition no_references (s : string) : string := s.

(* ===================================================================== *)
(** * A report read back                                                  *)
(* ===================================================================== *)

(** [s.split(c)] for a separator [c] of one character. *)
Fixpoint split_on (c : ascii) (s : string) : list string :=
  match s with
  | EmptyString => [EmptyString]
  | String a s' =>
      if Ascii.eqb a c then EmptyString :: split_on c s'
      else match split_on c s' with
           | l :: ls => String a l :: ls
           | [] => [String a EmptyString]
           end
  end.

Definition line_feed : ascii := ascii_of_nat 10.

(** [report.split("\n")] *)
Definition lines_of (report : string) : list string :=
  split_on line_feed report.

(** A string without a line feed. *)
Definition one_line (s : string) : bool :=
  negb (argparse.contains line_feed s).

(** The lines that [render_report] joins: the line of one tag, the line
    of the word of rank [fst iwc] in a list of [n] words, and all lines of
    a report. *)
Definition tag_line (tc : string * nat) : string :=
("  " ++ Fmt.ljust 15 (fst tc) ++ " "
 ++ Fmt.rjust 6 (Fmt.str_of_nat (snd tc)))%string.

Definition word_line (n : nat) (iwc : nat * (string * nat)) : string :=
("  " ++ Fmt.rjust (String.length (Fmt.str_of_nat n))
                   (Fmt.str_of_nat (fst iwc))
 ++ ". " ++ Fmt.ljust 20 (fst (snd iwc)) ++ " "
 ++ Fmt.rjust 6 (Fmt.str_of_nat (snd (snd iwc))))%string.

Definition report_lines (url : string)
  (word_counts tag_counts : list (string * nat)) : list string :=
[ ("Report for " ++ url)%string;
  Fmt.repeat "=" (String.length ("Report for " ++ url));
  ""; "HTML tag frequencies:" ]
++ map tag_line tag_counts
++ [ ""; ("Top " ++ Fmt.str_of_nat (List.length word_counts)
          ++ " words:")%string ]
++ map (word_line (List.length word_counts)) (enumerate 1 word_counts)
++ [ "" ].


(** A network that refuses every request. *)
Definition refusing_fetch (url : string) : string + requests.Failure :=
  inr (requests.Caught "connection refused").

(* ===================================================================== *)
(** * The scenario of the design document                                 *)
(* ===================================================================== *)

Example tokenise_cat :
  tokenise "The Cat sat. The cat RAN." = ["cat"; "sat"; "cat"; "ran"].
Proof. reflexivity. Qed.

Example tokenise_digits : tokenise "123 456 a b2c" = [].
Proof. reflexivity. Qed.

Example top_n_words_cat :
  top_n_words ["cat"; "sat"; "cat"; "ran"] 100
  = [("cat", 2%nat); ("sat", 1%nat); ("ran", 1%nat)].
Proof. reflexivity. Qed.

Example top_n_words_heap :
  top_n_words ["a"; "b"; "c"; "b"; "d"; "c"; "e"; "d"; "d"] 3
  = [("d", 3%nat); ("b", 2%nat); ("c", 2%nat)].
Proof. reflexivity. Qed.

Example tag_frequencies_cat :
  tag_frequencies cat_page
  = [("html", 1%nat); ("body", 1%nat); ("script", 1%nat); ("p", 1%nat)].
Proof. reflexivity. Qed.

Example int_examples :
  map Fmt.int ["-5"; " 7 "; "1_0"; "+5"; "5.0"; ""; "-"; "1__0"; "007"]
  = [Some (-5)%Z; Some 7%Z; Some 10%Z; Some 5%Z; None; None; None; None;
     Some 7%Z].
Proof. reflexivity. Qed.

Example parse_args_examples :
  map parse_args
      [ ["http://example.com"];
        ["http://example.com"; "-t"; "5"];
        ["--top=7"; "http://example.com"];
        ["http://example.com"; "--top"; "five"];
        ["-h"];
        [] ]
  = [ argparse.Parsed {| argparse.url := "http://example.com";
                         argparse.top := argparse.IntValue 100 |};
      argparse.Parsed {| argparse.url := "http://example.com";
                         argparse.top := argparse.IntValue 5 |};
      argparse.Parsed {| argparse.url := "http://example.com";
                         argparse.top := argparse.IntValue 7 |};
      argparse.SystemExit 2;
      argparse.SystemExit 0;
      argparse.SystemExit 2 ].
Proof. reflexivity. Qed.

(** The text of the scenario, were a stripped string to keep its class. *)
Example visible_text_cat :
  fst (visible_text_from_soup same_class no_references cat_page)
  = "The Cat sat. The cat RAN.".
Proof. reflexivity. Qed.

(* ===================================================================== *)
(** * Facts about strings and the scan                                    *)
(* ===================================================================== *)

Lemma mem_In x xs : Str.mem x xs = true <-> In x xs.
Proof.
  unfold Str.mem. rewrite existsb_exists. split.
  - intros (y & Hy & E). apply String.eqb_eq in E. now subst.
  - intros H. exists x. split; [exact H | apply String.eqb_refl].
Qed.

(** The scan, one step at a time. *)
Lemma scan_cons p c s' :
  re.scan p (c :: s')
  = match re.match_here p (c :: s') with
    | Some (m, rest) => m :: re.scan p rest
    | None => re.scan p s'
    end.
Proof.
  simp scan. unfold re.inspect.
  generalize (@eq_refl _ (re.match_here p (c :: s'))).
  generalize (re.match_here p (c :: s')) at 2 4 5.
  intros [[m rest]|] e; simp scan; reflexivity.
Qed.

(* ===================================================================== *)
(** * Theorems: the tokeniser                                             *)
(* ===================================================================== *)

Section TokeniserFacts.

Lemma in_class_TOKEN_RE c : re.in_class TOKEN_RE c = is_ascii_alpha c.
Proof.
  unfold re.in_class, is_ascii_alpha; simpl. now rewrite orb_false_r.
Qed.

Lemma maximal_runs_sep sep s :
  Forall (fun c => is_ascii_alpha c = false) sep ->
  maximal_runs (sep ++ s) = maximal_runs s.
Proof.
  induction 1 as [|c sep Hc _ IH]; simpl; [reflexivity|].
  now rewrite Hc.
Qed.

Lemma maximal_runs_cons c s :
  maximal_runs (c :: s)
  = if is_ascii_alpha c then
      if starts_alpha s then
        match maximal_runs s with
        | run :: runs => (c :: run) :: runs
        | [] => [[c]]
        end
      else [c] :: maximal_runs s
    else maximal_runs s.
Proof. reflexivity. Qed.

Lemma maximal_runs_run run rest :
  run <> [] ->
  Forall (fun c => is_ascii_alpha c = true) run ->
  starts_alpha rest = false ->
  maximal_runs (run ++ rest) = run :: maximal_runs rest.
Proof.
  intros Hne Hall Hrest. induction Hall as [|c run Hc Hall IH];
    [contradiction|].
  change ((c :: run) ++ rest) with (c :: (run ++ rest)).
  rewrite maximal_runs_cons, Hc. destruct run as [|d run].
  - simpl app. now rewrite Hrest.
  - rewrite IH by discriminate.
    inversion Hall as [|? ? Hd _]; subst. simpl. now rewrite Hd.
Qed.

(** The reading into runs is unique, and [maximal_runs] computes it. *)
Lemma RunsOf_maximal_runs s : RunsOf s (maximal_runs s).
Proof.
  induction s as [|c s IH]; simpl.
  - apply RunsOf_end. constructor.
  - destruct (is_ascii_alpha c) eqn:Hc.
    + destruct (starts_alpha s) eqn:Hs.
      * inversion IH as [sep Hsep E1 E2 | sep run rest runs Hsep Hne Hrun Hrest Hr E1 E2].
        -- subst. destruct s as [|d s]; [discriminate|]. simpl in Hs.
           inversion Hsep; congruence.
        -- destruct sep as [|d sep].
           ++ simpl in *. subst s.
              apply (RunsOf_run [] (c :: run) rest runs); auto.
              discriminate.
           ++ subst s. simpl in Hs. inversion Hsep; congruence.
      * apply (RunsOf_run [] [c] s (maximal_runs s)); auto.
        discriminate.
    + inversion IH as [sep Hsep E1 E2 | sep run rest runs Hsep Hne Hrun Hrest Hr E1 E2].
      * apply RunsOf_end. constructor; assumption.
      * apply (RunsOf_run (c :: sep) run rest runs); auto.
Qed.

Lemma RunsOf_unique s runs : RunsOf s runs -> runs = maximal_runs s.
Proof.
  induction 1 as [sep Hsep | sep run rest runs Hsep Hne Hrun Hrest _ IH].
  - rewrite <- (app_nil_r sep). now rewrite maximal_runs_sep.
  - rewrite maximal_runs_sep by assumption.
    rewrite maximal_runs_run by assumption. now rewrite IH.
Qed.

Lemma greedy_spec s :
  let (m, rest) := re.greedy TOKEN_RE s in
  s = m ++ rest /\ Forall (fun c => is_ascii_alpha c = true) m
  /\ starts_alpha rest = false.
Proof.
  induction s as [|c s IH]; simpl.
  - repeat split; constructor.
  - rewrite in_class_TOKEN_RE. destruct (is_ascii_alpha c) eqn:Hc.
    + destruct (re.greedy TOKEN_RE s) as [m rest].
      destruct IH as (-> & Hm & Hr). repeat split; auto.
    + repeat split; [constructor | simpl; exact Hc].
Qed.

(** The scan of [TOKEN_RE] finds the maximal runs of two or more. *)
Lemma scan_maximal_runs s :
  re.scan TOKEN_RE s
  = filter (fun run => (2 <=? List.length run)%nat) (maximal_runs s).
Proof.
  remember (List.length s) as n eqn:Hn.
  revert s Hn. induction n as [n IH] using lt_wf_ind. intros s Hn.
  destruct s as [|c s']; [reflexivity|].
  rewrite scan_cons.
  pose proof (re.match_here_shorter TOKEN_RE (c :: s')) as Hshort.
  unfold re.match_here in *.
  pose proof (greedy_spec (c :: s')) as G.
  destruct (re.greedy TOKEN_RE (c :: s')) as [m rest].
  destruct G as (E & Hm & Hr).
  change (Pos.to_nat (re.min_repeat TOKEN_RE)) with 2%nat in *.
  destruct (2 <=? List.length m)%nat eqn:Hlen.
  - (* a match here: the run that starts here *)
    specialize (Hshort m rest eq_refl).
    rewrite (IH (List.length rest)) by (subst n; auto).
    rewrite E, maximal_runs_run; auto.
    + cbn [filter]. now rewrite Hlen.
    + intros ->. discriminate.
  - (* no match here: no letter, or a run of one letter *)
    rewrite (IH (List.length s')) by (subst n; simpl; auto).
    apply Nat.leb_gt in Hlen.
    destruct m as [|a [|b m]]; simpl in Hlen; try lia.
    + simpl in E. subst rest. simpl in Hr.
      rewrite maximal_runs_cons. now rewrite Hr.
    + injection E as <- <-.
      inversion Hm as [|? ? Ha _]; subst.
      rewrite maximal_runs_cons, Ha, Hr. reflexivity.
Qed.

Lemma RunsOf_alpha s runs :
  RunsOf s runs ->
  Forall (Forall (fun c => is_ascii_alpha c = true)) runs.
Proof. induction 1; constructor; assumption. Qed.

Lemma length_string_of_list_ascii l :
  String.length (string_of_list_ascii l) = List.length l.
Proof. induction l; simpl; congruence. Qed.

Lemma length_lower s : String.length (Str.lower s) = String.length s.
Proof. induction s; simpl; congruence. Qed.

Lemma list_ascii_of_lower s :
  list_ascii_of_string (Str.lower s)
  = map Str.lower_char (list_ascii_of_string s).
Proof. induction s; simpl; congruence. Qed.

Lemma lower_char_alpha c :
  is_ascii_alpha c = true -> is_ascii_lower (Str.lower_char c) = true.
Proof.
  destruct c as [[] [] [] [] [] [] [] []]; vm_compute; congruence.
Qed.

End TokeniserFacts.

(** C5. For every text, [tokenise] returns the maximal runs of ASCII
    letters that are at least two characters long, lower-cased, in the
    order of the text, without those that are stop-words.  The runs are
    those of the one reading of the text into separators and runs
    ([RunsOf]).  No token is shorter than two characters, every character
    of a token is one of [a-z] (so no digit and no punctuation), and no
    token is a stop-word. *)
Theorem tokenise_maximal_runs (text : string) :
  RunsOf (list_ascii_of_string text)
         (maximal_runs (list_ascii_of_string text))
  /\ (forall runs, RunsOf (list_ascii_of_string text) runs ->
                   runs = maximal_runs (list_ascii_of_string text))
  /\ tokenise text = tokenise_spec text
  /\ Forall (fun tok =>
               (2 <= String.length tok)%nat
               /\ Forall (fun c => is_ascii_lower c = true)
                         (list_ascii_of_string tok)
               /\ ~ In tok STOP_WORDS)
            (tokenise text).
Proof.
  assert (E : tokenise text = tokenise_spec text).
  { unfold tokenise, tokenise_spec, re.finditer.
    now rewrite scan_maximal_runs, map_map. }
  split; [apply RunsOf_maximal_runs|].
  split; [apply RunsOf_unique|].
  split; [exact E|].
  rewrite E. unfold tokenise_spec.
  apply Forall_forall. intros tok Hin.
  apply filter_In in Hin. destruct Hin as [Hin Hstop].
  apply in_map_iff in Hin. destruct Hin as (run & <- & Hrun).
  apply filter_In in Hrun. destruct Hrun as [Hrun Hlen].
  apply Nat.leb_le in Hlen.
  pose proof (RunsOf_alpha _ _ (RunsOf_maximal_runs (list_ascii_of_string text)))
    as Halpha.
  rewrite Forall_forall in Halpha. specialize (Halpha run Hrun).
  split; [|split].
  - now rewrite length_lower, length_string_of_list_ascii.
  - rewrite list_ascii_of_lower, list_ascii_of_string_of_list_ascii.
    apply Forall_map. eapply Forall_impl; [|exact Halpha].
    intros c Hc. now apply lower_char_alpha.
  - intros Hmem. apply mem_In in Hmem.
    rewrite Hmem in Hstop. discriminate.
Qed.


Lemma tokenise_maximal_runs_witness :
  RunsOf (list_ascii_of_string "ab, cd")
         [list_ascii_of_string "ab"; list_ascii_of_string "cd"]
  /\ [list_ascii_of_string "ab"; list_ascii_of_string "cd"]
     = maximal_runs (list_ascii_of_string "ab, cd").
Proof.
  assert (H : RunsOf (list_ascii_of_string "ab, cd")
                [list_ascii_of_string "ab"; list_ascii_of_string "cd"]).
  { apply (RunsOf_run [] (list_ascii_of_string "ab")
             (list_ascii_of_string ", cd") [list_ascii_of_string "cd"]);
      [constructor | discriminate | repeat constructor | reflexivity |].
    apply (RunsOf_run (list_ascii_of_string ", ")
             (list_ascii_of_string "cd") [] []);
      [repeat constructor | discriminate | repeat constructor
      | reflexivity |].
    apply RunsOf_end. constructor. }
  split; [exact H|].
  exact (proj1 (proj2 (tokenise_maximal_runs "ab, cd")) _ H).
Defined.

(* ===================================================================== *)
(** * Facts about the stable descending sort                              *)
(* ===================================================================== *)

Section SortFacts.

Context {A : Type}.
Variable ltb : A -> A -> bool.

(** [ltb] compares sort keys: it is a strict weak order. *)
Hypothesis ltb_irrefl : forall x, ltb x x = false.
Hypothesis ltb_trans :
forall x y z, ltb x y = true -> ltb y z = true -> ltb x z = true.
Hypothesis ltb_negtrans :
forall x y z, ltb x y = false -> ltb y z = false -> ltb x z = false.

Abbreviation insert_desc := (builtins.insert_desc ltb).
Abbreviation sorted_reverse := (builtins.sorted_reverse ltb).

Lemma ltb_asym x y : ltb x y = true -> ltb y x = false.
Proof.
intros H. destruct (ltb y x) eqn:E; [|reflexivity].
rewrite <- (ltb_irrefl x). symmetry. eapply ltb_trans; eauto.
Qed.

Lemma insert_desc_perm x l : Permutation (insert_desc x l) (x :: l).
Proof.
induction l as [|y l IH]; simpl; [reflexivity|].
destruct (ltb x y); [|reflexivity].
rewrite IH. apply perm_swap.
Qed.

Lemma sorted_reverse_perm l : Permutation (sorted_reverse l) l.
Proof.
induction l as [|x l IH]; simpl; [reflexivity|].
rewrite insert_desc_perm. now constructor.
Qed.

Lemma insert_desc_Descending x l :
Descending ltb l -> Descending ltb (insert_desc x l).
Proof.
induction 1 as [|y l Hl IH Hy]; simpl.
- repeat constructor.
- destruct (ltb x y) eqn:E.
  + constructor; [exact IH|].
    rewrite Forall_forall in *. intros z Hz.
    apply (Permutation_in _ (insert_desc_perm x l)) in Hz.
    destruct Hz as [<-|Hz]; [now apply ltb_asym | now apply Hy].
  + constructor; [now constructor|].
    constructor; [exact E|].
    rewrite Forall_forall in *. intros z Hz.
    eapply ltb_negtrans; eauto.
Qed.

Lemma sorted_reverse_Descending l : Descending ltb (sorted_reverse l).
Proof.
induction l as [|x l IH]; simpl; [constructor|].
now apply insert_desc_Descending.
Qed.

(** Stability: among the elements of one sort key the order of the
  input is kept. *)
Lemma insert_desc_stable a x l :
filter (same_key ltb a) (insert_desc x l)
= filter (same_key ltb a) (x :: l).
Proof.
induction l as [|y l IH]; [reflexivity|].
simpl builtins.insert_desc. destruct (ltb x y) eqn:E; [|reflexivity].
cbn [filter]. rewrite IH. cbn [filter].
destruct (same_key ltb a x) eqn:Hx, (same_key ltb a y) eqn:Hy;
  try reflexivity.
exfalso. unfold same_key in *.
apply andb_true_iff in Hx, Hy.
destruct Hx as [_ Hx], Hy as [Hy _].
apply negb_true_iff in Hx, Hy.
rewrite (ltb_negtrans _ _ _ Hx Hy) in E. discriminate.
Qed.

Lemma sorted_reverse_stable a l :
filter (same_key ltb a) (sorted_reverse l) = filter (same_key ltb a) l.
Proof.
induction l as [|x l IH]; [reflexivity|].
simpl. rewrite insert_desc_stable. cbn [filter]. now rewrite IH.
Qed.

Lemma insert_desc_after a x l :
insert_desc a (insert_after ltb x l) = insert_after ltb x (insert_desc a l).
Proof.
induction l as [|y l IH]; simpl.
- destruct (ltb a x); reflexivity.
- destruct (ltb y x) eqn:Eyx, (ltb a y) eqn:Eay; simpl;
    rewrite ?Eyx, ?Eay.
  + now rewrite (ltb_trans _ _ _ Eay Eyx).
  + destruct (ltb a x) eqn:Eax; simpl; rewrite ?Eyx, ?Eay, ?Eax;
      reflexivity.
  + now rewrite IH.
  + now rewrite (ltb_negtrans _ _ _ Eay Eyx).
Qed.

Lemma sorted_reverse_snoc l x :
sorted_reverse (l ++ [x]) = insert_after ltb x (sorted_reverse l).
Proof.
induction l as [|a l IH]; [reflexivity|].
simpl. rewrite IH. apply insert_desc_after.
Qed.

(** [max] returns what the sort puts first. *)
Lemma max_from_sorted best l pre tl :
sorted_reverse pre = best :: tl ->
hd_error (sorted_reverse (pre ++ l)) = Some (builtins.max_from ltb best l).
Proof.
revert best pre tl. induction l as [|x l IH]; intros best pre tl E.
- now rewrite app_nil_r, E.
- change (pre ++ x :: l) with (pre ++ [x] ++ l). rewrite app_assoc.
  simpl builtins.max_from.
  pose proof (sorted_reverse_snoc pre x) as S. rewrite E in S. simpl in S.
  destruct (ltb best x); eapply IH; exact S.
Qed.

Lemma max_sorted l :
builtins.max ltb l = hd_error (sorted_reverse l).
Proof.
destruct l as [|x l]; [reflexivity|].
symmetry. apply (max_from_sorted x l [x] []). reflexivity.
Qed.

(** Where the newcomer lands among the first [k]. *)
Lemma firstn_insert_after_keep k x l :
Descending ltb l -> (k <= List.length l)%nat ->
(forall y, In y (firstn k l) -> ltb y x = false) ->
firstn k (insert_after ltb x l) = firstn k l.
Proof.
revert k. induction l as [|y l IH]; intros k Hd Hk Hall.
- simpl in Hk. now replace k with 0%nat by lia.
- destruct k as [|k]; [reflexivity|].
  simpl. rewrite (Hall y) by (simpl; auto). simpl. f_equal.
  inversion Hd; subst. apply IH; auto.
  + simpl in Hk. lia.
  + intros z Hz. apply Hall. simpl. auto.
Qed.

Lemma firstn_insert_after_push k x l :
Descending ltb l -> (S k <= List.length l)%nat ->
ltb (nth k l x) x = true ->
firstn (S k) (insert_after ltb x l) = insert_after ltb x (firstn k l).
Proof.
revert k. induction l as [|y l IH]; intros k Hd Hk Hlt.
- simpl in Hk. lia.
- simpl. destruct (ltb y x) eqn:E.
  + destruct k; [reflexivity|]. cbn [firstn insert_after]. now rewrite E.
  + destruct k as [|k].
    * simpl in Hlt. congruence.
    * inversion Hd; subst. simpl in Hk, Hlt.
      cbn [firstn insert_after]. rewrite E. f_equal.
      apply IH; auto. lia.
Qed.

(** A list that is already in descending order is left as it is. *)
Lemma sorted_reverse_fixed l : Descending ltb l -> sorted_reverse l = l.
Proof.
induction 1 as [|x l Hl IH Hx]; [reflexivity|].
simpl. rewrite IH. destruct l as [|y l]; [reflexivity|].
simpl. rewrite Forall_forall in Hx.
now rewrite (Hx y) by (simpl; auto).
Qed.

Lemma Descending_firstn k l : Descending ltb l -> Descending ltb (firstn k l).
Proof.
intros H. revert k. induction H as [|x l Hl IH Hx]; intros [|k];
  simpl; try constructor; auto.
- apply IH.
- rewrite Forall_forall in *. intros z Hz. apply Hx.
  rewrite <- (firstn_skipn k l). apply in_or_app. now left.
Qed.

(** Two descending lists with the same elements are equal when distinct
  elements never share their sort key. *)
Lemma Descending_unique l1 l2 :
Permutation l1 l2 -> Descending ltb l1 -> Descending ltb l2 ->
(forall x y, In x l1 -> In y l1 ->
             ltb x y = false -> ltb y x = false -> x = y) ->
l1 = l2.
Proof.
revert l2. induction l1 as [|a l1 IH]; intros l2 Hp H1 H2 Htot.
- apply Permutation_nil in Hp. now subst.
- destruct l2 as [|b l2].
  { apply Permutation_sym, Permutation_nil in Hp. discriminate. }
  inversion H1 as [|? ? H1' Ha]; subst.
  inversion H2 as [|? ? H2' Hb]; subst.
  rewrite Forall_forall in Ha, Hb.
  assert (a = b) as <-.
  { assert (Ia : In a (b :: l2))
      by (eapply Permutation_in; [exact Hp | simpl; auto]).
    assert (Ib : In b (a :: l1))
      by (eapply Permutation_in;
          [apply Permutation_sym; exact Hp | simpl; auto]).
    destruct Ia as [->|Ia]; [reflexivity|].
    destruct Ib as [->|Ib]; [reflexivity|].
    apply Htot; simpl; auto. }
  f_equal. apply IH; auto.
  + eapply Permutation_cons_inv; eauto.
  + intros x y Hx Hy. apply Htot; simpl; auto.
Qed.

Lemma sorted_reverse_perm_eq l1 l2 :
Permutation l1 l2 ->
(forall x y, In x l1 -> In y l1 ->
             ltb x y = false -> ltb y x = false -> x = y) ->
sorted_reverse l1 = sorted_reverse l2.
Proof.
intros Hp Htot. apply Descending_unique.
- rewrite (sorted_reverse_perm l1), (sorted_reverse_perm l2). exact Hp.
- apply sorted_reverse_Descending.
- apply sorted_reverse_Descending.
- intros x y Hx Hy. apply Htot.
  + eapply Permutation_in; [apply sorted_reverse_perm | exact Hx].
  + eapply Permutation_in; [apply sorted_reverse_perm | exact Hy].
Qed.

(** The last element of a descending list is a least one. *)
Lemma Descending_last l d e :
Descending ltb l -> In e l -> ltb e (last l d) = false.
Proof.
induction 1 as [|x l Hl IH Hx]; intros Hin; [contradiction|].
destruct l as [|y l].
- destruct Hin as [<-|[]]. apply ltb_irrefl.
- change (last (x :: y :: l) d) with (last (y :: l) d).
  destruct Hin as [<-|Hin]; [|now apply IH].
  rewrite Forall_forall in Hx. apply Hx.
  destruct (exists_last (l := y :: l)) as (l' & z & E); [discriminate|].
  rewrite E, last_last. apply in_or_app. right. simpl. auto.
Qed.

End SortFacts.

(* ===================================================================== *)
(** * [heapq.nlargest] returns the head of the sorted list                *)
(* ===================================================================== *)

Ltac order_bool :=
  unfold heapq.key_ltb, heapq.entry_ltb in *;
  repeat match goal with
         | H : _ |- _ =>
             first [ rewrite orb_true_iff in H | rewrite orb_false_iff in H
                   | rewrite andb_true_iff in H | rewrite andb_false_iff in H
                   | rewrite Nat.ltb_lt in H | rewrite Nat.ltb_ge in H
                   | rewrite Nat.eqb_eq in H | rewrite Nat.eqb_neq in H
                   | rewrite Z.ltb_lt in H | rewrite Z.ltb_ge in H ]
         end;
  rewrite ?orb_true_iff, ?orb_false_iff, ?andb_true_iff, ?andb_false_iff,
    ?Nat.ltb_lt, ?Nat.ltb_ge, ?Nat.eqb_eq, ?Nat.eqb_neq, ?Z.ltb_lt, ?Z.ltb_ge.

Section HeapFacts.

Context {A : Type}.
Variable key : A -> nat.

Abbreviation kl := (heapq.key_ltb key).
Abbreviation el := (@heapq.entry_ltb A).
Abbreviation okey := (@heapq.entry_key A).
Abbreviation oord := (@heapq.entry_order A).
Abbreviation oelem := (@heapq.entry_elem A).

Lemma kl_irrefl x : kl x x = false.
Proof. order_bool. lia. Qed.

Lemma kl_trans x y z : kl x y = true -> kl y z = true -> kl x z = true.
Proof. intros; order_bool; lia. Qed.

Lemma kl_negtrans x y z : kl x y = false -> kl y z = false -> kl x z = false.
Proof. intros; order_bool; lia. Qed.

Lemma el_irrefl x : el x x = false.
Proof. order_bool. lia. Qed.

Lemma el_trans x y z : el x y = true -> el y z = true -> el x z = true.
Proof. intros; order_bool; lia. Qed.

Lemma el_negtrans x y z : el x y = false -> el y z = false -> el x z = false.
Proof. intros; order_bool; lia. Qed.

Abbreviation Entry := (@heapq.Entry A).

(** Entries with distinct [order] fields are totally ordered. *)
Lemma NoDup_order_eq (h : list Entry) x y :
NoDup (map oord h) -> In x h -> In y h -> oord x = oord y -> x = y.
Proof.
induction h as [|e h IH]; simpl; [contradiction|].
intros Hnd Hx Hy E. inversion Hnd as [|? ? Hnot Hnd']; subst.
destruct Hx as [->|Hx], Hy as [->|Hy]; auto.
- exfalso. apply Hnot. rewrite E. now apply in_map.
- exfalso. apply Hnot. rewrite <- E. now apply in_map.
Qed.

Lemma el_total (h : list Entry) :
NoDup (map oord h) ->
forall x y, In x h -> In y h -> el x y = false -> el y x = false -> x = y.
Proof.
intros Hnd x y Hx Hy Exy Eyx.
apply (NoDup_order_eq h); auto. order_bool. lia.
Qed.

(** [smallest] finds a least entry. *)
Lemma smallest_from_min best (h : list Entry) :
In (heapq.smallest_from best h) (best :: h)
/\ forall e, In e (best :: h) -> el e (heapq.smallest_from best h) = false.
Proof.
revert best. induction h as [|x h IH]; intros best; simpl.
- split; [auto|]. intros e [<-|[]]. apply el_irrefl.
- destruct (IH (if el x best then x else best)) as [Hin Hmin].
  split.
  + destruct (el x best); simpl in Hin; tauto.
  + intros e He.
    destruct (el x best) eqn:E.
    * destruct He as [<-|[<-|He]].
      -- apply (el_negtrans _ x).
         ++ apply (ltb_asym el el_irrefl el_trans); exact E.
         ++ apply Hmin. simpl; auto.
      -- apply Hmin. simpl; auto.
      -- apply Hmin. simpl; auto.
    * destruct He as [<-|[<-|He]].
      -- apply Hmin. simpl; auto.
      -- apply (el_negtrans _ best); [exact E|]. apply Hmin. simpl; auto.
      -- apply Hmin. simpl; auto.
Qed.

Lemma smallest_is_last (h : list Entry) m d :
NoDup (map oord h) ->
heapq.smallest h = Some m ->
m = last (builtins.sorted_reverse el h) d.
Proof.
intros Hnd Hm. destruct h as [|e h]; [discriminate|].
injection Hm as <-.
destruct (smallest_from_min e h) as [Hin Hmin].
set (L := builtins.sorted_reverse el (e :: h)) in *.
assert (HL : Permutation L (e :: h)) by apply sorted_reverse_perm.
assert (Hne : L <> []).
{ intros E. rewrite E in HL. apply Permutation_nil in HL. discriminate. }
assert (Hlast : In (last L d) L).
{ rewrite (app_removelast_last d Hne) at 2. apply in_or_app.
  right. simpl. auto. }
apply (el_total (e :: h) Hnd); auto.
- eapply Permutation_in; eauto.
- apply (Descending_last el el_irrefl).
  + apply (sorted_reverse_Descending el el_irrefl el_trans el_negtrans).
  + eapply Permutation_in; [apply Permutation_sym; exact HL | exact Hin].
- apply Hmin. eapply Permutation_in; eauto.
Qed.

Lemma remove_order_perm (h : list Entry) m :
NoDup (map oord h) -> In m h ->
Permutation h (m :: heapq.remove_order (oord m) h).
Proof.
induction h as [|e h IH]; simpl; [contradiction|].
intros Hnd Hin. inversion Hnd as [|? ? Hnot Hnd']; subst.
destruct (oord e =? oord m)%Z eqn:E.
- apply Z.eqb_eq in E.
  assert (e = m) as ->; [|reflexivity].
  apply (NoDup_order_eq (e :: h)); simpl; auto.
- destruct Hin as [->|Hin].
  + rewrite Z.eqb_refl in E. discriminate.
  + rewrite (IH Hnd' Hin) at 1. apply perm_swap.
Qed.

Lemma smallest_In (h : list Entry) m : heapq.smallest h = Some m -> In m h.
Proof.
destruct h as [|e h]; [discriminate|]. intros [= <-].
apply smallest_from_min.
Qed.

Lemma sorted_remove_smallest (h : list Entry) m :
NoDup (map oord h) ->
heapq.smallest h = Some m ->
builtins.sorted_reverse el (heapq.remove_order (oord m) h)
= removelast (builtins.sorted_reverse el h).
Proof.
intros Hnd Hm.
pose proof (smallest_In h m Hm) as Hin.
pose proof (remove_order_perm h m Hnd Hin) as Hp.
set (h' := heapq.remove_order (oord m) h) in *.
set (L := builtins.sorted_reverse el h).
assert (HL : Permutation L h) by apply sorted_reverse_perm.
assert (Hne : L <> []).
{ intros E. rewrite E in HL. apply Permutation_nil in HL.
  subst h. contradiction. }
assert (Hd : Descending el L)
  by apply (sorted_reverse_Descending el el_irrefl el_trans el_negtrans).
assert (Hrl : Permutation h' (removelast L)).
{ apply (Permutation_cons_inv (a := m)).
  apply Permutation_trans with h; [now apply Permutation_sym|].
  apply Permutation_trans with L; [now apply Permutation_sym|].
  pose proof (app_removelast_last m Hne) as E.
  unfold L in E at 3. rewrite <- (smallest_is_last h m m Hnd Hm) in E.
  rewrite E at 1.
  apply Permutation_sym, Permutation_cons_append. }
assert (Hnd' : NoDup (map oord h')).
{ assert (N : NoDup (map oord (m :: h'))).
  { eapply Permutation_NoDup; [|exact Hnd]. now apply Permutation_map. }
  now inversion N. }
rewrite (sorted_reverse_perm_eq el el_irrefl el_trans el_negtrans
           h' (removelast L) Hrl (el_total h' Hnd')).
apply (sorted_reverse_fixed el).
rewrite removelast_firstn_len. now apply Descending_firstn.
Qed.

(** An entry whose [order] is below all others goes where [insert_after]
  puts its element; one whose [order] is above all others goes where
  [insert_desc] puts it. *)
Lemma map_insert_desc_new x o (L : list Entry) :
Forall (fun e => okey e = key (oelem e) /\ (o < oord e)%Z) L ->
map oelem (builtins.insert_desc el (key x, o, x) L)
= insert_after kl x (map oelem L).
Proof.
induction 1 as [|y L [Hk Ho] _ IH]; [reflexivity|].
simpl.
assert (E : el (key x, o, x) y = negb (kl (oelem y) x)).
{ unfold heapq.entry_ltb, heapq.key_ltb.
  change (heapq.entry_key (key x, o, x)) with (key x).
  change (heapq.entry_order (key x, o, x)) with o.
  rewrite <- Hk.
  destruct (Nat.ltb_spec (key x) (okey y)), (Nat.eqb_spec (key x) (okey y)),
    (Z.ltb_spec o (oord y)), (Nat.ltb_spec (okey y) (key x));
    simpl; try reflexivity; lia. }
rewrite E. destruct (kl (oelem y) x); simpl; [reflexivity|].
now rewrite IH.
Qed.

Lemma map_insert_desc_old x o (L : list Entry) :
Forall (fun e => okey e = key (oelem e) /\ (oord e < o)%Z) L ->
map oelem (builtins.insert_desc el (key x, o, x) L)
= builtins.insert_desc kl x (map oelem L).
Proof.
induction 1 as [|y L [Hk Ho] _ IH]; [reflexivity|].
simpl.
assert (E : el (key x, o, x) y = kl x (oelem y)).
{ unfold heapq.entry_ltb, heapq.key_ltb.
  change (heapq.entry_key (key x, o, x)) with (key x).
  change (heapq.entry_order (key x, o, x)) with o.
  rewrite <- Hk.
  destruct (Nat.ltb_spec (key x) (okey y)), (Nat.eqb_spec (key x) (okey y)),
    (Z.ltb_spec o (oord y)); simpl; try reflexivity; lia. }
rewrite E. destruct (kl x (oelem y)); simpl; [|reflexivity].
now rewrite IH.
Qed.

Lemma map_removelast {B C : Type} (f : B -> C) l :
map f (removelast l) = removelast (map f l).
Proof.
induction l as [|x [|y l] IH]; try reflexivity.
change (f x :: map f (removelast (y :: l))
        = f x :: removelast (map f (y :: l))).
now rewrite IH.
Qed.

Lemma map_last {B C : Type} (f : B -> C) l d :
last (map f l) (f d) = f (last l d).
Proof.
induction l as [|x [|y l] IH]; try reflexivity. exact IH.
Qed.

Lemma last_firstn_nth {B : Type} k (l : list B) d :
(S k <= List.length l)%nat -> last (firstn (S k) l) d = nth k l d.
Proof.
revert k. induction l as [|x l IH]; intros k Hk; simpl in Hk; [lia|].
destruct k as [|k]; [reflexivity|].
change (firstn (S (S k)) (x :: l)) with (x :: firstn (S k) l).
destruct l as [|y l]; [simpl in Hk; lia|].
change (last (x :: firstn (S k) (y :: l)) d)
  with (last (firstn (S k) (y :: l)) d).
apply IH. simpl in *. lia.
Qed.

Lemma HeapInv_top k order h seen :
HeapInv key k order h seen ->
exists m, heapq.smallest h = Some m
          /\ heapq.top h = key (oelem m)
          /\ oelem m
             = nth (k - 1) (builtins.sorted_reverse kl seen) (oelem m)
          /\ forall y, In y (firstn k (builtins.sorted_reverse kl seen)) ->
                       (key (oelem m) <= key y)%nat.
Proof.
intros (Hmap & Hlen & Hk & Hall & Hnd).
destruct h as [|e h]; [simpl in Hlen; lia|].
destruct (heapq.smallest (e :: h)) as [m|] eqn:Hm; [|discriminate].
exists m. split; [reflexivity|].
pose proof (smallest_In _ _ Hm) as Hin.
rewrite Forall_forall in Hall.
assert (Hlast : m = last (builtins.sorted_reverse el (e :: h)) m)
  by (now apply smallest_is_last).
assert (Hperm : Permutation (builtins.sorted_reverse kl seen) seen)
  by apply sorted_reverse_perm.
split; [|split].
- unfold heapq.top. rewrite Hm. now apply Hall.
- replace k with (S (k - 1)) in Hmap by lia.
  rewrite <- last_firstn_nth
    by (rewrite (Permutation_length Hperm); lia).
  rewrite <- Hmap, map_last. now f_equal.
- intros y Hy. rewrite <- Hmap in Hy. apply in_map_iff in Hy.
  destruct Hy as (e' & <- & He').
  assert (He'' : In e' (e :: h)).
  { eapply Permutation_in; [apply sorted_reverse_perm | exact He']. }
  pose proof (Descending_last el el_irrefl _ m e'
    (sorted_reverse_Descending el el_irrefl el_trans el_negtrans (e :: h))
    He') as Hle.
  rewrite <- Hlast in Hle.
  destruct (Hall _ He'') as [<- _]. destruct (Hall _ Hin) as [<- _].
  order_bool. lia.
Qed.

Lemma HeapInv_keep k order h seen x :
HeapInv key k order h seen ->
(heapq.top h <? key x)%nat = false ->
HeapInv key k order h (seen ++ [x]).
Proof.
intros Hinv Htop.
destruct (HeapInv_top _ _ _ _ Hinv) as (m & Hm & Et & _ & Hmin).
destruct Hinv as (Hmap & Hlen & Hk & Hall & Hnd).
apply Nat.ltb_ge in Htop.
assert (Hperm : Permutation (builtins.sorted_reverse kl seen) seen)
  by apply sorted_reverse_perm.
split; [|split; [|split; [|split]]]; auto.
- rewrite Hmap, (sorted_reverse_snoc kl kl_trans kl_negtrans).
  symmetry. apply firstn_insert_after_keep.
  + apply (sorted_reverse_Descending kl kl_irrefl kl_trans kl_negtrans).
  + rewrite (Permutation_length Hperm). lia.
  + intros y Hy. specialize (Hmin y Hy). order_bool. lia.
- rewrite length_app. simpl. lia.
Qed.

Lemma HeapInv_push k order h seen x :
HeapInv key k order h seen ->
(heapq.top h <? key x)%nat = true ->
HeapInv key k (order - 1) (heapq.heapreplace h (key x, order, x))
        (seen ++ [x]).
Proof.
intros Hinv Htop.
destruct (HeapInv_top _ _ _ _ Hinv) as (m & Hm & Et & Enth & _).
destruct Hinv as (Hmap & Hlen & Hk & Hall & Hnd).
apply Nat.ltb_lt in Htop.
assert (Hperm : Permutation (builtins.sorted_reverse kl seen) seen)
  by apply sorted_reverse_perm.
pose proof (smallest_In _ _ Hm) as Hin.
pose proof (remove_order_perm h m Hnd Hin) as Hp.
unfold heapq.heapreplace. rewrite Hm.
set (h' := heapq.remove_order (oord m) h) in *.
assert (Hall' : Forall (fun e => okey e = key (oelem e)
                                 /\ (order < oord e)%Z) h').
{ rewrite Forall_forall in *. intros e He. apply Hall.
  eapply Permutation_in; [apply Permutation_sym; exact Hp|].
  simpl; auto. }
assert (Hnd' : NoDup (map oord (m :: h'))).
{ eapply Permutation_NoDup; [|exact Hnd]. now apply Permutation_map. }
split; [|split; [|split; [|split]]].
- change (builtins.sorted_reverse el ((key x, order, x) :: h'))
    with (builtins.insert_desc el (key x, order, x)
            (builtins.sorted_reverse el h')).
  rewrite map_insert_desc_new.
  + unfold h'. rewrite (sorted_remove_smallest h m Hnd Hm).
    rewrite map_removelast, Hmap.
    rewrite (sorted_reverse_snoc kl kl_trans kl_negtrans).
    replace k with (S (k - 1)) by lia.
    rewrite removelast_firstn
      by (rewrite (Permutation_length Hperm); lia).
    symmetry. apply firstn_insert_after_push.
    * apply (sorted_reverse_Descending kl kl_irrefl kl_trans kl_negtrans).
    * rewrite (Permutation_length Hperm). lia.
    * rewrite (nth_indep _ x (oelem m))
        by (rewrite (Permutation_length Hperm); lia).
      rewrite <- Enth. order_bool. lia.
  + rewrite Forall_forall in *. intros e He. apply Hall'.
    eapply Permutation_in; [apply sorted_reverse_perm | exact He].
- apply Permutation_length in Hp. simpl in *. lia.
- rewrite length_app. simpl. lia.
- constructor;
    [unfold heapq.entry_order; simpl; split; [reflexivity | lia]|].
  eapply Forall_impl; [|exact Hall']. simpl. intros e [? ?]. split; [auto|lia].
- simpl. constructor; [|now inversion Hnd'].
  intros Hc. apply in_map_iff in Hc. destruct Hc as (e & Ee & He).
  rewrite Forall_forall in Hall'. destruct (Hall' e He) as [_ Ho].
  change (heapq.entry_order (key x, order, x)) with order in *. lia.
Qed.

Lemma select_HeapInv k rest : forall order h seen,
HeapInv key k order h seen ->
exists order',
  HeapInv key k order' (heapq.select key h order rest) (seen ++ rest).
Proof.
induction rest as [|x rest IH]; intros order h seen Hinv; simpl.
- exists order. now rewrite app_nil_r.
- change (seen ++ x :: rest) with (seen ++ [x] ++ rest).
  rewrite app_assoc.
  destruct (heapq.top h <? key x)%nat eqn:E.
  + apply IH. now apply HeapInv_push.
  + apply IH. now apply HeapInv_keep.
Qed.

(** The heap as it is first filled: the first [k] elements, numbered
  downwards from [- a]. *)
Lemma first_heap a k : forall (l : list A),
(k <= List.length l)%nat ->
let h := map (fun ie : Z * A => (key (snd ie), fst ie, snd ie))
             (combine (map (fun i => (- Z.of_nat i)%Z) (seq a k)) l) in
map oelem (builtins.sorted_reverse el h)
= builtins.sorted_reverse kl (firstn k l)
/\ List.length h = k
/\ Forall (fun e => okey e = key (oelem e)
                    /\ (- Z.of_nat (a + k) < oord e <= - Z.of_nat a)%Z) h
/\ NoDup (map oord h).
Proof.
revert a. induction k as [|k IH]; intros a l Hk.
- simpl. repeat split; constructor.
- destruct l as [|x l]; [simpl in Hk; lia|].
  simpl in Hk. specialize (IH (S a) l ltac:(lia)).
  cbv zeta in IH. destruct IH as (Hmap & Hlen & Hall & Hnd).
  cbn [seq map combine firstn]. cbv zeta.
  set (h := map (fun ie : Z * A => (key (snd ie), fst ie, snd ie))
                (combine (map (fun i => (- Z.of_nat i)%Z) (seq (S a) k)) l))
    in *.
  cbn [fst snd].
  split; [|split; [|split]].
  + change (builtins.sorted_reverse el ((key x, (- Z.of_nat a)%Z, x) :: h))
      with (builtins.insert_desc el (key x, (- Z.of_nat a)%Z, x)
              (builtins.sorted_reverse el h)).
    rewrite map_insert_desc_old.
    * now rewrite Hmap.
    * rewrite Forall_forall in *. intros e He.
      assert (He' : In e h)
        by (eapply Permutation_in; [apply sorted_reverse_perm | exact He]).
      destruct (Hall e He') as [? ?]. split; [auto|lia].
  + simpl. now rewrite Hlen.
  + constructor.
    * unfold heapq.entry_order, heapq.entry_key, heapq.entry_elem. simpl.
      split; [reflexivity | lia].
    * eapply Forall_impl; [|exact Hall]. simpl. intros e [? ?].
      split; [auto|lia].
  + simpl. constructor; [|exact Hnd].
    intros Hc. apply in_map_iff in Hc. destruct Hc as (e & Ee & He).
    rewrite Forall_forall in Hall. destruct (Hall e He) as [_ Ho].
    change (heapq.entry_order (key x, (- Z.of_nat a)%Z, x))
      with (- Z.of_nat a)%Z in Ee. lia.
Qed.

(** [nlargest] returns the first [n] elements of the stable descending
  sort when [n] is not negative, and nothing when it is. *)
Lemma nlargest_spec n l :
heapq.nlargest key n l
= if (n <? 0)%Z then []
  else firstn (Z.to_nat n) (builtins.sorted_reverse kl l).
Proof.
unfold heapq.nlargest.
destruct (Z.eqb_spec n 1) as [->|Hn1].
- (* n == 1 *)
  rewrite (max_sorted kl kl_trans kl_negtrans). simpl.
  now destruct (builtins.sorted_reverse kl l).
- destruct (Z.geb_spec n (Z.of_nat (List.length l))) as [Hge|Hlt].
  + (* n >= size *)
    unfold builtins.slice_to.
    destruct (Z.ltb_spec n 0); [lia | reflexivity].
  + destruct (Z.ltb_spec n 0) as [Hneg|Hpos].
    * (* negative: the range is empty *)
      unfold builtins.range_down.
      replace (Z.to_nat (- - n)) with 0%nat by lia. reflexivity.
    * unfold builtins.range_down.
      replace (Z.to_nat (- - n)) with (Z.to_nat n) by lia.
      set (k := Z.to_nat n).
      assert (Hk : (k <= List.length l)%nat) by lia.
      destruct (first_heap 0 k l Hk) as (Hmap & Hlen & Hall & Hnd).
      set (h := map (fun ie : Z * A => (key (snd ie), fst ie, snd ie))
                    (combine (map (fun i => (- Z.of_nat i)%Z) (seq 0 k)) l))
        in *.
      destruct h as [|e h'] eqn:Eh.
      { simpl in Hlen. now rewrite <- Hlen. }
      rewrite <- Eh in *. rewrite Hlen.
      assert (Hinv : HeapInv key k (- n) h (firstn k l)).
      { split; [|split; [|split; [|split]]]; auto.
        - rewrite Hmap. symmetry. apply firstn_all2.
          rewrite (Permutation_length (sorted_reverse_perm kl _)).
          apply firstn_le_length.
        - rewrite firstn_length_le by exact Hk.
          split; [|lia]. rewrite <- Hlen, Eh. simpl. lia.
        - eapply Forall_impl; [|exact Hall]. simpl. intros e0 [? ?].
          split; [auto|lia]. }
      destruct (select_HeapInv k (skipn k l) _ _ _ Hinv)
        as (order' & Hfinal & _).
      rewrite firstn_skipn in Hfinal. exact Hfinal.
Qed.

End HeapFacts.

(* ===================================================================== *)
(** * Facts about [Counter]                                               *)
(* ===================================================================== *)

Section CounterFacts.

Abbreviation keys_of := (map (@fst string nat)).

Lemma incr_keys k c :
keys_of (Counter.incr k c)
= if Str.mem k (keys_of c) then keys_of c else keys_of c ++ [k].
Proof.
induction c as [|[k' v] c IH]; simpl; [reflexivity|].
destruct (String.eqb k k') eqn:E; simpl; [reflexivity|].
rewrite IH. now destruct (Str.mem k (keys_of c)).
Qed.

Lemma incr_get k k' c :
get k (Counter.incr k' c)
= (get k c + if String.eqb k k' then 1 else 0)%nat.
Proof.
induction c as [|[k0 v] c IH]; simpl.
- destruct (String.eqb k k'); reflexivity.
- destruct (String.eqb k' k0) eqn:E0; simpl.
  + apply String.eqb_eq in E0. subst k0.
    destruct (String.eqb k k'); lia.
  + destruct (String.eqb k k0) eqn:E1; [|exact IH].
    apply String.eqb_eq in E1. subst k0.
    rewrite String.eqb_sym, E0. lia.
Qed.

Lemma incr_total k c : total (Counter.incr k c) = S (total c).
Proof.
induction c as [|[k' v] c IH]; simpl; [reflexivity|].
destruct (String.eqb k k'); simpl; [reflexivity|]. rewrite IH. lia.
Qed.

Lemma fold_incr_total keys : forall c,
total (fold_left (fun c k => Counter.incr k c) keys c)
= (total c + List.length keys)%nat.
Proof.
induction keys as [|k keys IH]; intros c; simpl; [lia|].
rewrite IH, incr_total. lia.
Qed.

Lemma fold_incr_get k keys : forall c,
get k (fold_left (fun c k => Counter.incr k c) keys c)
= (get k c + count k keys)%nat.
Proof.
induction keys as [|k' keys IH]; intros c; simpl.
- unfold count. simpl. lia.
- rewrite IH, incr_get. unfold count. simpl.
  destruct (String.eqb k k'); simpl; lia.
Qed.

Lemma filter_filter {B : Type} (p q : B -> bool) l :
filter p (filter q l) = filter (fun x => q x && p x) l.
Proof.
induction l as [|x l IH]; [reflexivity|].
simpl. destruct (q x); simpl; [destruct (p x)|]; now rewrite IH.
Qed.

Lemma distinct_filter (p : string -> bool) l :
distinct (filter p l) = filter p (distinct l).
Proof.
induction l as [|x l IH]; [reflexivity|].
simpl. destruct (p x) eqn:E; simpl; rewrite ?E, IH.
- f_equal. rewrite !filter_filter. apply filter_ext.
  intros y. apply andb_comm.
- rewrite filter_filter. apply filter_ext_in.
  intros y _. destruct (String.eqb_spec y x); simpl.
  + subst. exact E.
  + reflexivity.
Qed.

Lemma fold_incr_keys keys : forall c,
keys_of (fold_left (fun c k => Counter.incr k c) keys c)
= keys_of c
  ++ distinct (filter (fun k => negb (Str.mem k (keys_of c))) keys).
Proof.
induction keys as [|k keys IH]; intros c; simpl.
- now rewrite app_nil_r.
- rewrite IH, incr_keys.
  destruct (Str.mem k (keys_of c)) eqn:E; simpl; [reflexivity|].
  rewrite <- app_assoc. simpl. do 2 f_equal.
  rewrite <- distinct_filter, filter_filter. f_equal.
  apply filter_ext. intros y.
  unfold Str.mem. rewrite existsb_app. simpl.
  now rewrite orb_false_r, negb_orb.
Qed.

Lemma In_distinct x l : In x (distinct l) <-> In x l.
Proof.
induction l as [|y l IH]; simpl; [tauto|].
rewrite filter_In, IH. destruct (String.eqb_spec x y); subst; simpl.
- tauto.
- split; [tauto|]. intros [E|H]; [congruence | tauto].
Qed.

Lemma NoDup_distinct l : NoDup (distinct l).
Proof.
induction l as [|x l IH]; simpl; constructor.
- rewrite filter_In, String.eqb_refl. simpl. intros [_ H]. discriminate.
- now apply NoDup_filter.
Qed.

Lemma of_list_keys keys : keys_of (Counter.of_list keys) = distinct keys.
Proof.
unfold Counter.of_list. rewrite fold_incr_keys. simpl.
now rewrite filter_true.
Qed.

Lemma of_list_get k keys : get k (Counter.of_list keys) = count k keys.
Proof. unfold Counter.of_list. now rewrite fold_incr_get. Qed.

Lemma of_list_total keys :
total (Counter.of_list keys) = List.length keys.
Proof. unfold Counter.of_list. now rewrite fold_incr_total. Qed.

Lemma get_In k v (c : Counter.t) :
NoDup (keys_of c) -> In (k, v) c -> get k c = v.
Proof.
induction c as [|[k' v'] c IH]; simpl; [contradiction|].
intros Hnd Hin. inversion Hnd as [|? ? Hnot Hnd']; subst.
destruct Hin as [[= -> ->]|Hin]; [now rewrite String.eqb_refl|].
destruct (String.eqb_spec k k') as [->|_]; [|auto].
exfalso. apply Hnot. now apply (in_map fst _ (k', v)).
Qed.

(** A [Counter] holds each distinct key once, in the order of first
  appearance, with the number of its occurrences. *)
Lemma of_list_spec keys :
Counter.of_list keys = map (fun k => (k, count k keys)) (distinct keys).
Proof.
rewrite <- of_list_keys.
assert (Hnd : NoDup (keys_of (Counter.of_list keys)))
  by (rewrite of_list_keys; apply NoDup_distinct).
assert (Hget : forall k v, In (k, v) (Counter.of_list keys) ->
                           v = count k keys).
{ intros k v Hin. rewrite <- of_list_get. symmetry. now apply get_In. }
clear Hnd. induction (Counter.of_list keys) as [|[k v] c IH];
  [reflexivity|].
simpl. rewrite <- (Hget k v) by (simpl; auto). f_equal.
apply IH. intros k' v' Hin. apply Hget. simpl. auto.
Qed.

Lemma count_pos k keys : In k keys -> (1 <= count k keys)%nat.
Proof.
unfold count. induction keys as [|x keys IH]; simpl; [contradiction|].
intros [->|H]; [rewrite String.eqb_refl; simpl; lia|].
destruct (String.eqb k x); simpl; [lia | auto].
Qed.

End CounterFacts.

Section BeforeFacts.

Context {A : Type}.

Lemma Before_app (l1 l2 l3 : list A) x y :
Before (l1 ++ x :: l2 ++ y :: l3) x y.
Proof.
induction l1; simpl; [|now constructor].
constructor. apply in_or_app. right. simpl. auto.
Qed.

Lemma Before_In (l : list A) x y : Before l x y -> In x l /\ In y l.
Proof. induction 1; simpl; tauto. Qed.

Lemma Before_firstn n (l : list A) x y :
Before (firstn n l) x y -> Before l x y.
Proof.
revert n. induction l as [|z l IH]; intros [|n] H; simpl in H;
  try solve [inversion H].
inversion H; subst.
- constructor. rewrite <- (firstn_skipn n l). apply in_or_app. now left.
- constructor 2. eapply IH; eauto.
Qed.

Lemma Before_filter p (l : list A) x y :
Before l x y -> p x = true -> p y = true -> Before (filter p l) x y.
Proof.
induction 1 as [x y l Hin | z x y l _ IH]; intros Hx Hy; simpl.
- rewrite Hx. constructor. apply filter_In. auto.
- destruct (p z); [constructor 2|]; auto.
Qed.

Lemma Before_filter_inv p (l : list A) x y :
Before (filter p l) x y -> Before l x y.
Proof.
induction l as [|z l IH]; simpl; intros H; [inversion H|].
destruct (p z); [|constructor 2; auto].
inversion H; subst.
- constructor. eapply incl_filter; eauto.
- constructor 2; auto.
Qed.

Lemma Before_map {B : Type} (f : A -> B) (l : list A) x y :
Before l x y -> Before (map f l) (f x) (f y).
Proof.
induction 1; simpl; [constructor; now apply in_map | now constructor 2].
Qed.

Lemma Before_sorted (R : A -> A -> Prop) (l : list A) x y :
StronglySorted R l -> Before l x y -> R x y.
Proof.
induction 1 as [|z l Hl IH Hz]; intros H; inversion H; subst.
- rewrite Forall_forall in Hz. auto.
- auto.
Qed.

(** The other way round: a relation that holds from every element to
  every later one sorts the list. *)
Lemma sorted_of_Before (R : A -> A -> Prop) (l : list A) :
(forall x y, Before l x y -> R x y) -> StronglySorted R l.
Proof.
induction l as [|z l IH]; intros H; constructor.
- apply IH. intros x y Hb. apply H. now constructor 2.
- apply Forall_forall. intros y Hy. apply H. now constructor.
Qed.

End BeforeFacts.

Lemma index_In k keys : In k keys -> exists q, index k keys = Some q.
Proof.
  induction keys as [|y keys IH]; [contradiction|].
  simpl. destruct (String.eqb y k) eqn:E; [eauto|].
  intros [->|Hin]; [rewrite String.eqb_refl in E; discriminate|].
  destruct (IH Hin) as [q ->]. simpl. eauto.
Qed.

Lemma Before_distinct_index keys k1 k2 :
  Before (distinct keys) k1 k2 ->
  exists p q, index k1 keys = Some p /\ index k2 keys = Some q /\ (p < q)%nat.
Proof.
  induction keys as [|x keys IH]; simpl; intros H; [inversion H|].
  inversion H as [? ? ? Hin | ? ? ? ? Hb]; subst.
  - (* [k1] is the first key *)
    rewrite String.eqb_refl.
    apply filter_In in Hin. destruct Hin as [Hin Hne].
    apply negb_true_iff in Hne. rewrite String.eqb_sym, Hne.
    rewrite In_distinct in Hin.
    destruct (index_In _ _ Hin) as [q Eq].
    exists 0%nat, (S q). rewrite Eq. simpl. repeat split. lia.
  - destruct (Before_In _ _ _ Hb) as [I1 I2].
    apply filter_In in I1, I2.
    destruct I1 as [_ N1], I2 as [_ N2].
    apply negb_true_iff in N1, N2.
    rewrite (String.eqb_sym x k1), (String.eqb_sym x k2), N1, N2.
    destruct (IH (Before_filter_inv _ _ _ _ Hb)) as (p & q & -> & -> & Hpq).
    exists (S p), (S q). simpl. repeat split. lia.
Qed.

(* ===================================================================== *)
(** * Theorems: the frequency aggregator                                  *)
(* ===================================================================== *)

Abbreviation by_count := (heapq.key_ltb Counter.count_of).
Abbreviation ranked := (builtins.sorted_reverse by_count).

Lemma total_perm l1 l2 : Permutation l1 l2 -> total l1 = total l2.
Proof. induction 1; simpl; lia. Qed.

Lemma total_firstn j l : (total (firstn j l) <= total l)%nat.
Proof.
  revert j. induction l as [|x l IH]; intros [|j]; simpl; try lia.
  specialize (IH j). lia.
Qed.

Lemma most_common_Some n c :
  Counter.most_common (Some n) c
  = if (n <? 0)%Z then [] else firstn (Z.to_nat n) (ranked c).
Proof. apply nlargest_spec. Qed.

(** Whatever [n] is, [most_common] returns a prefix of the ranked list. *)
Lemma most_common_prefix n c :
  exists j, Counter.most_common n c = firstn j (ranked c).
Proof.
  destruct n as [n|].
  - rewrite most_common_Some. destruct (n <? 0)%Z; [now exists 0%nat|].
    now exists (Z.to_nat n).
  - exists (List.length (ranked c)). simpl. now rewrite firstn_all.
Qed.

Lemma In_firstn {B : Type} j (l : list B) x : In x (firstn j l) -> In x l.
Proof.
  intros H. rewrite <- (firstn_skipn j l). apply in_or_app. now left.
Qed.

(** The entries of the whole ranked list: the keys of the input, each
    with the number of its occurrences. *)
Lemma ranked_In keys w c :
In (w, c) (ranked (Counter.of_list keys))
<-> In w keys /\ c = count w keys.
Proof.
  split.
- intros H.
  apply (Permutation_in _ (sorted_reverse_perm _ _)) in H.
  rewrite of_list_spec in H. apply in_map_iff in H.
  destruct H as (k & E & Hk). injection E as <- <-.
  now rewrite In_distinct in Hk.
- intros [Hw ->].
  apply (Permutation_in _ (Permutation_sym (sorted_reverse_perm _ _))).
  rewrite of_list_spec. apply in_map_iff. exists w.
  now rewrite In_distinct.
Qed.

Lemma most_common_sorted keys n :
  StronglySorted (RankedBefore keys)
                 (Counter.most_common n (Counter.of_list keys)).
Proof.
  apply sorted_of_Before. intros a b Hb.
  destruct (most_common_prefix n (Counter.of_list keys)) as [j Ej].
  rewrite Ej in Hb. apply Before_firstn in Hb.
  assert (Hd : by_count a b = false).
  { apply (Before_sorted _ _ _ _
             (sorted_reverse_Descending by_count (kl_irrefl _) (kl_trans _)
                (kl_negtrans _) (Counter.of_list keys)) Hb). }
  split.
  - unfold heapq.key_ltb, Counter.count_of in Hd.
    apply Nat.ltb_ge in Hd. exact Hd.
  - intros Etie.
    assert (Hs : forall z, snd z = snd a -> same_key by_count a z = true).
    { intros z Ez. unfold same_key, heapq.key_ltb, Counter.count_of.
      rewrite Ez, Nat.ltb_irrefl. reflexivity. }
    apply (Before_filter (same_key by_count a)) in Hb; auto.
    rewrite (sorted_reverse_stable by_count (kl_negtrans _)) in Hb.
    apply Before_filter_inv in Hb.
    apply (Before_map fst) in Hb. rewrite of_list_keys in Hb.
    now apply Before_distinct_index.
Qed.

(** C4. Whatever the key sequence, the list that
    [Counter(keys).most_common()] returns holds every distinct key of
    the sequence once, with the number of its occurrences in the
    sequence; [most_common(m)] returns the first [m] entries of that
    list (none for a negative [m]).  Every such list is in descending
    order of these counts, and of two keys that occur equally often the
    one whose first appearance in [keys] comes first stands first. *)
Theorem most_common_ranked (keys : list string) :
  let all := Counter.most_common None (Counter.of_list keys) in
  Permutation all (map (fun k => (k, count k keys)) (distinct keys))
  /\ (forall m : Z,
        Counter.most_common (Some m) (Counter.of_list keys)
        = firstn (Z.to_nat m) all)
  /\ (forall n : option Z,
        let ranked := Counter.most_common n (Counter.of_list keys) in
        Forall (fun kc => In (fst kc) keys /\ snd kc = count (fst kc) keys)
               ranked
        /\ StronglySorted (RankedBefore keys) ranked).
Proof.
  cbv zeta. split; [|split].
  - cbn [Counter.most_common]. rewrite <- of_list_spec.
    apply sorted_reverse_perm.
  - intros m. rewrite most_common_Some. cbn [Counter.most_common].
    destruct (Z.ltb_spec m 0); [|reflexivity].
    now replace (Z.to_nat m) with 0%nat by lia.
  - intros n. split; [|apply most_common_sorted].
    apply Forall_forall. intros [k c] H.
    destruct (most_common_prefix n (Counter.of_list keys)) as [j Ej].
    rewrite Ej in H. apply In_firstn in H. now apply ranked_In in H.
Qed.

(** With [n] at least the number of distinct keys nothing is cut. *)
Lemma most_common_all keys n :
  (Z.of_nat (List.length (distinct keys)) <= n)%Z ->
  Counter.most_common (Some n) (Counter.of_list keys)
  = ranked (Counter.of_list keys).
Proof.
  intros Hn. rewrite most_common_Some. destruct (Z.ltb_spec n 0); [lia|].
  apply firstn_all2.
  rewrite (Permutation_length (sorted_reverse_perm _ _)).
  rewrite of_list_spec, length_map. lia.
Qed.

Lemma most_common_negative keys n :
  (n < 0)%Z -> Counter.most_common (Some n) (Counter.of_list keys) = [].
Proof.
  intros Hn. rewrite most_common_Some. now destruct (Z.ltb_spec n 0); [|lia].
Qed.

(** C6. For every token sequence, [top_n_words] with [n = 0] returns the
    empty list, and with [n] at least the number of distinct tokens it
    returns the whole ranked list: every distinct token once with the
    number of its occurrences, nothing cut and nothing added. *)
Theorem top_n_words_zero_and_all (tokens : list string) :
  top_n_words tokens 0 = []
  /\ forall n : Z,
       (Z.of_nat (List.length (distinct tokens)) <= n)%Z ->
       top_n_words tokens n
       = Counter.most_common None (Counter.of_list tokens)
       /\ Permutation (top_n_words tokens n)
                      (map (fun k => (k, count k tokens)) (distinct tokens))
       /\ List.length (top_n_words tokens n)
          = List.length (distinct tokens).
Proof.
  unfold top_n_words. split; [now rewrite most_common_Some|].
  intros n Hn. rewrite (most_common_all tokens n Hn).
  split; [reflexivity|].
  assert (Hp : Permutation (ranked (Counter.of_list tokens))
                 (map (fun k => (k, count k tokens)) (distinct tokens))).
  { rewrite <- of_list_spec. apply sorted_reverse_perm. }
  split; [exact Hp|].
  now rewrite (Permutation_length Hp), length_map.
Qed.

Lemma top_n_words_zero_and_all_witness :
  (Z.of_nat (List.length (distinct ["cat"; "sat"; "cat"; "ran"])) <= 5)%Z
  /\ top_n_words ["cat"; "sat"; "cat"; "ran"] 5
     = Counter.most_common None
         (Counter.of_list ["cat"; "sat"; "cat"; "ran"])
  /\ List.length (top_n_words ["cat"; "sat"; "cat"; "ran"] 5) = 3%nat.
Proof.
  assert (H : (Z.of_nat (List.length (distinct ["cat"; "sat"; "cat"; "ran"]))
               <= 5)%Z) by (simpl; lia).
  split; [exact H|].
  destruct (proj2 (top_n_words_zero_and_all ["cat"; "sat"; "cat"; "ran"]) 5%Z H)
    as (E & _ & L).
  split; [exact E | exact L].
Defined.

(** C8, as far as it holds.  The counts of the whole ranked list add up
    to the length of the key sequence: for [most_common()] as
    [tag_frequencies] calls it, and for [top_n_words] when [n] is at
    least the number of distinct keys.  A list cut to its first [n]
    entries adds up to at most that. *)
Theorem ranked_total (keys : list string) :
  total (Counter.most_common None (Counter.of_list keys)) = List.length keys
  /\ (forall n : Z,
        (Z.of_nat (List.length (distinct keys)) <= n)%Z ->
        total (top_n_words keys n) = List.length keys)
  /\ (forall n : Z, (total (top_n_words keys n) <= List.length keys)%nat).
Proof.
  assert (E : total (ranked (Counter.of_list keys)) = List.length keys).
  { rewrite (total_perm _ _ (sorted_reverse_perm _ _)).
    apply of_list_total. }
  split; [exact E|]. split.
  - intros n Hn. unfold top_n_words.
    now rewrite (most_common_all keys n Hn).
  - intros n. unfold top_n_words.
    destruct (most_common_prefix (Some n) (Counter.of_list keys)) as [j ->].
    rewrite <- E. apply total_firstn.
Qed.

Lemma ranked_total_witness :
  (Z.of_nat (List.length (distinct ["a"; "b"; "a"])) <= 2)%Z
  /\ total (top_n_words ["a"; "b"; "a"] 2) = 3%nat.
Proof.
  assert (H : (Z.of_nat (List.length (distinct ["a"; "b"; "a"])) <= 2)%Z)
    by (simpl; lia).
  split; [exact H|].
  exact (proj1 (proj2 (ranked_total ["a"; "b"; "a"])) 2%Z H).
Defined.

(** C8 as stated fails: cut to one entry, the list of two keys that occur
    once each adds up to 1, not to 2. *)
Lemma ranked_total_truncated :
  top_n_words ["a"; "b"] 1 = [("a", 1%nat)]
  /\ total (top_n_words ["a"; "b"] 1) = 1%nat
  /\ List.length ["a"; "b"] = 2%nat.
Proof. repeat split. Qed.

(** C10. For every token sequence and every negative [n],
    [top_n_words] returns the empty list, as it does for [n = 0]; no
    error is raised. *)
Theorem top_n_words_negative (tokens : list string) (n : Z) :
  (n < 0)%Z ->
  top_n_words tokens n = [] /\ top_n_words tokens n = top_n_words tokens 0.
Proof.
  intros Hn. unfold top_n_words.
  rewrite (most_common_negative tokens n Hn), most_common_Some.
  split; reflexivity.
Qed.

Lemma top_n_words_negative_witness :
  (-3 < 0)%Z
  /\ top_n_words ["cat"; "sat"; "cat"; "ran"] (-3) = []
  /\ top_n_words ["cat"; "sat"; "cat"; "ran"] (-3)
     = top_n_words ["cat"; "sat"; "cat"; "ran"] 0.
Proof.
  split; [lia|].
  apply (top_n_words_negative ["cat"; "sat"; "cat"; "ran"] (-3)). lia.
Defined.

(* ===================================================================== *)
(** * Facts about the tree                                                *)
(* ===================================================================== *)

Section TreeFacts.

Variable m : string -> bool.

Lemma descendants_app l1 l2 :
bs4.descendants (l1 ++ l2) = bs4.descendants l1 ++ bs4.descendants l2.
Proof. apply flat_map_app. Qed.

Lemma descendants_cons e l :
bs4.descendants (e :: l) = e :: bs4.below e ++ bs4.descendants l.
Proof. reflexivity. Qed.

Lemma below_Tag n cs : bs4.below (bs4.Tag n cs) = bs4.descendants cs.
Proof. reflexivity. Qed.

Lemma descendants_decompose_all soup :
bs4.descendants (bs4.decompose_all m soup)
= flat_map (fun e => bs4.descendants (bs4.decompose_el m e)) soup.
Proof.
induction soup as [|e soup IH]; [reflexivity|].
unfold bs4.decompose_all in *. simpl. now rewrite descendants_app, IH.
Qed.

(** No tag that [m] accepts is left, at any depth. *)
Lemma decompose_el_no_match e :
forall n cs, In (bs4.Tag n cs) (bs4.descendants (bs4.decompose_el m e)) ->
             m n = false.
Proof.
induction e as [n0 cs0 IH | c s] using PageElement_tree_ind;
  intros n cs Hin.
- simpl in Hin. destruct (m n0) eqn:E; [contradiction|].
  rewrite descendants_cons, below_Tag, app_nil_r in Hin.
  destruct Hin as [[= <- <-]|Hin]; [exact E|].
  fold (bs4.decompose_all m cs0) in Hin.
  rewrite descendants_decompose_all in Hin.
  apply in_flat_map in Hin. destruct Hin as (e & He & Hin).
  rewrite Forall_forall in IH. eapply IH; eauto.
- simpl in Hin. destruct Hin as [Hin|[]]. discriminate.
Qed.

Lemma decompose_all_no_match soup n cs :
In (bs4.Tag n cs) (bs4.descendants (bs4.decompose_all m soup)) ->
m n = false.
Proof.
rewrite descendants_decompose_all. intros Hin.
apply in_flat_map in Hin. destruct Hin as (e & _ & Hin).
eapply decompose_el_no_match; eauto.
Qed.

(** The strings that are left are the visible ones. *)
Lemma decompose_el_strings e c s :
In (bs4.NavString c s) (bs4.descendants (bs4.decompose_el m e))
<-> VisibleString m [e] c s.
Proof.
revert c s.
induction e as [n0 cs0 IH | c0 s0] using PageElement_tree_ind;
  intros c s.
- simpl. destruct (m n0) eqn:E.
  + split; [contradiction|]. intros H.
    inversion H as [? ? ? Hin | ? n1 cs1 ? ? Hin Hm Hv]; subst.
    * destruct Hin as [Hin|[]]. discriminate.
    * destruct Hin as [[= -> ->]|[]]. congruence.
  + rewrite descendants_cons, below_Tag, app_nil_r.
    fold (bs4.decompose_all m cs0). rewrite descendants_decompose_all.
    rewrite Forall_forall in IH. split.
    * intros [Hin|Hin]; [discriminate|].
      apply in_flat_map in Hin. destruct Hin as (e & He & Hin).
      apply (VisibleString_below m _ n0 cs0); simpl; auto.
      apply IH in Hin; [|exact He].
      inversion Hin as [? ? ? Hi | ? n1 cs1 ? ? Hi Hm Hv]; subst.
      -- destruct Hi as [->|[]]. now constructor.
      -- destruct Hi as [->|[]].
         eapply VisibleString_below; eauto.
    * intros H. right.
      inversion H as [? ? ? Hin | ? n1 cs1 ? ? Hin Hm Hv]; subst.
      { destruct Hin as [Hin|[]]. discriminate. }
      destruct Hin as [[= -> ->]|[]].
      clear H E Hm. induction Hv as [soup c s Hin | soup n cs c s Hin Hm Hv IHv].
      -- apply in_flat_map. exists (bs4.NavString c s). split; [exact Hin|].
         simpl. auto.
      -- apply in_flat_map. exists (bs4.Tag n cs). split; [exact Hin|].
         apply IH; [exact Hin|].
         eapply VisibleString_below; [simpl; eauto | exact Hm | exact Hv].
- simpl. split.
  + intros [[= -> ->]|[]]. constructor. simpl. auto.
  + intros H. inversion H as [? ? ? Hin | ? n1 cs1 ? ? Hin Hm Hv]; subst.
    * destruct Hin as [[= -> ->]|[]]. auto.
    * destruct Hin as [Hin|[]]. discriminate.
Qed.

Lemma decompose_all_strings soup c s :
In (bs4.NavString c s) (bs4.descendants (bs4.decompose_all m soup))
<-> VisibleString m soup c s.
Proof.
rewrite descendants_decompose_all, in_flat_map. split.
- intros (e & He & Hin). apply decompose_el_strings in Hin.
  inversion Hin as [? ? ? Hi | ? n1 cs1 ? ? Hi Hm Hv]; subst.
  + destruct Hi as [->|[]]. now constructor.
  + destruct Hi as [->|[]]. eapply VisibleString_below; eauto.
- intros H. inversion H as [? ? ? Hi | ? n1 cs1 ? ? Hi Hm Hv]; subst.
  + exists (bs4.NavString c s). split; [exact Hi|].
    apply decompose_el_strings. constructor. simpl. auto.
  + exists (bs4.Tag n1 cs1). split; [exact Hi|].
    apply decompose_el_strings.
    eapply VisibleString_below; [simpl; eauto | exact Hm | exact Hv].
Qed.

(** What stands below an accepted tag does not matter to what is left. *)
Lemma decompose_el_SameOutside e1 :
forall e2, SameOutside m e1 e2 ->
           bs4.decompose_el m e1 = bs4.decompose_el m e2.
Proof.
induction e1 as [n cs IH | c s] using PageElement_tree_ind;
  intros e2 H; inversion H as [? ? ? Hm | ? ? cs2 Hm Hcs | ]; subst; simpl.
- now rewrite Hm.
- rewrite Hm. do 2 f_equal.
  clear H Hm. induction Hcs as [|x y l1 l2 Hxy _ IHl]; [reflexivity|].
  inversion IH as [|? ? Hx Hl]; subst. simpl.
  now rewrite (Hx y Hxy), (IHl Hl).
- reflexivity.
Qed.

Lemma decompose_all_SameOutside soup1 soup2 :
Forall2 (SameOutside m) soup1 soup2 ->
bs4.decompose_all m soup1 = bs4.decompose_all m soup2.
Proof.
unfold bs4.decompose_all.
induction 1 as [|x y l1 l2 Hxy _ IH]; [reflexivity|].
simpl. now rewrite (decompose_el_SameOutside x y Hxy), IH.
Qed.

(** A tree that holds no accepted tag is left as it is. *)
Lemma decompose_el_id e :
bs4.find_all m [e] = [] -> bs4.decompose_el m e = [e].
Proof.
induction e as [n cs IH | c s] using PageElement_tree_ind;
  [|reflexivity].
unfold bs4.find_all. rewrite descendants_cons, below_Tag, app_nil_r.
simpl. destruct (m n); [discriminate|]. intros Hcs. do 2 f_equal.
induction cs as [|e cs IHcs]; [reflexivity|].
inversion IH as [|? ? He Hrest]; subst.
change (bs4.descendants (e :: cs))
  with (bs4.descendants ([e] ++ cs)) in Hcs.
rewrite descendants_app, filter_app in Hcs.
apply app_eq_nil in Hcs. destruct Hcs as [H1 H2].
simpl. now rewrite (He H1), (IHcs Hrest H2).
Qed.

End TreeFacts.

Lemma VisibleString_descendants m soup c s :
  VisibleString m soup c s -> In (bs4.NavString c s) (bs4.descendants soup).
Proof.
  induction 1 as [soup c s Hin | soup n cs c s Hin Hm Hv IH].
  - unfold bs4.descendants. apply in_flat_map.
    exists (bs4.NavString c s). simpl. auto.
  - unfold bs4.descendants. apply in_flat_map.
    exists (bs4.Tag n cs). split; [exact Hin|]. right. exact IH.
Qed.

Lemma interesting_spec c :
  bs4.interesting c = true <-> c = bs4.NavigableString \/ c = bs4.CData.
Proof.
  destruct c; vm_compute; split; intros H; try discriminate; auto;
    destruct H; discriminate.
Qed.

(** Where the stripped strings come from. *)
Lemma stripped_strings_origin cls soup o :
  In o (bs4.stripped_strings cls soup) ->
  exists c s, In (bs4.NavString c s) (bs4.descendants soup)
              /\ (c = bs4.NavigableString \/ c = bs4.CData)
              /\ bs4.str_value o = Str.strip s.
Proof.
  unfold bs4.stripped_strings. intros Hin. apply in_flat_map in Hin.
  destruct Hin as ([n cs|c s] & He & Hin); [contradiction|].
  destruct (bs4.interesting c) eqn:Ei; [|contradiction].
  destruct (String.length (Str.strip s) =? 0)%nat; [contradiction|].
  destruct Hin as [<-|[]]. exists c, s. repeat split; auto.
  now apply interesting_spec.
Qed.

Lemma gen_origin cls unescape soup piece :
  In piece (gen cls unescape soup) ->
  exists c s, In (bs4.NavString c s) (bs4.descendants soup)
              /\ (c = bs4.NavigableString \/ c = bs4.CData)
              /\ piece = unescape (Str.strip s).
Proof.
  unfold gen. intros Hin. apply in_map_iff in Hin.
  destruct Hin as (o & <- & Ho). apply filter_In in Ho.
  destruct Ho as [Ho _]. apply stripped_strings_origin in Ho.
  destruct Ho as (c & s & ? & ? & ->). eauto.
Qed.

Lemma is_non_visible_spec n :
  is_non_visible n = false <-> ~ In n NON_VISIBLE.
Proof.
  unfold is_non_visible. rewrite <- mem_In.
  destruct (Str.mem n NON_VISIBLE); split; congruence.
Qed.

(** C1. Whatever the tree, after the filtering step of
    [visible_text_from_soup] no element named [script], [style],
    [noscript] or [template] is left at any depth; the strings that are
    left are those that no such element encloses; every piece of the
    text is taken from one of them, after the filtering; and two trees
    that differ only below such elements give the same text and leave
    the same tree. *)
Theorem visible_text_excludes_non_visible
    (class_after_strip : bs4.StringClass -> bs4.PyClass)
    (unescape : string -> string) (soup : bs4.BeautifulSoup) :
  let result := visible_text_from_soup class_after_strip unescape soup in
  (forall n cs, In (bs4.Tag n cs) (bs4.descendants (snd result)) ->
                ~ In n NON_VISIBLE)
  /\ (forall c s, In (bs4.NavString c s) (bs4.descendants (snd result))
                  <-> VisibleString is_non_visible soup c s)
  /\ fst result = Str.join " " (gen class_after_strip unescape (snd result))
  /\ (forall piece, In piece (gen class_after_strip unescape (snd result)) ->
                    exists c s, VisibleString is_non_visible soup c s
                                /\ piece = unescape (Str.strip s))
  /\ (forall soup2, Forall2 (SameOutside is_non_visible) soup soup2 ->
                    visible_text_from_soup class_after_strip unescape soup2
                    = result).
Proof.
  cbv zeta. unfold visible_text_from_soup. simpl.
  split; [|split; [|split; [|split]]].
  - intros n cs Hin. apply is_non_visible_spec.
    eapply decompose_all_no_match; eauto.
  - intros c s. apply decompose_all_strings.
  - reflexivity.
  - intros piece Hin. apply gen_origin in Hin.
    destruct Hin as (c & s & Hin & _ & ->). exists c, s. split; [|reflexivity].
    now apply decompose_all_strings.
  - intros soup2 H. now rewrite (decompose_all_SameOutside _ _ _ H).
Qed.

Lemma visible_text_excludes_non_visible_witness :
  Forall2 (SameOutside is_non_visible) cat_page script_variant
  /\ visible_text_from_soup bs4.plain_str no_references script_variant
     = visible_text_from_soup bs4.plain_str no_references cat_page.
Proof.
  assert (H : Forall2 (SameOutside is_non_visible) cat_page script_variant).
  { constructor; [|constructor].
    apply SameOutside_tag; [reflexivity|].
    constructor; [|constructor].
    apply SameOutside_tag; [reflexivity|].
    constructor; [apply SameOutside_hidden; reflexivity|].
    constructor; [|constructor].
    apply SameOutside_tag; [reflexivity|].
    constructor; [apply SameOutside_string | constructor]. }
  split; [exact H|].
  exact (proj2 (proj2 (proj2 (proj2
           (visible_text_excludes_non_visible
              bs4.plain_str no_references cat_page)))) script_variant H).
Defined.

Lemma tag_frequencies_ranked soup :
  tag_frequencies soup = ranked (Counter.of_list (tag_names soup)).
Proof. reflexivity. Qed.

Lemma tag_frequencies_perm soup :
  Permutation (tag_frequencies soup)
              (map (fun k => (k, count k (tag_names soup)))
                   (distinct (tag_names soup))).
Proof.
  rewrite tag_frequencies_ranked, <- of_list_spec.
  apply sorted_reverse_perm.
Qed.

Lemma length_tag_names soup :
  List.length (tag_names soup)
  = List.length (bs4.find_all (fun _ => true) soup).
Proof.
  unfold tag_names, bs4.find_all.
  induction (bs4.descendants soup) as [|[n cs|c s] l IH]; simpl; auto.
Qed.

Lemma tag_names_In soup n cs :
  In (bs4.Tag n cs) (bs4.descendants soup) ->
  In (Str.lower n) (tag_names soup).
Proof.
  intros Hin. unfold tag_names. apply in_flat_map.
  exists (bs4.Tag n cs). split; [|simpl; auto].
  unfold bs4.find_all. apply filter_In. auto.
Qed.

(** Filtering takes tags away: each accepted tag is a tag that the
    filtered tree no longer has. *)
Lemma find_all_decompose_el m e :
  (List.length (bs4.find_all (fun _ => true) (bs4.decompose_el m e))
   + List.length (bs4.find_all m [e])
   <= List.length (bs4.find_all (fun _ => true) [e]))%nat.
Proof.
  induction e as [n cs IH | c s] using PageElement_tree_ind.
  - unfold bs4.find_all in *.
    rewrite (descendants_cons (bs4.Tag n cs)), below_Tag, app_nil_r.
    cbn [filter bs4.decompose_el].
    assert (Hcs :
      (List.length (filter (fun e => match e with
                                     | bs4.Tag _ _ => true
                                     | bs4.NavString _ _ => false
                                     end)
                      (bs4.descendants (bs4.decompose_all m cs)))
       + List.length (filter (fun e => match e with
                                       | bs4.Tag n0 _ => m n0
                                       | bs4.NavString _ _ => false
                                       end) (bs4.descendants cs))
       <= List.length (filter (fun e => match e with
                                        | bs4.Tag _ _ => true
                                        | bs4.NavString _ _ => false
                                        end) (bs4.descendants cs)))%nat).
    { clear n. induction cs as [|e cs IHcs]; [simpl; lia|].
      inversion IH as [|? ? He Hcs]; subst. specialize (IHcs Hcs).
      change (e :: cs) with ([e] ++ cs).
      unfold bs4.decompose_all in *. rewrite flat_map_app.
      rewrite !descendants_app, !filter_app, !length_app.
      simpl flat_map. rewrite app_nil_r. lia. }
    destruct (m n).
    + simpl. unfold bs4.decompose_all in Hcs.
      pose proof (filter_length_le
        (fun e => match e with
                  | bs4.Tag _ _ => true
                  | bs4.NavString _ _ => false
                  end)
        (bs4.descendants (flat_map (bs4.decompose_el m) cs))).
      lia.
    + rewrite descendants_cons, below_Tag, app_nil_r. simpl.
      fold (bs4.decompose_all m cs). lia.
  - simpl. lia.
Qed.

Lemma find_all_decompose_all m soup :
  (List.length (bs4.find_all (fun _ => true) (bs4.decompose_all m soup))
   + List.length (bs4.find_all m soup)
   <= List.length (bs4.find_all (fun _ => true) soup))%nat.
Proof.
  induction soup as [|e soup IH]; [simpl; lia|].
  pose proof (find_all_decompose_el m e) as He.
  unfold bs4.find_all, bs4.decompose_all in *.
  change (e :: soup) with ([e] ++ soup).
  rewrite flat_map_app, !descendants_app, !filter_app, !length_app.
  simpl flat_map. rewrite app_nil_r. lia.
Qed.

Lemma decompose_all_fixed m soup :
  bs4.decompose_all m soup = soup <-> bs4.find_all m soup = [].
Proof.
  split.
  - intros E. pose proof (decompose_all_no_match m soup) as H.
    rewrite E in H. unfold bs4.find_all.
    induction (bs4.descendants soup) as [|[n cs|c s] l IH]; simpl; auto.
    + rewrite (H n cs) by (simpl; auto). apply IH.
      intros. eapply H. simpl. eauto.
    + apply IH. intros. eapply H. simpl. eauto.
  - induction soup as [|e soup IH]; [reflexivity|].
    unfold bs4.find_all, bs4.decompose_all in *.
    change (e :: soup) with ([e] ++ soup).
    rewrite descendants_app, filter_app, flat_map_app. intros E.
    apply app_eq_nil in E. destruct E as [E1 E2].
    simpl flat_map. rewrite app_nil_r.
    rewrite (decompose_el_id m e E1), (IH E2). reflexivity.
Qed.

(* ===================================================================== *)
(** * Facts about numbers as text                                         *)
(* ===================================================================== *)

Section NumberFacts.

Lemma string_of_uint_digits d :
argparse.all_digits (NilEmpty.string_of_uint d) = true.
Proof. induction d; simpl; auto. Qed.

Lemma digit_cases c :
Fmt.is_digit c = true ->
In c ["0"; "1"; "2"; "3"; "4"; "5"; "6"; "7"; "8"; "9"]%char.
Proof.
destruct c as [[] [] [] [] [] [] [] []]; vm_compute; intros H;
  try discriminate; tauto.
Qed.

Lemma digit_not_space c : Fmt.is_digit c = true -> Fmt.is_int_space c = false.
Proof.
intros H. apply digit_cases in H. simpl in H.
repeat destruct H as [<-|H]; try reflexivity. contradiction.
Qed.

Lemma lstrip_int_digits s :
argparse.starts_with_digit s = true -> Fmt.lstrip_int s = s.
Proof.
destruct s as [|c s]; [discriminate|]. simpl. intros H.
now rewrite (digit_not_space c H).
Qed.

Lemma rstrip_int_digits s :
argparse.all_digits s = true -> Fmt.rstrip_int s = s.
Proof.
induction s as [|c s IH]; [reflexivity|]. simpl.
intros H. apply andb_true_iff in H. destruct H as [Hc Hs].
rewrite (IH Hs). destruct s; [|reflexivity].
now rewrite (digit_not_space c Hc).
Qed.

Lemma group_digits_digits s : forall b,
argparse.all_digits s = true -> s <> "" ->
Fmt.group_digits b s = Some s.
Proof.
induction s as [|c s IH]; intros b H Hne; [contradiction|].
simpl in *. apply andb_true_iff in H. destruct H as [Hc Hs].
rewrite Hc.
assert (E : Ascii.eqb c "_" = false).
{ apply digit_cases in Hc. simpl in Hc.
  repeat destruct Hc as [<-|Hc]; try reflexivity. contradiction. }
rewrite E. destruct s as [|c' s]; [reflexivity|].
now rewrite (IH true Hs) by discriminate.
Qed.

Lemma int_digits s :
argparse.all_digits s = true -> s <> "" ->
(String.length s <= Fmt.max_str_digits)%nat ->
Fmt.int s = option_map Z.of_uint (NilEmpty.uint_of_string s).
Proof.
intros H Hne Hlen. unfold Fmt.int.
assert (Hs : argparse.starts_with_digit s = true).
{ destruct s; [contradiction|]. simpl in *.
  now apply andb_true_iff in H. }
rewrite (lstrip_int_digits s Hs), (rstrip_int_digits s H).
destruct s as [|c s]; [contradiction|]. simpl in Hs.
assert (E : Ascii.eqb c "-" = false /\ Ascii.eqb c "+" = false).
{ apply digit_cases in Hs. simpl in Hs.
  repeat destruct Hs as [<-|Hs]; try (split; reflexivity). contradiction. }
destruct E as [-> ->].
unfold Fmt.digits_value. rewrite (group_digits_digits _ false H Hne).
now destruct (Nat.leb_spec (String.length (String c s)) Fmt.max_str_digits);
  [|lia].
Qed.

Lemma int_minus_digits s :
argparse.all_digits s = true -> s <> "" ->
(String.length s <= Fmt.max_str_digits)%nat ->
Fmt.int (String "-" s)
= option_map Z.opp (option_map Z.of_uint (NilEmpty.uint_of_string s)).
Proof.
intros H Hne Hlen. unfold Fmt.int.
change (Fmt.lstrip_int (String "-" s)) with (String "-" s).
assert (E : Fmt.rstrip_int (String "-" s) = String "-" s).
{ simpl. rewrite (rstrip_int_digits s H).
  destruct s; [contradiction | reflexivity]. }
rewrite E. cbn [Ascii.eqb Bool.eqb]. unfold Fmt.digits_value.
rewrite (group_digits_digits s false H Hne).
now destruct (Nat.leb_spec (String.length s) Fmt.max_str_digits); [|lia].
Qed.

Lemma string_of_uint_nonempty d :
d <> Decimal.Nil -> NilEmpty.string_of_uint d <> "".
Proof. destruct d; simpl; congruence. Qed.

Lemma length_string_of_uint d :
String.length (NilEmpty.string_of_uint d) = Decimal.nb_digits d.
Proof. induction d; simpl; auto. Qed.

(** [int(str(n)) == n], for an [n] that [int] and [str] do not find
  too long. *)
Lemma int_str_of_int n :
(Fmt.num_digits n <= Fmt.max_str_digits)%nat ->
Fmt.int (Fmt.str_of_int n) = Some n.
Proof.
unfold Fmt.str_of_int, Fmt.num_digits.
destruct n as [|p|p]; [reflexivity| |]; intros Hlen.
- cbn [Z.abs_N N.to_uint] in Hlen. cbn [Z.to_int NilZero.string_of_int].
  unfold NilZero.string_of_uint.
  pose proof (DecimalPos.Unsigned.to_uint_nonnil p) as Hnn.
  destruct (Pos.to_uint p) eqn:E; [contradiction| ..];
    rewrite <- E in *;
    (rewrite int_digits;
     [ rewrite NilEmpty.usu; simpl; unfold Z.of_uint;
       now rewrite DecimalPos.Unsigned.of_to
     | apply string_of_uint_digits
     | now apply string_of_uint_nonempty
     | now rewrite length_string_of_uint ]).
- cbn [Z.abs_N N.to_uint] in Hlen. cbn [Z.to_int NilZero.string_of_int].
  unfold NilZero.string_of_uint.
  pose proof (DecimalPos.Unsigned.to_uint_nonnil p) as Hnn.
  destruct (Pos.to_uint p) eqn:E; [contradiction| ..];
    rewrite <- E in *;
    (rewrite int_minus_digits;
     [ rewrite NilEmpty.usu; simpl; unfold Z.of_uint;
       now rewrite DecimalPos.Unsigned.of_to
     | apply string_of_uint_digits
     | now apply string_of_uint_nonempty
     | now rewrite length_string_of_uint ]).
Qed.

End NumberFacts.

(* ===================================================================== *)
(** * Facts about the command line                                        *)
(* ===================================================================== *)

Section CommandLineFacts.

Lemma contains_digits c s :
Fmt.is_digit c = false -> argparse.all_digits s = true ->
argparse.contains c s = false.
Proof.
intros Hc. induction s as [|a s IH]; [reflexivity|]. simpl.
intros H. apply andb_true_iff in H. destruct H as [Ha Hs].
rewrite (IH Hs), orb_false_r.
destruct (Ascii.eqb_spec a c) as [->|]; congruence.
Qed.

Lemma after_digits_end s :
argparse.all_digits s = true ->
argparse.after_digits argparse.at_end s = true.
Proof.
induction s as [|a s IH]; [reflexivity|]. simpl.
intros H. apply andb_true_iff in H. destruct H as [-> Hs]. auto.
Qed.

(** A minus sign and digits: a negative number, which this parser takes
  for an argument, not for an option. *)
Lemma parse_optional_negative ds :
argparse.all_digits ds = true -> ds <> "" ->
argparse.parse_optional (String "-" ds) = argparse.Positional
/\ String.eqb (String "-" ds) "--" = false.
Proof.
intros H Hne. destruct ds as [|c rest]; [contradiction|].
simpl in H. apply andb_true_iff in H. destruct H as [Hc Hrest].
pose proof (contains_digits "=" rest eq_refl Hrest) as E1.
pose proof (after_digits_end rest Hrest) as E2.
apply digit_cases in Hc. simpl in Hc.
repeat destruct Hc as [<-|Hc]; try contradiction;
  (split; [|reflexivity]);
  unfold argparse.parse_optional; cbn; rewrite ?E1; cbn; rewrite ?E2;
  reflexivity.
Qed.

Lemma parse_optional_str_of_int n :
argparse.parse_optional (Fmt.str_of_int n) = argparse.Positional
/\ String.eqb (Fmt.str_of_int n) "--" = false.
Proof.
unfold Fmt.str_of_int. destruct n as [|p|p]; [split; reflexivity| |].
- simpl. unfold NilZero.string_of_uint.
  pose proof (DecimalPos.Unsigned.to_uint_nonnil p) as Hnn.
  pose proof (string_of_uint_digits (Pos.to_uint p)) as Hd.
  pose proof (string_of_uint_nonempty _ Hnn) as Hne.
  assert (E : match Pos.to_uint p with
              | Decimal.Nil => "0"
              | _ => NilEmpty.string_of_uint (Pos.to_uint p)
              end = NilEmpty.string_of_uint (Pos.to_uint p))
    by (destruct (Pos.to_uint p); [contradiction|reflexivity..]).
  rewrite E.
  destruct (NilEmpty.string_of_uint (Pos.to_uint p)) as [|c rest];
    [contradiction|].
  simpl in Hd. apply andb_true_iff in Hd. destruct Hd as [Hc _].
  apply digit_cases in Hc. simpl in Hc.
  repeat destruct Hc as [<-|Hc]; try contradiction; split; reflexivity.
- simpl. unfold NilZero.string_of_uint.
  pose proof (DecimalPos.Unsigned.to_uint_nonnil p) as Hnn.
  assert (E : match Pos.to_uint p with
              | Decimal.Nil => "0"
              | _ => NilEmpty.string_of_uint (Pos.to_uint p)
              end = NilEmpty.string_of_uint (Pos.to_uint p))
    by (destruct (Pos.to_uint p); [contradiction|reflexivity..]).
  rewrite E. apply parse_optional_negative.
  + apply string_of_uint_digits.
  + now apply string_of_uint_nonempty.
Qed.

(** A string that does not start with a minus sign is an argument. *)
Lemma parse_optional_word s :
starts_with_minus s = false ->
argparse.parse_optional s = argparse.Positional
/\ String.eqb s "--" = false.
Proof.
destruct s as [|c s]; [split; reflexivity|]. simpl. intros E.
rewrite E. split; reflexivity.
Qed.

(** [--top] takes every integer that [int] reads, whatever its sign. *)
Lemma parse_args_top url n :
starts_with_minus url = false ->
(Fmt.num_digits n <= Fmt.max_str_digits)%nat ->
parse_args [url; "--top"; Fmt.str_of_int n]
= argparse.Parsed {| argparse.url := url;
                      argparse.top := argparse.IntValue n |}.
Proof.
intros Hurl Hlen.
destruct (parse_optional_word url Hurl) as [Cu Su].
destruct (parse_optional_str_of_int n) as [Cn Sn].
unfold parse_args, argparse.parse_args. simpl argparse.split_separator.
rewrite Su, Sn. simpl. rewrite Cu, Cn. simpl.
unfold argparse.top_value. rewrite Sn, (int_str_of_int n Hlen). reflexivity.
Qed.

End CommandLineFacts.

(* ===================================================================== *)
(** * Theorems: the tree                                                  *)
(* ===================================================================== *)

Section ProgramFacts.

Variable http_get : string -> string + requests.Failure.
Variable parse_html : string -> bs4.BeautifulSoup.
Variable class_after_strip : bs4.StringClass -> bs4.PyClass.
Variable unescape : string -> string.

(** What a run prints when the command line is accepted and the page is
  fetched: the tag counts are those of the tree as parsed, the words
  are counted in the text of the filtered tree, and [args.top] goes to
  [top_n_words] as it is. *)
Lemma main_report argv ns n html :
parse_args argv = argparse.Parsed ns ->
argparse.top ns = argparse.IntValue n ->
http_get (argparse.url ns) = inl html ->
let run := main http_get parse_html class_after_strip unescape argv in
let soup := parse_html html in
let text := fst (visible_text_from_soup class_after_strip unescape soup) in
printed run
= [render_report (argparse.url ns) (top_n_words (tokenise text) n)
                 (tag_frequencies soup)]
/\ status run = Returned.
Proof.
intros Hp Ht Hg. cbv zeta. unfold main, fetch_html.
rewrite Hp, Hg, Ht.
destruct (visible_text_from_soup class_after_strip unescape
            (parse_html html)) as [text soup']. simpl.
split; reflexivity.
Qed.

End ProgramFacts.

(** C2, as far as it holds.  For every tree, [tag_frequencies] returns
    one entry per distinct lower-cased tag name, with the number of the
    tags of the tree that have that name: every tag of every depth is
    counted once, those named [script], [style], [noscript] or
    [template] like the others.  In [main] the counts that are reported
    are those of the tree as parsed, for [tag_frequencies] runs before
    the text is extracted.  The counts are those of the tree as it is
    when the function is called: called on a tree that
    [visible_text_from_soup] has filtered, it counts the tags that the
    filtering left. *)
Theorem tag_frequencies_counts_all_tags
    (http_get : string -> string + requests.Failure)
    (parse_html : string -> bs4.BeautifulSoup)
    (class_after_strip : bs4.StringClass -> bs4.PyClass)
    (unescape : string -> string) (soup : bs4.BeautifulSoup) :
  NoDup (map fst (tag_frequencies soup))
  /\ (forall name v,
        In (name, v) (tag_frequencies soup)
        <-> In name (tag_names soup) /\ v = count name (tag_names soup))
  /\ (forall n cs,
        In (bs4.Tag n cs) (bs4.descendants soup) ->
        In (Str.lower n, count (Str.lower n) (tag_names soup))
           (tag_frequencies soup)
        /\ (1 <= count (Str.lower n) (tag_names soup))%nat)
  /\ total (tag_frequencies soup)
     = List.length (bs4.find_all (fun _ => true) soup)
  /\ (forall argv ns n html,
        parse_args argv = argparse.Parsed ns ->
        argparse.top ns = argparse.IntValue n ->
        http_get (argparse.url ns) = inl html ->
        parse_html html = soup ->
        exists word_counts,
          printed (main http_get parse_html class_after_strip unescape argv)
          = [render_report (argparse.url ns) word_counts
                           (tag_frequencies soup)])
  /\ tag_frequencies
       (snd (visible_text_from_soup class_after_strip unescape soup))
     = tag_frequencies (bs4.decompose_all is_non_visible soup).
Proof.
  pose proof (tag_frequencies_perm soup) as Hp.
  assert (Hin : forall name v,
             In (name, v) (tag_frequencies soup)
             <-> In name (tag_names soup) /\ v = count name (tag_names soup)).
  { intros name v. split.
    - intros H. apply (Permutation_in _ Hp) in H.
      apply in_map_iff in H. destruct H as (k & [= <- <-] & Hk).
      rewrite In_distinct in Hk. auto.
    - intros [H ->]. apply (Permutation_in _ (Permutation_sym Hp)).
      apply in_map_iff. exists name. split; [reflexivity|].
      now rewrite In_distinct. }
  split; [|split; [|split; [|split; [|split]]]].
  - apply (Permutation_NoDup (Permutation_sym (Permutation_map fst Hp))).
    rewrite map_map. simpl. rewrite map_id. apply NoDup_distinct.
  - exact Hin.
  - intros n cs H. pose proof (tag_names_In _ _ _ H) as Hn. split.
    + apply Hin. auto.
    + now apply count_pos.
  - rewrite tag_frequencies_ranked,
      (total_perm _ _ (sorted_reverse_perm _ _)), of_list_total.
    apply length_tag_names.
  - intros argv ns n html Ha Ht Hg <-.
    destruct (main_report http_get parse_html class_after_strip unescape
                argv ns n html Ha Ht Hg) as [E _].
    cbv zeta in E. eauto.
  - reflexivity.
Qed.

Lemma tag_frequencies_counts_all_tags_witness :
  In (bs4.Tag "script" [bs4.NavString bs4.Script "ignored"])
     (bs4.descendants cat_page)
  /\ In (Str.lower "script", count (Str.lower "script") (tag_names cat_page))
        (tag_frequencies cat_page).
Proof.
  assert (H : In (bs4.Tag "script" [bs4.NavString bs4.Script "ignored"])
                (bs4.descendants cat_page)) by (simpl; tauto).
  split; [exact H|].
  exact (proj1 (proj1 (proj2 (proj2
           (tag_frequencies_counts_all_tags
              example_fetch example_parse bs4.plain_str no_references
              cat_page))) "script" _ H)).
Defined.

(** C2 as stated fails in its last clause: the counts do depend on
    whether the tree has been filtered.  Before the extraction the
    [style] tag is counted, after it it is not. *)
Lemma tag_frequencies_after_filtering :
  tag_frequencies style_page = [("div", 1%nat); ("style", 1%nat)]
  /\ forall class_after_strip unescape,
       tag_frequencies
         (snd (visible_text_from_soup class_after_strip unescape style_page))
       = [("div", 1%nat)].
Proof. split; reflexivity. Qed.

(** C3, as far as it holds.  [visible_text_from_soup] changes the tree
    it is given: what it leaves is the tree without the subtrees rooted
    at [script], [style], [noscript] and [template] elements.  The tree
    is unchanged exactly when it holds no such element; otherwise fewer
    tags are counted after the call than before.  A second extraction
    on the tree that the first one left changes nothing more. *)
Theorem visible_text_filters_in_place
    (class_after_strip : bs4.StringClass -> bs4.PyClass)
    (unescape : string -> string) (soup : bs4.BeautifulSoup) :
  let result := visible_text_from_soup class_after_strip unescape soup in
  snd result = bs4.decompose_all is_non_visible soup
  /\ (snd result = soup <-> bs4.find_all is_non_visible soup = [])
  /\ (bs4.find_all is_non_visible soup = [] ->
      tag_frequencies (snd result) = tag_frequencies soup)
  /\ (bs4.find_all is_non_visible soup <> [] ->
      (total (tag_frequencies (snd result)) < total (tag_frequencies soup))%nat)
  /\ visible_text_from_soup class_after_strip unescape (snd result) = result.
Proof.
  cbv zeta. unfold visible_text_from_soup. simpl.
  split; [reflexivity|]. split; [apply decompose_all_fixed|].
  split; [|split].
  - intros H. now rewrite (proj2 (decompose_all_fixed _ _) H).
  - intros H.
    assert (Ht : forall s, total (tag_frequencies s)
                           = List.length (bs4.find_all (fun _ => true) s)).
    { intros s. rewrite tag_frequencies_ranked,
        (total_perm _ _ (sorted_reverse_perm _ _)), of_list_total.
      apply length_tag_names. }
    rewrite !Ht.
    pose proof (find_all_decompose_all is_non_visible soup) as Hle.
    destruct (bs4.find_all is_non_visible soup); [contradiction|].
    simpl in Hle. lia.
  - assert (E : bs4.decompose_all is_non_visible
                  (bs4.decompose_all is_non_visible soup)
                = bs4.decompose_all is_non_visible soup).
    { apply decompose_all_fixed. unfold bs4.find_all.
      pose proof (decompose_all_no_match is_non_visible soup) as H.
      induction (bs4.descendants (bs4.decompose_all is_non_visible soup))
        as [|[n cs|c s] l IH]; simpl; auto.
      - rewrite (H n cs) by (simpl; auto). apply IH.
        intros. eapply H. simpl. eauto.
      - apply IH. intros. eapply H. simpl. eauto. }
    now rewrite E.
Qed.

Lemma visible_text_filters_in_place_witness :
  bs4.find_all is_non_visible plain_page = []
  /\ tag_frequencies
       (snd (visible_text_from_soup bs4.plain_str no_references plain_page))
     = tag_frequencies plain_page.
Proof.
  assert (H : bs4.find_all is_non_visible plain_page = []) by reflexivity.
  split; [exact H|].
  exact (proj1 (proj2 (proj2
           (visible_text_filters_in_place
              bs4.plain_str no_references plain_page))) H).
Defined.

(** C3 as stated fails: after the extraction the [script] element is
    gone from the tree, and [tag_frequencies] no longer counts it. *)
Lemma visible_text_changes_the_tree :
  tag_frequencies cat_page
  = [("html", 1%nat); ("body", 1%nat); ("script", 1%nat); ("p", 1%nat)]
  /\ forall class_after_strip unescape,
       snd (visible_text_from_soup class_after_strip unescape cat_page)
       = [ bs4.Tag "html"
             [ bs4.Tag "body"
                 [ bs4.Tag "p"
                     [ bs4.NavString bs4.NavigableString
                         "The Cat sat. The cat RAN." ] ] ] ]
       /\ tag_frequencies
            (snd (visible_text_from_soup class_after_strip unescape cat_page))
          = [("html", 1%nat); ("body", 1%nat); ("p", 1%nat)].
Proof. split; [reflexivity|]. intros. split; reflexivity. Qed.

(** C9, as the code has it.  The text of a comment is not collected:
    every string that [stripped_strings] yields comes from a node whose
    class is [NavigableString] or [CData] itself; the visible text is
    made of its pieces, and every piece comes from such a node that no
    [script], [style], [noscript] or [template] element encloses.  A
    tree whose strings outside these elements are all comments has no
    visible text. *)
Theorem comment_text_not_collected
    (class_after_strip : bs4.StringClass -> bs4.PyClass)
    (unescape : string -> string) (soup : bs4.BeautifulSoup) :
  let result := visible_text_from_soup class_after_strip unescape soup in
  (forall o, In o (bs4.stripped_strings class_after_strip soup) ->
             exists c s, In (bs4.NavString c s) (bs4.descendants soup)
                         /\ (c = bs4.NavigableString \/ c = bs4.CData)
                         /\ bs4.str_value o = Str.strip s)
  /\ fst result = Str.join " " (gen class_after_strip unescape (snd result))
  /\ (forall piece,
        In piece (gen class_after_strip unescape (snd result)) ->
        exists c s, VisibleString is_non_visible soup c s
                    /\ (c = bs4.NavigableString \/ c = bs4.CData)
                    /\ piece = unescape (Str.strip s))
  /\ ((forall c s, VisibleString is_non_visible soup c s ->
                   c = bs4.Comment) ->
      fst result = "").
Proof.
  cbv zeta.
  assert (Hgen : forall piece,
    In piece (gen class_after_strip unescape
                (bs4.decompose_all is_non_visible soup)) ->
    exists c s, VisibleString is_non_visible soup c s
                /\ (c = bs4.NavigableString \/ c = bs4.CData)
                /\ piece = unescape (Str.strip s)).
  { intros piece H. apply gen_origin in H.
    destruct H as (c & s & Hin & Hc & ->). exists c, s.
    repeat split; auto.
    now apply decompose_all_strings in Hin. }
  split; [apply stripped_strings_origin|]. split; [reflexivity|].
  split; [exact Hgen|].
  intros Hall. unfold visible_text_from_soup. simpl.
  destruct (gen class_after_strip unescape
              (bs4.decompose_all is_non_visible soup)) as [|piece l] eqn:E;
    [reflexivity|].
  destruct (Hgen piece) as (c & s & Hin & Hc & _); [simpl; auto|].
  apply Hall in Hin. subst c. destruct Hc; discriminate.
Qed.

Lemma comment_text_not_collected_witness :
  (forall c s,
     VisibleString is_non_visible
       [bs4.Tag "p" [bs4.NavString bs4.Comment "secret"]] c s ->
     c = bs4.Comment)
  /\ fst (visible_text_from_soup same_class no_references
            [bs4.Tag "p" [bs4.NavString bs4.Comment "secret"]])
     = "".
Proof.
  assert (H : forall c s,
     VisibleString is_non_visible
       [bs4.Tag "p" [bs4.NavString bs4.Comment "secret"]] c s ->
     c = bs4.Comment).
  { intros c s Hv. apply VisibleString_descendants in Hv. simpl in Hv.
    destruct Hv as [E|[E|[]]]; [discriminate|]. now injection E as <- _. }
  split; [exact H|].
  exact (proj2 (proj2 (proj2
           (comment_text_not_collected same_class no_references
              [bs4.Tag "p" [bs4.NavString bs4.Comment "secret"]]))) H).
Defined.

(** C9 as stated fails: the text of the comment is not part of the
    visible text, neither when a stripped string keeps the class of its
    node nor when it is a plain [str]. *)
Lemma comment_text_left_out :
  In (bs4.NavString bs4.Comment "secret") (bs4.descendants comment_page)
  /\ (forall unescape,
        fst (visible_text_from_soup same_class unescape comment_page)
        = unescape "shown")
  /\ (forall unescape,
        fst (visible_text_from_soup bs4.plain_str unescape comment_page)
        = "").
Proof. split; [simpl; auto|]. split; reflexivity. Qed.

(** With [str.strip] as Python has it, the test of the generator, made
    on plain [str] values, lets nothing through: the visible text is
    empty for every page. *)
Remark visible_text_plain_str (unescape : string -> string)
    (soup : bs4.BeautifulSoup) :
  fst (visible_text_from_soup bs4.plain_str unescape soup) = "".
Proof.
  unfold visible_text_from_soup, gen, bs4.stripped_strings. simpl.
  induction (bs4.descendants (bs4.decompose_all is_non_visible soup))
    as [|[n cs|c s] l IH]; simpl; auto.
  destruct (bs4.interesting c); [|exact IH].
  destruct (String.length (Str.strip s) =? 0)%nat; exact IH.
Qed.

(** C7, as the code has it.  The command line layer does not reject a
    negative value: [parse_args] accepts every integer [n] that [int]
    reads, that is every [n] of at most 4300 digits, negative or not,
    as the value of [--top], and when the page is fetched [main] hands
    it to [top_n_words] as it is; for a negative [n] the list of words
    is then empty. *)
Theorem negative_top_reaches_top_n_words
    (http_get : string -> string + requests.Failure)
    (parse_html : string -> bs4.BeautifulSoup)
    (class_after_strip : bs4.StringClass -> bs4.PyClass)
    (unescape : string -> string) (url html : string) (n : Z) :
  starts_with_minus url = false ->
  http_get url = inl html ->
  (Fmt.num_digits n <= Fmt.max_str_digits)%nat ->
  let argv := [url; "--top"; Fmt.str_of_int n] in
  let run := main http_get parse_html class_after_strip unescape argv in
  let soup := parse_html html in
  let text := fst (visible_text_from_soup class_after_strip unescape soup) in
  parse_args argv
  = argparse.Parsed {| argparse.url := url;
                        argparse.top := argparse.IntValue n |}
  /\ status run = Returned
  /\ printed run
     = [render_report url (top_n_words (tokenise text) n)
                      (tag_frequencies soup)]
  /\ ((n < 0)%Z -> top_n_words (tokenise text) n = []).
Proof.
  intros Hurl Hget Hlen. cbv zeta.
  pose proof (parse_args_top url n Hurl Hlen) as Hp.
  destruct (main_report http_get parse_html class_after_strip unescape
              _ _ n html Hp eq_refl Hget) as [Hprinted Hstatus].
  cbv zeta in Hprinted, Hstatus. simpl in Hprinted.
  split; [exact Hp|]. split; [exact Hstatus|]. split; [exact Hprinted|].
  intros Hn. unfold top_n_words. now apply most_common_negative.
Qed.

Lemma negative_top_reaches_top_n_words_witness :
  starts_with_minus "http://example.com" = false
  /\ example_fetch "http://example.com" = inl cat_html
  /\ (Fmt.num_digits (-5) <= Fmt.max_str_digits)%nat
  /\ parse_args ["http://example.com"; "--top"; Fmt.str_of_int (-5)]
     = argparse.Parsed {| argparse.url := "http://example.com";
                           argparse.top := argparse.IntValue (-5) |}
  /\ status (main example_fetch example_parse bs4.plain_str no_references
               ["http://example.com"; "--top"; Fmt.str_of_int (-5)])
     = Returned.
Proof.
  assert (Hlen : (Fmt.num_digits (-5) <= Fmt.max_str_digits)%nat)
    by (apply Nat.leb_le; reflexivity).
  split; [reflexivity|]. split; [reflexivity|]. split; [exact Hlen|].
  destruct (negative_top_reaches_top_n_words
              example_fetch example_parse bs4.plain_str no_references
              "http://example.com" cat_html (-5) eq_refl eq_refl Hlen)
    as (Hp & Hs & _).
  split; [exact Hp | exact Hs].
Defined.

(** C7 as stated fails: [--top -5] is accepted, and the run goes through
    [top_n_words] with [n = -5] to the report. *)
Lemma negative_top_not_rejected :
  parse_args ["http://example.com"; "--top"; "-5"]
  = argparse.Parsed {| argparse.url := "http://example.com";
                        argparse.top := argparse.IntValue (-5) |}
  /\ status (main example_fetch example_parse same_class no_references
               ["http://example.com"; "--top"; "-5"])
     = Returned
  /\ printed (main example_fetch example_parse same_class no_references
                ["http://example.com"; "--top"; "-5"])
     = [render_report "http://example.com"
          (top_n_words ["cat"; "sat"; "cat"; "ran"] (-5))
          [("html", 1%nat); ("body", 1%nat); ("script", 1%nat);
           ("p", 1%nat)]]
  /\ top_n_words ["cat"; "sat"; "cat"; "ran"] (-5) = [].
Proof. repeat split. Qed.

(* ===================================================================== *)
(** * More about the tokeniser                                            *)
(* ===================================================================== *)

Section TokeniserLaws.

Lemma tokenise_runs text : tokenise text = tokenise_spec text.
Proof.
unfold tokenise, tokenise_spec, re.finditer.
now rewrite scan_maximal_runs, map_map.
Qed.

Lemma tokens_wellformed text :
Forall (fun tok =>
          (2 <= String.length tok)%nat
          /\ Forall (fun c => is_ascii_lower c = true)
                    (list_ascii_of_string tok)
          /\ ~ In tok STOP_WORDS)
       (tokenise text).
Proof.
rewrite tokenise_runs. unfold tokenise_spec.
apply Forall_forall. intros tok Hin.
apply filter_In in Hin. destruct Hin as [Hin Hstop].
apply in_map_iff in Hin. destruct Hin as (run & <- & Hrun).
apply filter_In in Hrun. destruct Hrun as [Hrun Hlen].
apply Nat.leb_le in Hlen.
pose proof (RunsOf_alpha _ _ (RunsOf_maximal_runs (list_ascii_of_string text)))
  as Halpha.
rewrite Forall_forall in Halpha. specialize (Halpha run Hrun).
split; [|split].
- now rewrite length_lower, length_string_of_list_ascii.
- rewrite list_ascii_of_lower, list_ascii_of_string_of_list_ascii.
  apply Forall_map. eapply Forall_impl; [|exact Halpha].
  intros c Hc. now apply lower_char_alpha.
- rewrite <- mem_In. now destruct (Str.mem _ STOP_WORDS).
Qed.

Lemma alpha_lower_char c : is_ascii_alpha (Str.lower_char c) = is_ascii_alpha c.
Proof. destruct c as [[] [] [] [] [] [] [] []]; reflexivity. Qed.

Lemma lower_char_idem c : Str.lower_char (Str.lower_char c) = Str.lower_char c.
Proof. destruct c as [[] [] [] [] [] [] [] []]; reflexivity. Qed.

Lemma lower_char_lower c : is_ascii_lower c = true -> Str.lower_char c = c.
Proof. destruct c as [[] [] [] [] [] [] [] []]; vm_compute; congruence. Qed.

Lemma lower_alpha c : is_ascii_lower c = true -> is_ascii_alpha c = true.
Proof. destruct c as [[] [] [] [] [] [] [] []]; vm_compute; congruence. Qed.

Lemma starts_alpha_map_lower s :
starts_alpha (map Str.lower_char s) = starts_alpha s.
Proof. destruct s; [reflexivity|apply alpha_lower_char]. Qed.

Lemma maximal_runs_lower s :
maximal_runs (map Str.lower_char s)
= map (map Str.lower_char) (maximal_runs s).
Proof.
induction s as [|c s IH]; [reflexivity|].
cbn [map].
rewrite !maximal_runs_cons, alpha_lower_char, starts_alpha_map_lower, IH.
destruct (is_ascii_alpha c); [|reflexivity].
destruct (starts_alpha s); [|reflexivity].
now destruct (maximal_runs s).
Qed.

Lemma lower_idem s : Str.lower (Str.lower s) = Str.lower s.
Proof.
induction s as [|c s IH]; [reflexivity|].
simpl. now rewrite lower_char_idem, IH.
Qed.

Lemma lower_of_list l :
Str.lower (string_of_list_ascii l)
= string_of_list_ascii (map Str.lower_char l).
Proof. induction l as [|c l IH]; [reflexivity|]. simpl. now rewrite IH. Qed.

Lemma filter_map_length {B : Type} (f : B -> B) n (l : list (list B)) :
filter (fun run => (n <=? List.length run)%nat) (map (map f) l)
= map (map f) (filter (fun run => (n <=? List.length run)%nat) l).
Proof.
induction l as [|r l IH]; [reflexivity|].
cbn [map filter]. rewrite length_map, IH.
now destruct (n <=? List.length r)%nat.
Qed.

Lemma starts_alpha_runs s :
starts_alpha s = true -> maximal_runs s <> [].
Proof.
destruct s as [|c s]; [discriminate|]. simpl. intros ->.
destruct (starts_alpha s); [destruct (maximal_runs s)|]; discriminate.
Qed.

(** A character that is no letter ends the run before it. *)
Lemma maximal_runs_split s1 c s2 :
is_ascii_alpha c = false ->
maximal_runs (s1 ++ c :: s2) = maximal_runs s1 ++ maximal_runs s2.
Proof.
intros Hc. induction s1 as [|x s1 IH].
- simpl. now rewrite Hc.
- cbn [app]. rewrite !maximal_runs_cons, IH.
  destruct (is_ascii_alpha x); [|reflexivity].
  assert (E : starts_alpha (s1 ++ c :: s2) = starts_alpha s1).
  { destruct s1; [exact Hc|reflexivity]. }
  rewrite E. destruct (starts_alpha s1) eqn:Hs; [|reflexivity].
  apply starts_alpha_runs in Hs.
  destruct (maximal_runs s1); [contradiction|reflexivity].
Qed.

Lemma list_ascii_of_app a b :
list_ascii_of_string (a ++ b)
= list_ascii_of_string a ++ list_ascii_of_string b.
Proof. induction a as [|c a IH]; [reflexivity|]. simpl. now rewrite IH. Qed.

Lemma tokenise_spec_runs text :
tokenise_spec text
= filter (fun tok => negb (Str.mem tok STOP_WORDS))
    (map (fun run => Str.lower (string_of_list_ascii run))
       (filter (fun run => (2 <=? List.length run)%nat)
          (maximal_runs (list_ascii_of_string text)))).
Proof. reflexivity. Qed.

Lemma tokenise_separator a c b :
is_ascii_alpha c = false ->
tokenise (a ++ String c b) = tokenise a ++ tokenise b.
Proof.
intros Hc. rewrite !tokenise_runs, !tokenise_spec_runs, list_ascii_of_app.
cbn [list_ascii_of_string].
now rewrite (maximal_runs_split _ _ _ Hc), filter_app, map_app, filter_app.
Qed.

Lemma tokenise_empty : tokenise "" = [].
Proof. reflexivity. Qed.

Lemma tokenise_join_space pieces :
tokenise (Str.join " " pieces) = flat_map tokenise pieces.
Proof.
induction pieces as [|p ps IH]; [reflexivity|].
destruct ps as [|q ps].
- simpl. now rewrite app_nil_r.
- change (Str.join " " (p :: q :: ps))
    with (p ++ String " " (Str.join " " (q :: ps)))%string.
  rewrite tokenise_separator by reflexivity.
  now rewrite IH.
Qed.

Lemma tokenise_token tok :
(2 <= String.length tok)%nat ->
Forall (fun c => is_ascii_lower c = true) (list_ascii_of_string tok) ->
~ In tok STOP_WORDS ->
tokenise tok = [tok].
Proof.
intros Hlen Hlow Hstop.
rewrite tokenise_runs, tokenise_spec_runs.
assert (Hrun : maximal_runs (list_ascii_of_string tok)
               = [list_ascii_of_string tok]).
{ rewrite <- (app_nil_r (list_ascii_of_string tok)) at 1.
  rewrite maximal_runs_run; [reflexivity | | | reflexivity].
  - destruct tok; [simpl in Hlen; lia|discriminate].
  - eapply Forall_impl; [|exact Hlow]. intros c. apply lower_alpha. }
rewrite Hrun. cbn [filter].
rewrite <- length_string_of_list_ascii, string_of_list_ascii_of_string.
destruct (Nat.leb_spec 2 (String.length tok)); [|lia].
cbn [map filter]. rewrite string_of_list_ascii_of_string.
assert (El : Str.lower tok = tok).
{ clear - Hlow. induction tok as [|c tok IH]; [reflexivity|].
  simpl in *. inversion Hlow; subst.
  now rewrite lower_char_lower, IH. }
rewrite El.
destruct (Str.mem tok STOP_WORDS) eqn:Hm; [|reflexivity].
apply mem_In in Hm. contradiction.
Qed.

End TokeniserLaws.

(** The case of the letters of a text does not matter to its tokens. *)
Theorem tokenise_lower (text : string) :
  tokenise (Str.lower text) = tokenise text.
Proof.
  rewrite !tokenise_runs, !tokenise_spec_runs, list_ascii_of_lower.
  rewrite maximal_runs_lower, filter_map_length, map_map.
  f_equal. apply map_ext. intros run.
  now rewrite <- lower_of_list, lower_idem.
Qed.

(** A word never spans two pieces of text: the tokens of pieces joined
    with a space are the tokens of the pieces, one piece after the
    other; so the tokens of the visible text are those of the strings it
    was joined from. *)
Theorem tokenise_join
    (class_after_strip : bs4.StringClass -> bs4.PyClass)
    (unescape : string -> string) (soup : bs4.BeautifulSoup)
    (pieces : list string) :
  tokenise (Str.join " " pieces) = flat_map tokenise pieces
  /\ tokenise (fst (visible_text_from_soup class_after_strip unescape soup))
     = flat_map tokenise
         (gen class_after_strip unescape
              (snd (visible_text_from_soup class_after_strip unescape soup))).
Proof.
  split; [apply tokenise_join_space|].
  unfold visible_text_from_soup. simpl. apply tokenise_join_space.
Qed.

(** Tokens are stable: the tokens of a text, written out with spaces
    between them and tokenised again, come back unchanged. *)
Theorem tokenise_round_trip (text : string) :
  tokenise (Str.join " " (tokenise text)) = tokenise text.
Proof.
  rewrite tokenise_join_space.
  pose proof (tokens_wellformed text) as H.
  induction (tokenise text) as [|tok l IH]; [reflexivity|].
  inversion H as [|? ? (Hlen & Hlow & Hstop) Hl]; subst.
  cbn [flat_map]. rewrite (tokenise_token tok Hlen Hlow Hstop), (IH Hl).
  reflexivity.
Qed.

(* ===================================================================== *)
(** * More about the ranked list                                          *)
(* ===================================================================== *)

Section RankedLaws.

Lemma NoDup_firstn {B : Type} j (l : list B) : NoDup l -> NoDup (firstn j l).
Proof.
intros H. rewrite <- (firstn_skipn j l) in H.
now apply NoDup_app_remove_r in H.
Qed.

Lemma ranked_keys_NoDup keys :
NoDup (map fst (ranked (Counter.of_list keys))).
Proof.
apply (Permutation_NoDup
         (Permutation_map fst
            (Permutation_sym (sorted_reverse_perm _ (Counter.of_list keys))))).
rewrite of_list_keys. apply NoDup_distinct.
Qed.

Lemma top_n_words_firstn tokens n :
exists j, top_n_words tokens n = firstn j (ranked (Counter.of_list tokens)).
Proof. apply most_common_prefix. Qed.

Lemma top_n_words_In tokens n w c :
In (w, c) (top_n_words tokens n) ->
In w tokens /\ c = count w tokens /\ (1 <= c)%nat.
Proof.
destruct (top_n_words_firstn tokens n) as [j ->]. intros H.
apply In_firstn, ranked_In in H. destruct H as [Hw ->].
repeat split; auto. now apply count_pos.
Qed.

Lemma count_absent k keys : ~ In k keys -> count k keys = 0%nat.
Proof.
unfold count. induction keys as [|x keys IH]; [reflexivity|].
intros H. simpl. destruct (String.eqb_spec k x) as [->|_].
- exfalso. apply H. now left.
- apply IH. intros Hin. apply H. now right.
Qed.

End RankedLaws.

(** Asking for more words only makes the list longer: the list for [n]
    is the first [n] entries of the list for any larger number, and of
    the whole ranked list; it has [n] entries, or as many as there are
    distinct tokens when these are fewer. *)
Theorem top_n_words_prefix (tokens : list string) (n m : Z) :
  (0 <= n <= m)%Z ->
  top_n_words tokens n = firstn (Z.to_nat n) (top_n_words tokens m)
  /\ top_n_words tokens n
     = firstn (Z.to_nat n)
         (Counter.most_common None (Counter.of_list tokens))
  /\ List.length (top_n_words tokens n)
     = Nat.min (Z.to_nat n) (List.length (distinct tokens)).
Proof.
  intros [Hn Hm]. unfold top_n_words. rewrite !most_common_Some.
  destruct (Z.ltb_spec n 0); [lia|]. destruct (Z.ltb_spec m 0); [lia|].
  split; [|split].
  - rewrite firstn_firstn. f_equal. lia.
  - reflexivity.
  - rewrite length_firstn. f_equal.
    rewrite (Permutation_length (sorted_reverse_perm _ _)).
    now rewrite of_list_spec, length_map.
Qed.

Lemma top_n_words_prefix_witness :
  (0 <= 1 <= 2)%Z
  /\ top_n_words ["b"; "a"; "b"; "c"] 1
     = firstn (Z.to_nat 1) (top_n_words ["b"; "a"; "b"; "c"] 2).
Proof.
  assert (H : (0 <= 1 <= 2)%Z) by lia.
  split; [exact H|].
  exact (proj1 (top_n_words_prefix ["b"; "a"; "b"; "c"] 1 2 H)).
Defined.

(** Whatever [n], every entry of the list pairs a token of the input
    with the number of its occurrences, which is at least one, and no
    token has two entries. *)
Theorem top_n_words_entries (tokens : list string) (n : Z) :
  NoDup (map fst (top_n_words tokens n))
  /\ Forall (fun wc => In (fst wc) tokens
                       /\ snd wc = count (fst wc) tokens
                       /\ (1 <= snd wc)%nat)
            (top_n_words tokens n).
Proof.
  split.
  - destruct (top_n_words_firstn tokens n) as [j ->].
    rewrite <- firstn_map. apply NoDup_firstn, ranked_keys_NoDup.
  - apply Forall_forall. intros [w c] H. now apply top_n_words_In in H.
Qed.

(** The first entry is a most frequent token: no string occurs more
    often in the input than the word at the head of the list. *)
Theorem top_n_words_head (tokens : list string) (n : Z)
    (w : string) (c : nat) (rest : list (string * nat)) :
  top_n_words tokens n = (w, c) :: rest ->
  c = count w tokens /\ forall k, (count k tokens <= c)%nat.
Proof.
  intros E.
  assert (Hin : In (w, c) (top_n_words tokens n)) by (rewrite E; now left).
  apply top_n_words_In in Hin. destruct Hin as (_ & Hc & _).
  split; [exact Hc|]. intros k.
  destruct (in_dec string_dec k tokens) as [Hk|Hk];
    [|rewrite (count_absent _ _ Hk); lia].
  destruct (top_n_words_firstn tokens n) as [j Ej]. rewrite Ej in E.
  pose proof (sorted_reverse_Descending by_count (kl_irrefl _) (kl_trans _)
                (kl_negtrans _) (Counter.of_list tokens)) as Hd.
  assert (Hr : In (k, count k tokens) (ranked (Counter.of_list tokens)))
    by now apply ranked_In.
  destruct (ranked (Counter.of_list tokens)) as [|x l] eqn:Er; [destruct Hr|].
  destruct j as [|j]; [discriminate|]. simpl in E. injection E as -> _.
  destruct Hr as [Hr|Hr]; [injection Hr as _ <-; lia|].
  unfold Descending in Hd. apply StronglySorted_inv in Hd.
  destruct Hd as [_ Hd]. rewrite Forall_forall in Hd.
  specialize (Hd _ Hr). unfold heapq.key_ltb, Counter.count_of in Hd.
  simpl in Hd. apply Nat.ltb_ge in Hd. exact Hd.
Qed.

Lemma top_n_words_head_witness :
  top_n_words ["b"; "a"; "b"; "c"] 2 = [("b", 2%nat); ("a", 1%nat)]
  /\ 2%nat = count "b" ["b"; "a"; "b"; "c"]
  /\ (count "c" ["b"; "a"; "b"; "c"] <= 2)%nat.
Proof.
  assert (H : top_n_words ["b"; "a"; "b"; "c"] 2
              = [("b", 2%nat); ("a", 1%nat)]) by reflexivity.
  split; [exact H|].
  destruct (top_n_words_head _ _ _ _ _ H) as [Hc Hk].
  split; [exact Hc | exact (Hk "c")].
Defined.

(** What the report lists as words: every word counted from a text is
    made of at least two letters [a-z], is no stop-word, and occurs at
    least once among the tokens of the text. *)
Theorem word_counts_are_words (text : string) (n : Z) :
  Forall (fun wc =>
            (2 <= String.length (fst wc))%nat
            /\ Forall (fun c => is_ascii_lower c = true)
                      (list_ascii_of_string (fst wc))
            /\ ~ In (fst wc) STOP_WORDS
            /\ snd wc = count (fst wc) (tokenise text)
            /\ (1 <= snd wc)%nat)
         (top_n_words (tokenise text) n).
Proof.
  apply Forall_forall. intros [w c] H.
  apply top_n_words_In in H. destruct H as (Hw & Hc & Hpos).
  pose proof (tokens_wellformed text) as Ht.
  rewrite Forall_forall in Ht. destruct (Ht w Hw) as (H1 & H2 & H3).
  simpl. repeat split; auto.
Qed.

(* ===================================================================== *)
(** * More about the tree after the extraction                            *)
(* ===================================================================== *)

Section FilteredTree.

Variable m : string -> bool.

(** A tag that the filtering left was in the tree before, under the
  same name. *)
Lemma decompose_el_origin e :
forall n cs, In (bs4.Tag n cs) (bs4.descendants (bs4.decompose_el m e)) ->
             exists cs', In (bs4.Tag n cs') (bs4.descendants [e]).
Proof.
induction e as [n0 cs0 IH | c s] using PageElement_tree_ind;
  intros n cs Hin.
- simpl in Hin. destruct (m n0) eqn:E; [contradiction|].
  rewrite descendants_cons, below_Tag, app_nil_r in Hin.
  rewrite descendants_cons, below_Tag, app_nil_r.
  destruct Hin as [[= <- <-]|Hin]; [exists cs0; now left|].
  fold (bs4.decompose_all m cs0) in Hin.
  rewrite descendants_decompose_all in Hin.
  apply in_flat_map in Hin. destruct Hin as (e & He & Hin).
  rewrite Forall_forall in IH. destruct (IH e He n cs Hin) as [cs' Hcs'].
  exists cs'. right.
  apply in_split in He. destruct He as (l1 & l2 & ->).
  rewrite descendants_app. apply in_or_app. right.
  change (e :: l2) with ([e] ++ l2). rewrite descendants_app.
  apply in_or_app. now left.
- simpl in Hin. destruct Hin as [Hin|[]]. discriminate.
Qed.

Lemma decompose_all_origin soup n cs :
In (bs4.Tag n cs) (bs4.descendants (bs4.decompose_all m soup)) ->
exists cs', In (bs4.Tag n cs') (bs4.descendants soup).
Proof.
rewrite descendants_decompose_all. intros Hin.
apply in_flat_map in Hin. destruct Hin as (e & He & Hin).
destruct (decompose_el_origin e n cs Hin) as [cs' Hcs'].
exists cs'.
apply in_split in He. destruct He as (l1 & l2 & ->).
rewrite descendants_app. apply in_or_app. right.
change (e :: l2) with ([e] ++ l2). rewrite descendants_app.
apply in_or_app. now left.
Qed.

End FilteredTree.

Lemma tag_names_origin soup name :
  In name (tag_names soup) ->
  exists n cs, In (bs4.Tag n cs) (bs4.descendants soup) /\ name = Str.lower n.
Proof.
  unfold tag_names, bs4.find_all. intros H.
  apply in_flat_map in H. destruct H as (e & He & Hn).
  apply filter_In in He. destruct He as [He _].
  destruct e as [n cs|c s]; [|destruct Hn].
  destruct Hn as [<-|[]]. now exists n, cs.
Qed.

Lemma tag_frequencies_names soup name :
  In name (map fst (tag_frequencies soup)) <-> In name (tag_names soup).
Proof.
  rewrite (tag_frequencies_ranked soup).
  split.
  - intros H. apply in_map_iff in H. destruct H as ([w c] & <- & H).
    now apply ranked_In in H.
  - intros H. apply in_map_iff. exists (name, count name (tag_names soup)).
    split; [reflexivity|]. now apply ranked_In.
Qed.

(** Counting the tags of a tree after the text has been extracted from
    it: for every tree, a name that is counted then was counted before;
    and when the tag names of the tree are in lower case, as a parser
    delivers them, [script], [style], [noscript] and [template] are not
    counted at all. *)
Theorem tag_frequencies_after_extraction
    (class_after_strip : bs4.StringClass -> bs4.PyClass)
    (unescape : string -> string) (soup : bs4.BeautifulSoup) :
  let left := snd (visible_text_from_soup class_after_strip unescape soup) in
  (forall name,
     In name (map fst (tag_frequencies left)) ->
     In name (map fst (tag_frequencies soup)))
  /\ ((forall n cs, In (bs4.Tag n cs) (bs4.descendants soup) ->
                    Str.lower n = n) ->
      forall name,
        In name NON_VISIBLE -> ~ In name (map fst (tag_frequencies left))).
Proof.
  cbv zeta. unfold visible_text_from_soup. simpl.
  split.
  - intros name. rewrite !tag_frequencies_names. intros H.
    apply tag_names_origin in H. destruct H as (n & cs & Hin & ->).
    apply decompose_all_origin in Hin. destruct Hin as [cs' Hin].
    eapply tag_names_In; eauto.
  - intros Hlow name Hname H. rewrite tag_frequencies_names in H.
    apply tag_names_origin in H. destruct H as (n & cs & Hin & ->).
    pose proof (decompose_all_no_match _ _ _ _ Hin) as Hm.
    apply decompose_all_origin in Hin. destruct Hin as [cs' Hin].
    rewrite (Hlow _ _ Hin) in Hname.
    apply is_non_visible_spec in Hm. contradiction.
Qed.

Lemma tag_frequencies_after_extraction_witness :
  (forall n cs, In (bs4.Tag n cs) (bs4.descendants cat_page) ->
                Str.lower n = n)
  /\ ~ In "script"
          (map fst (tag_frequencies
                      (snd (visible_text_from_soup bs4.plain_str
                              no_references cat_page)))).
Proof.
  assert (H : forall n cs, In (bs4.Tag n cs) (bs4.descendants cat_page) ->
                           Str.lower n = n).
  { simpl. intros n cs [E|[E|[E|[E|[E|[E|[]]]]]]];
      try discriminate; now injection E as <- _. }
  split; [exact H|].
  exact (proj2 (tag_frequencies_after_extraction
                  bs4.plain_str no_references cat_page)
               H "script" (or_introl eq_refl)).
Defined.

(* ===================================================================== *)
(** * More about the command line                                         *)
(* ===================================================================== *)

Section CommandLineLaws.

(** [str(n)] is a string of digits, with a minus sign before them for a
  negative [n]. *)
Lemma str_of_int_shape n :
exists ds, argparse.all_digits ds = true /\ ds <> ""
           /\ (Fmt.str_of_int n = ds \/ Fmt.str_of_int n = String "-" ds).
Proof.
unfold Fmt.str_of_int. destruct n as [|p|p].
- exists "0". repeat split; [discriminate | now left].
- exists (NilEmpty.string_of_uint (Pos.to_uint p)).
  pose proof (DecimalPos.Unsigned.to_uint_nonnil p) as Hnn.
  split; [apply string_of_uint_digits|].
  split; [now apply string_of_uint_nonempty|].
  left. simpl. unfold NilZero.string_of_uint.
  destruct (Pos.to_uint p); [contradiction|reflexivity..].
- exists (NilEmpty.string_of_uint (Pos.to_uint p)).
  pose proof (DecimalPos.Unsigned.to_uint_nonnil p) as Hnn.
  split; [apply string_of_uint_digits|].
  split; [now apply string_of_uint_nonempty|].
  right. simpl. unfold NilZero.string_of_uint.
  destruct (Pos.to_uint p); [contradiction|reflexivity..].
Qed.

Lemma contains_str_of_int n : argparse.contains "=" (Fmt.str_of_int n) = false.
Proof.
destruct (str_of_int_shape n) as (ds & Hd & _ & [-> | ->]).
- now apply contains_digits.
- simpl. now apply contains_digits.
Qed.

Lemma str_of_int_nonempty n : Fmt.str_of_int n <> "".
Proof.
destruct (str_of_int_shape n) as (ds & _ & Hne & [-> | ->]);
  [exact Hne | discriminate].
Qed.

Lemma top_value_str_of_int n :
(Fmt.num_digits n <= Fmt.max_str_digits)%nat ->
argparse.top_value (Fmt.str_of_int n) = Some (argparse.IntValue n).
Proof.
intros Hlen. unfold argparse.top_value.
destruct (parse_optional_str_of_int n) as [_ ->].
now rewrite int_str_of_int.
Qed.

(** [--top=e]: the option with its argument attached. *)
Lemma parse_optional_long_equals e :
argparse.parse_optional ("--top=" ++ e)
= argparse.Optional (Some argparse.store_top, "--top", Some e)
/\ String.eqb ("--top=" ++ e) "--" = false.
Proof. split; reflexivity. Qed.

(** [-te]: the short option with its argument attached. *)
Lemma parse_optional_short_attached e :
e <> "" -> argparse.contains "=" e = false ->
argparse.parse_optional ("-t" ++ e)
= argparse.Optional (Some argparse.store_top, "-t", Some e)
/\ String.eqb ("-t" ++ e) "--" = false.
Proof.
intros Hne Hc. destruct e as [|c rest]; [contradiction|].
split; [|reflexivity].
unfold argparse.parse_optional. cbn. unfold argparse.contains in Hc.
fold argparse.contains in Hc. rewrite Hc. cbn. reflexivity.
Qed.

Lemma finish_exit l after st c :
argparse.finish l after st = argparse.SystemExit c -> c = 2%Z.
Proof.
unfold argparse.finish.
destruct (argparse.st_url _); [|congruence].
destruct (argparse.st_extras _); congruence.
Qed.

(** The parser leaves with status 0 (help) or 2 (usage error) only. *)
Lemma consume_exit k : forall l after st c,
(List.length l <= k)%nat ->
argparse.consume l after st = argparse.SystemExit c -> c = 0%Z \/ c = 2%Z.
Proof.
induction k as [|k IH]; intros l after st c Hlen H.
- destruct l; [|simpl in Hlen; lia]. simpl in H.
  right. eapply finish_exit; eauto.
- destruct l as [|[s cls] l']; [right; eapply finish_exit; eauto|].
  simpl in Hlen.
  assert (Hfin : forall l0 st0,
            argparse.finish l0 after st0 = argparse.SystemExit c ->
            c = 0%Z \/ c = 2%Z)
    by (intros; right; eapply finish_exit; eauto).
  assert (Hrec : forall st0,
            argparse.consume l' after st0 = argparse.SystemExit c ->
            c = 0%Z \/ c = 2%Z)
    by (intros st0; apply IH; lia).
  assert (Hpos : (if existsb argparse.is_optional l'
                  then match argparse.st_url st with
                       | None => argparse.consume l' after
                                   (argparse.set_url s st)
                       | Some _ => argparse.consume l' after
                                     (argparse.add_extras [s] st)
                       end
                  else argparse.finish (map fst ((s, cls) :: l')) after st)
                 = argparse.SystemExit c -> c = 0%Z \/ c = 2%Z).
  { destruct (existsb argparse.is_optional l'); [|apply Hfin].
    destruct (argparse.st_url st); apply Hrec. }
  destruct cls as [|[[[[|]|] os] [e|]]|]; simpl in H;
    try (now apply Hpos); try (now apply Hrec in H).
  + destruct (argparse.single_dash os && argparse.help_cluster e _);
      injection H as <-; auto.
  + injection H as <-; auto.
  + destruct (argparse.top_value e); [now apply Hrec in H|].
    injection H as <-; auto.
  + destruct l' as [|[a [| |]] l'']; try (injection H as <-; now auto).
    destruct (argparse.top_value a); [|injection H as <-; now auto].
    apply IH in H; [exact H | simpl in Hlen; lia].
Qed.

Lemma parse_args_exit argv c :
parse_args argv = argparse.SystemExit c -> c = 0%Z \/ c = 2%Z.
Proof.
unfold parse_args, argparse.parse_args.
destruct (argparse.split_separator argv) as [before after].
destruct (existsb _ _); [intros [= <-]; auto|].
apply (consume_exit _ _ _ _ _ (le_n _)).
Qed.

Lemma split_separator_words l :
Forall (fun s => String.eqb s "--" = false) l ->
argparse.split_separator l = (l, None).
Proof.
induction 1 as [|s l Hs _ IH]; [reflexivity|].
simpl. now rewrite Hs, IH.
Qed.

Lemma split_separator_incl argv :
incl (fst (argparse.split_separator argv)) argv.
Proof.
induction argv as [|s argv IH]; [apply incl_refl|].
simpl. destruct (String.eqb s "--"); [intros x []|].
destruct (argparse.split_separator argv) as [l after]. simpl in *.
intros x [<-|Hx]; [now left|right; now apply IH].
Qed.

Lemma classified_words l :
Forall (fun s => starts_with_minus s = false) l ->
map (fun s => (s, argparse.parse_optional s)) l
= map (fun s => (s, argparse.Positional)) l.
Proof.
induction 1 as [|s l Hs _ IH]; [reflexivity|].
simpl. now rewrite (proj1 (parse_optional_word s Hs)), IH.
Qed.

Lemma words_not_optional l :
existsb argparse.is_optional (map (fun s => (s, argparse.Positional)) l)
= false.
Proof. induction l; auto. Qed.

Lemma words_not_ambiguous l :
existsb argparse.is_ambiguous (map (fun s => (s, argparse.Positional)) l)
= false.
Proof. induction l; auto. Qed.

End CommandLineLaws.

(** Strings that do not start with a minus sign are taken as they
    come: one such string alone is the URL, whatever it looks like
    (empty, or no URL at all), with [top] at its default 100; none, or
    more than one, is a usage error (status 2). *)
Theorem parse_args_words (argv : list string) :
  Forall (fun s => starts_with_minus s = false) argv ->
  parse_args argv
  = match argv with
    | [u] => argparse.Parsed {| argparse.url := u;
                                 argparse.top := argparse.IntValue 100 |}
    | _ => argparse.SystemExit 2
    end.
Proof.
  intros H. unfold parse_args, argparse.parse_args.
  rewrite split_separator_words.
  2:{ eapply Forall_impl; [|exact H]. intros s Hs.
      apply (parse_optional_word s Hs). }
  rewrite (classified_words _ H), words_not_ambiguous.
  destruct argv as [|u l]; [reflexivity|].
  cbn [map argparse.consume]. rewrite words_not_optional.
  unfold argparse.finish. cbn. rewrite map_map. cbn.
  rewrite map_id, app_nil_r. now destruct l.
Qed.

Lemma parse_args_words_witness :
  Forall (fun s => starts_with_minus s = false) ["not a url"]
  /\ parse_args ["not a url"]
     = argparse.Parsed {| argparse.url := "not a url";
                           argparse.top := argparse.IntValue 100 |}.
Proof.
  assert (H : Forall (fun s => starts_with_minus s = false) ["not a url"])
    by (repeat constructor).
  split; [exact H|]. exact (parse_args_words ["not a url"] H).
Defined.

(** The ways to write the number of words: [-t N], [--top N], an
    abbreviation [--to N], [--top=N] and [-tN], before the URL or after
    it, all give the same arguments, for every integer [N] that [int]
    reads, that is of at most 4300 digits. *)
Theorem parse_args_top_spellings (url : string) (n : Z) :
  starts_with_minus url = false ->
  (Fmt.num_digits n <= Fmt.max_str_digits)%nat ->
  Forall (fun argv =>
            parse_args argv
            = argparse.Parsed {| argparse.url := url;
                                  argparse.top := argparse.IntValue n |})
         [ [url; "-t"; Fmt.str_of_int n];
           [url; "--top"; Fmt.str_of_int n];
           [url; "--to"; Fmt.str_of_int n];
           [url; ("--top=" ++ Fmt.str_of_int n)%string];
           [url; ("-t" ++ Fmt.str_of_int n)%string];
           ["-t"; Fmt.str_of_int n; url];
           ["--top"; Fmt.str_of_int n; url];
           ["--to"; Fmt.str_of_int n; url];
           [("--top=" ++ Fmt.str_of_int n)%string; url];
           [("-t" ++ Fmt.str_of_int n)%string; url] ].
Proof.
  intros Hurl Hlen.
  destruct (parse_optional_word url Hurl) as [Cu Su].
  destruct (parse_optional_str_of_int n) as [Cn Sn].
  destruct (parse_optional_long_equals (Fmt.str_of_int n)) as [Cl Sl].
  destruct (parse_optional_short_attached (Fmt.str_of_int n)
              (str_of_int_nonempty n) (contains_str_of_int n)) as [Cs Ss].
  pose proof (top_value_str_of_int n Hlen) as Hv.
  repeat constructor;
    unfold parse_args, argparse.parse_args;
    cbn [argparse.split_separator];
    rewrite ?Su, ?Sn, ?Sl, ?Ss; cbn [String.eqb Ascii.eqb Bool.eqb];
    cbn [map]; rewrite ?Cu, ?Cn, ?Cl, ?Cs; cbn; rewrite ?Hv; reflexivity.
Qed.

Lemma parse_args_top_spellings_witness :
  starts_with_minus "http://example.com" = false
  /\ (Fmt.num_digits (-5) <= Fmt.max_str_digits)%nat
  /\ parse_args ["-t-5"; "http://example.com"]
     = argparse.Parsed {| argparse.url := "http://example.com";
                           argparse.top := argparse.IntValue (-5) |}.
Proof.
  assert (Hlen : (Fmt.num_digits (-5) <= Fmt.max_str_digits)%nat)
    by (apply Nat.leb_le; reflexivity).
  split; [reflexivity|]. split; [exact Hlen|].
  pose proof (parse_args_top_spellings "http://example.com" (-5) eq_refl
                Hlen) as H.
  rewrite Forall_forall in H.
  apply (H ["-t-5"; "http://example.com"]). simpl. tauto.
Defined.

(** What [int] refuses is refused as the number of words: with such a
    value, attached to [--top] or following it, the parser leaves with
    status 2. *)
Theorem parse_args_top_not_int (v : string) :
  Fmt.int v = None -> v <> "--" ->
  (forall rest,
     parse_args (("--top=" ++ v)%string :: rest) = argparse.SystemExit 2)
  /\ (forall url,
        starts_with_minus url = false -> starts_with_minus v = false ->
        parse_args [url; "--top"; v] = argparse.SystemExit 2).
Proof.
  intros Hint Hv.
  assert (Ht : argparse.top_value v = None).
  { unfold argparse.top_value.
    destruct (String.eqb_spec v "--"); [contradiction|]. now rewrite Hint. }
  split.
  - intros rest. unfold parse_args, argparse.parse_args.
    cbn [argparse.split_separator].
    rewrite (proj2 (parse_optional_long_equals v)).
    destruct (argparse.split_separator rest) as [l after].
    cbn [map]. rewrite (proj1 (parse_optional_long_equals v)).
    cbn [existsb argparse.is_ambiguous snd orb].
    destruct (existsb _ _); [reflexivity|].
    cbn [argparse.consume]. now rewrite Ht.
  - intros url Hurl Hvw.
    destruct (parse_optional_word url Hurl) as [Cu Su].
    destruct (parse_optional_word v Hvw) as [Cv Sv].
    unfold parse_args, argparse.parse_args.
    cbn [argparse.split_separator]. rewrite Su, Sv.
    cbn [String.eqb Ascii.eqb Bool.eqb]. cbn [map]. rewrite Cu, Cv. cbn.
    now rewrite Ht.
Qed.

Lemma parse_args_top_not_int_witness :
  Fmt.int "five" = None /\ "five" <> "--"
  /\ parse_args ["--top=five"; "http://example.com"] = argparse.SystemExit 2
  /\ parse_args ["http://example.com"; "--top"; "five"]
     = argparse.SystemExit 2.
Proof.
  assert (H1 : Fmt.int "five" = None) by reflexivity.
  assert (H2 : "five" <> "--") by discriminate.
  split; [exact H1|]. split; [exact H2|].
  destruct (parse_args_top_not_int "five" H1 H2) as [Ha Hb].
  split; [exact (Ha ["http://example.com"])|].
  exact (Hb "http://example.com" eq_refl eq_refl).
Defined.

(** Given twice, the option counts the last time: of two integers
    that [int] reads, the one that stands last is kept. *)
Theorem parse_args_top_repeated (url : string) (a b : Z) :
  starts_with_minus url = false ->
  (Fmt.num_digits a <= Fmt.max_str_digits)%nat ->
  (Fmt.num_digits b <= Fmt.max_str_digits)%nat ->
  parse_args [url; "--top"; Fmt.str_of_int a; "-t"; Fmt.str_of_int b]
  = argparse.Parsed {| argparse.url := url;
                        argparse.top := argparse.IntValue b |}
  /\ parse_args ["-t"; Fmt.str_of_int a; url;
                 ("--top=" ++ Fmt.str_of_int b)%string]
     = argparse.Parsed {| argparse.url := url;
                           argparse.top := argparse.IntValue b |}.
Proof.
  intros Hurl Hla Hlb.
  destruct (parse_optional_word url Hurl) as [Cu Su].
  destruct (parse_optional_str_of_int a) as [Ca Sa].
  destruct (parse_optional_str_of_int b) as [Cb Sb].
  destruct (parse_optional_long_equals (Fmt.str_of_int b)) as [Cl Sl].
  pose proof (top_value_str_of_int a Hla) as Ha.
  pose proof (top_value_str_of_int b Hlb) as Hb.
  split;
    unfold parse_args, argparse.parse_args;
    cbn [argparse.split_separator];
    rewrite ?Su, ?Sa, ?Sb, ?Sl; cbn [String.eqb Ascii.eqb Bool.eqb];
    cbn [map]; rewrite ?Cu, ?Ca, ?Cb, ?Cl; cbn; rewrite ?Ha; cbn;
    rewrite ?Hb; reflexivity.
Qed.

Lemma parse_args_top_repeated_witness :
  starts_with_minus "http://example.com" = false
  /\ (Fmt.num_digits 3 <= Fmt.max_str_digits)%nat
  /\ (Fmt.num_digits (-7) <= Fmt.max_str_digits)%nat
  /\ parse_args ["http://example.com"; "--top"; "3"; "-t"; "-7"]
     = argparse.Parsed {| argparse.url := "http://example.com";
                           argparse.top := argparse.IntValue (-7) |}.
Proof.
  assert (Ha : (Fmt.num_digits 3 <= Fmt.max_str_digits)%nat)
    by (apply Nat.leb_le; reflexivity).
  assert (Hb : (Fmt.num_digits (-7) <= Fmt.max_str_digits)%nat)
    by (apply Nat.leb_le; reflexivity).
  split; [reflexivity|]. split; [exact Ha|]. split; [exact Hb|].
  exact (proj1 (parse_args_top_repeated "http://example.com" 3 (-7)
                  eq_refl Ha Hb)).
Defined.

(* ===================================================================== *)
(** * More about a run of the program                                     *)
(* ===================================================================== *)

Section RunLaws.

Variable http_get : string -> string + requests.Failure.
Variable parse_html : string -> bs4.BeautifulSoup.
Variable class_after_strip : bs4.StringClass -> bs4.PyClass.
Variable unescape : string -> string.

Abbreviation run_main :=
(main http_get parse_html class_after_strip unescape).

(** The run when the parser leaves. *)
Lemma main_exit argv code :
parse_args argv = argparse.SystemExit code ->
run_main argv
= {| log := []; parser_wrote := Some (argparse.written code);
     printed := []; status := Exited code |}.
Proof. intros H. unfold main. now rewrite H. Qed.

(** The run when the request fails and [fetch_html] catches it. *)
Lemma main_not_fetched argv ns exc :
parse_args argv = argparse.Parsed ns ->
http_get (argparse.url ns) = inr (requests.Caught exc) ->
run_main argv
= {| log := [ "INFO: Fetching " ++ argparse.url ns ++ " ...";
              "ERROR: Failed to fetch " ++ argparse.url ns ++ ": "
              ++ exc ]%string;
     parser_wrote := None;
     printed := [];
     status := Exited 1 |}.
Proof. intros Hp Hg. unfold main, fetch_html. now rewrite Hp, Hg. Qed.

(** The run when the request fails otherwise. *)
Lemma main_request_raises argv ns exception :
parse_args argv = argparse.Parsed ns ->
http_get (argparse.url ns) = inr (requests.Uncaught exception) ->
run_main argv
= {| log := [ "INFO: Fetching " ++ argparse.url ns ++ " ..." ]%string;
     parser_wrote := None;
     printed := [];
     status := Raised exception |}.
Proof. intros Hp Hg. unfold main, fetch_html. now rewrite Hp, Hg. Qed.

(** The run when the page is fetched. *)
Lemma main_fetched argv ns html :
parse_args argv = argparse.Parsed ns ->
http_get (argparse.url ns) = inl html ->
List.length (log (run_main argv)) = 3%nat
/\ parser_wrote (run_main argv) = None
/\ match argparse.top ns with
   | argparse.IntValue _ =>
       status (run_main argv) = Returned
       /\ exists report, printed (run_main argv) = [report]
   | argparse.EmptyList =>
       status (run_main argv) = Raised "TypeError"
       /\ printed (run_main argv) = []
   end.
Proof.
intros Hp Hg. unfold main, fetch_html. rewrite Hp, Hg.
destruct (visible_text_from_soup class_after_strip unescape
            (parse_html html)) as [text soup'].
destruct (argparse.top ns); simpl; eauto.
Qed.

End RunLaws.

Lemma top_n_words_nil n : top_n_words [] n = [].
Proof.
  unfold top_n_words. rewrite most_common_Some.
  destruct (n <? 0)%Z; [reflexivity|]. apply firstn_nil.
Qed.

Lemma gen_plain_str unescape soup : gen bs4.plain_str unescape soup = [].
Proof.
  unfold gen, bs4.stripped_strings.
  induction (bs4.descendants soup) as [|[n cs|c s] l IH]; simpl; auto.
  destruct (bs4.interesting c); [|exact IH].
  destruct (String.length (Str.strip s) =? 0)%nat; exact IH.
Qed.

(** How a run can end, whatever the command line and whatever becomes
    of the request, the parser of the page taken to return a tree:
    - [main] returns, with one report printed and three lines logged;
    - it leaves through [sys.exit(1)], two lines logged;
    - the parser leaves with status 0, having written its help text,
      or with status 2, having written a usage error, nothing logged;
    - a [TypeError] is raised, three lines logged;
    - an exception of the request that [fetch_html] does not catch
      passes through, one line logged.
    A report is printed in the first case only. *)
Theorem main_outcomes
    (http_get : string -> string + requests.Failure)
    (parse_html : string -> bs4.BeautifulSoup)
    (class_after_strip : bs4.StringClass -> bs4.PyClass)
    (unescape : string -> string) (argv : list string) :
  let run := main http_get parse_html class_after_strip unescape argv in
  (status run = Returned
   /\ (exists report, printed run = [report])
   /\ List.length (log run) = 3%nat /\ parser_wrote run = None)
  \/ (status run = Exited 1
      /\ printed run = []
      /\ List.length (log run) = 2%nat /\ parser_wrote run = None)
  \/ (status run = Exited 0
      /\ printed run = []
      /\ log run = [] /\ parser_wrote run = Some argparse.HelpText)
  \/ (status run = Exited 2
      /\ printed run = []
      /\ log run = [] /\ parser_wrote run = Some argparse.UsageError)
  \/ (status run = Raised "TypeError"
      /\ printed run = []
      /\ List.length (log run) = 3%nat /\ parser_wrote run = None)
  \/ (exists ns exception,
        parse_args argv = argparse.Parsed ns
        /\ http_get (argparse.url ns) = inr (requests.Uncaught exception)
        /\ status run = Raised exception
        /\ printed run = []
        /\ List.length (log run) = 1%nat /\ parser_wrote run = None).
Proof.
  cbv zeta. destruct (parse_args argv) as [ns|code] eqn:Hp.
  - destruct (http_get (argparse.url ns)) as [html|[exc|exception]] eqn:Hg.
    + destruct (main_fetched http_get parse_html class_after_strip unescape
                  argv ns html Hp Hg) as (Hlog & Hw & Htop).
      destruct (argparse.top ns).
      * left. tauto.
      * do 4 right. left. tauto.
    + right. left.
      rewrite (main_not_fetched http_get parse_html class_after_strip
                 unescape argv ns exc Hp Hg).
      repeat split.
    + do 5 right. exists ns, exception.
      rewrite (main_request_raises http_get parse_html class_after_strip
                 unescape argv ns exception Hp Hg).
      repeat split; assumption.
  - rewrite (main_exit http_get parse_html class_after_strip unescape
               argv code Hp).
    destruct (parse_args_exit argv code Hp) as [-> | ->].
    + right. right. left. repeat split.
    + do 3 right. left. repeat split.
Qed.

(** [sys.exit(1)] is the failed request and nothing else: a run ends
    with it exactly when the command line was accepted and the request
    for its URL failed with an exception that [fetch_html] catches; the
    log then holds the line that announces the request and the error
    line with the URL and the message, and no report is printed.  An
    exception that [fetch_html] does not catch passes through [main],
    after the first line of the log. *)
Theorem main_fetch_failure
    (http_get : string -> string + requests.Failure)
    (parse_html : string -> bs4.BeautifulSoup)
    (class_after_strip : bs4.StringClass -> bs4.PyClass)
    (unescape : string -> string) (argv : list string) :
  let run := main http_get parse_html class_after_strip unescape argv in
  (status run = Exited 1
   <-> exists ns exc,
         parse_args argv = argparse.Parsed ns
         /\ http_get (argparse.url ns) = inr (requests.Caught exc))
  /\ (forall ns exc,
        parse_args argv = argparse.Parsed ns ->
        http_get (argparse.url ns) = inr (requests.Caught exc) ->
        run = {| log := [ "INFO: Fetching " ++ argparse.url ns ++ " ...";
                          "ERROR: Failed to fetch " ++ argparse.url ns
                          ++ ": " ++ exc ]%string;
                 parser_wrote := None;
                 printed := [];
                 status := Exited 1 |})
  /\ (forall ns exception,
        parse_args argv = argparse.Parsed ns ->
        http_get (argparse.url ns) = inr (requests.Uncaught exception) ->
        run = {| log := [ "INFO: Fetching " ++ argparse.url ns
                          ++ " ..." ]%string;
                 parser_wrote := None;
                 printed := [];
                 status := Raised exception |}).
Proof.
  cbv zeta. split; [|split; [apply main_not_fetched
                            |apply main_request_raises]].
  split.
  - intros H. destruct (parse_args argv) as [ns|code] eqn:Hp.
    + destruct (http_get (argparse.url ns)) as [html|[exc|exception]] eqn:Hg.
      * destruct (main_fetched http_get parse_html class_after_strip
                    unescape argv ns html Hp Hg) as (_ & _ & Htop).
        destruct (argparse.top ns); destruct Htop as [Hs _]; congruence.
      * now exists ns, exc.
      * rewrite (main_request_raises http_get parse_html class_after_strip
                   unescape argv ns exception Hp Hg) in H.
        discriminate.
    + rewrite (main_exit http_get parse_html class_after_strip unescape
                 argv code Hp) in H.
      simpl in H. injection H as ->.
      destruct (parse_args_exit argv 1%Z Hp); discriminate.
  - intros (ns & exc & Hp & Hg).
    now rewrite (main_not_fetched http_get parse_html class_after_strip
                   unescape argv ns exc Hp Hg).
Qed.

Lemma main_fetch_failure_witness :
  parse_args ["http://example.com"]
  = argparse.Parsed {| argparse.url := "http://example.com";
                        argparse.top := argparse.IntValue 100 |}
  /\ refusing_fetch "http://example.com"
     = inr (requests.Caught "connection refused")
  /\ main refusing_fetch example_parse bs4.plain_str no_references
          ["http://example.com"]
     = {| log := [ "INFO: Fetching http://example.com ...";
                   "ERROR: Failed to fetch http://example.com: "
                   ++ "connection refused" ]%string;
          parser_wrote := None;
          printed := [];
          status := Exited 1 |}.
Proof.
  split; [reflexivity|]. split; [reflexivity|].
  exact (proj1 (proj2 (main_fetch_failure refusing_fetch example_parse
                         bs4.plain_str no_references
                         ["http://example.com"]))
               {| argparse.url := "http://example.com";
                  argparse.top := argparse.IntValue 100 |}
               "connection refused" eq_refl eq_refl).
Defined.

(** Asking for help first ends the run at once: with [-h] or [--help]
    as the first string, and no ambiguous abbreviation among the
    strings that stand before a separator [--], the parser leaves with
    status 0, and all that the run has written is the help text of the
    parser: nothing is logged or fetched and no report is printed. *)
Theorem main_help
    (http_get : string -> string + requests.Failure)
    (parse_html : string -> bs4.BeautifulSoup)
    (class_after_strip : bs4.StringClass -> bs4.PyClass)
    (unescape : string -> string) (h : string) (rest : list string) :
  h = "-h" \/ h = "--help" ->
  Forall (fun s => argparse.parse_optional s <> argparse.Ambiguous)
         (fst (argparse.split_separator rest)) ->
  parse_args (h :: rest) = argparse.SystemExit 0
  /\ main http_get parse_html class_after_strip unescape (h :: rest)
     = {| log := []; parser_wrote := Some argparse.HelpText;
          printed := []; status := Exited 0 |}.
Proof.
  intros Hh Hrest.
  assert (Hp : parse_args (h :: rest) = argparse.SystemExit 0).
  { unfold parse_args, argparse.parse_args.
    assert (Ha : forall l,
              Forall (fun s => argparse.parse_optional s
                               <> argparse.Ambiguous) l ->
              existsb argparse.is_ambiguous
                (map (fun s => (s, argparse.parse_optional s)) l) = false).
    { induction 1 as [|s l Hs _ IH]; [reflexivity|].
      cbn [map existsb]. rewrite IH, orb_false_r.
      unfold argparse.is_ambiguous. cbn [snd].
      now destruct (argparse.parse_optional s). }
    destruct Hh as [-> | ->]; cbn [argparse.split_separator];
      cbn [String.eqb Ascii.eqb Bool.eqb andb];
      destruct (argparse.split_separator rest) as [l after];
      cbn [map existsb]; rewrite (Ha l Hrest); reflexivity. }
  split; [exact Hp|].
  now rewrite (main_exit http_get parse_html class_after_strip unescape
                 _ _ Hp).
Qed.

Lemma main_help_witness :
  ("--help" = "-h" \/ "--help" = "--help")
  /\ Forall (fun s => argparse.parse_optional s <> argparse.Ambiguous)
            (fst (argparse.split_separator ["--top"; "x"; "--"; "-q"]))
  /\ main example_fetch example_parse bs4.plain_str no_references
          ["--help"; "--top"; "x"; "--"; "-q"]
     = {| log := []; parser_wrote := Some argparse.HelpText;
          printed := []; status := Exited 0 |}.
Proof.
  assert (H1 : "--help" = "-h" \/ "--help" = "--help") by now right.
  assert (H2 : Forall (fun s => argparse.parse_optional s
                                <> argparse.Ambiguous)
                 (fst (argparse.split_separator
                         ["--top"; "x"; "--"; "-q"])))
    by (repeat (apply Forall_cons; [vm_compute; discriminate|]);
        apply Forall_nil).
  split; [exact H1|]. split; [exact H2|].
  exact (proj2 (main_help example_fetch example_parse bs4.plain_str
                  no_references "--help" _ H1 H2)).
Defined.

(** With [str.strip] as Python has it, no word ever reaches the report:
    whenever the command line is accepted and the page is fetched, what
    is printed is the report with the tag counts of the page and an
    empty list of words, whatever the page says and whatever number of
    words was asked for. *)
Theorem main_reports_no_words
    (http_get : string -> string + requests.Failure)
    (parse_html : string -> bs4.BeautifulSoup)
    (unescape : string -> string)
    (argv : list string) (ns : argparse.Namespace) (n : Z) (html : string) :
  parse_args argv = argparse.Parsed ns ->
  argparse.top ns = argparse.IntValue n ->
  http_get (argparse.url ns) = inl html ->
  printed (main http_get parse_html bs4.plain_str unescape argv)
  = [render_report (argparse.url ns) [] (tag_frequencies (parse_html html))].
Proof.
  intros Hp Ht Hg.
  destruct (main_report http_get parse_html bs4.plain_str unescape
              argv ns n html Hp Ht Hg) as [Hprinted _].
  cbv zeta in Hprinted. rewrite Hprinted.
  unfold visible_text_from_soup. cbn [fst].
  rewrite gen_plain_str. cbn [Str.join].
  now rewrite tokenise_empty, top_n_words_nil.
Qed.

Lemma main_reports_no_words_witness :
  parse_args ["http://example.com"; "-t"; "3"]
  = argparse.Parsed {| argparse.url := "http://example.com";
                        argparse.top := argparse.IntValue 3 |}
  /\ example_fetch "http://example.com" = inl cat_html
  /\ printed (main example_fetch example_parse bs4.plain_str no_references
                ["http://example.com"; "-t"; "3"])
     = [render_report "http://example.com" [] (tag_frequencies cat_page)].
Proof.
  split; [reflexivity|]. split; [reflexivity|].
  exact (main_reports_no_words example_fetch example_parse no_references
           ["http://example.com"; "-t"; "3"]
           {| argparse.url := "http://example.com";
              argparse.top := argparse.IntValue 3 |}
           3 cat_html eq_refl eq_refl eq_refl).
Defined.

(* ===================================================================== *)
(** * More about the report                                               *)
(* ===================================================================== *)

Section ReportLaws.

Lemma contains_app c a b :
argparse.contains c (a ++ b) = argparse.contains c a || argparse.contains c b.
Proof.
induction a as [|x a IH]; [reflexivity|].
simpl. now rewrite IH, orb_assoc.
Qed.

Lemma contains_repeat c x n :
Ascii.eqb x c = false -> argparse.contains c (Fmt.repeat x n) = false.
Proof. intros H. induction n as [|n IH]; [reflexivity|]. simpl. now rewrite H. Qed.

Lemma str_of_nat_digits n :
argparse.all_digits (Fmt.str_of_nat n) = true.
Proof.
unfold Fmt.str_of_nat, NilZero.string_of_uint.
destruct (Nat.to_uint n) eqn:E; [reflexivity|..];
  rewrite <- E; apply string_of_uint_digits.
Qed.

Lemma one_line_app a b :
one_line (a ++ b) = one_line a && one_line b.
Proof. unfold one_line. now rewrite contains_app, negb_orb. Qed.

Lemma one_line_str_of_nat n : one_line (Fmt.str_of_nat n) = true.
Proof.
unfold one_line.
now rewrite (contains_digits line_feed _ eq_refl (str_of_nat_digits n)).
Qed.

Lemma one_line_spaces n : one_line (Fmt.repeat " " n) = true.
Proof. unfold one_line. now rewrite contains_repeat. Qed.

Lemma one_line_ljust w s : one_line s = true -> one_line (Fmt.ljust w s) = true.
Proof.
intros H. unfold Fmt.ljust. now rewrite one_line_app, H, one_line_spaces.
Qed.

Lemma one_line_rjust w s : one_line s = true -> one_line (Fmt.rjust w s) = true.
Proof.
intros H. unfold Fmt.rjust. now rewrite one_line_app, H, one_line_spaces.
Qed.

Lemma split_on_one c s :
argparse.contains c s = false -> split_on c s = [s].
Proof.
induction s as [|a s IH]; [reflexivity|]. simpl.
intros H. apply orb_false_iff in H. destruct H as [-> H].
now rewrite (IH H).
Qed.

Lemma split_on_app c s t :
argparse.contains c s = false ->
split_on c (s ++ String c t) = s :: split_on c t.
Proof.
induction s as [|a s IH]; simpl.
- now rewrite Ascii.eqb_refl.
- intros H. apply orb_false_iff in H. destruct H as [-> H].
  now rewrite (IH H).
Qed.

(** Splitting undoes joining, when no part holds the separator. *)
Lemma split_on_join c parts :
parts <> [] ->
Forall (fun p => argparse.contains c p = false) parts ->
split_on c (Str.join (String c "") parts) = parts.
Proof.
intros Hne H. induction H as [|p ps Hp Hps IH]; [contradiction|].
destruct ps as [|q ps].
- simpl. now apply split_on_one.
- change (Str.join (String c "") (p :: q :: ps))
    with (p ++ String c (Str.join (String c "") (q :: ps)))%string.
  rewrite (split_on_app _ _ _ Hp). f_equal. apply IH. discriminate.
Qed.

Lemma length_append a b :
String.length (a ++ b) = (String.length a + String.length b)%nat.
Proof. induction a as [|x a IH]; [reflexivity|]. simpl. now rewrite IH. Qed.

Lemma length_repeat x n : String.length (Fmt.repeat x n) = n.
Proof. induction n as [|n IH]; [reflexivity|]. simpl. now rewrite IH. Qed.

(** Padding never cuts: the field is as wide as asked for, or as wide
  as what it holds. *)
Lemma length_ljust w s :
String.length (Fmt.ljust w s) = Nat.max w (String.length s).
Proof. unfold Fmt.ljust. rewrite length_append, length_repeat. lia. Qed.

Lemma length_rjust w s :
String.length (Fmt.rjust w s) = Nat.max w (String.length s).
Proof. unfold Fmt.rjust. rewrite length_append, length_repeat. lia. Qed.

Lemma nb_digits_succ d :
(Decimal.nb_digits d <= Decimal.nb_digits (Decimal.Little.succ d))%nat.
Proof. induction d; simpl; lia. Qed.

Lemma to_little_uint_succ n : forall acc,
Nat.to_little_uint n (Decimal.Little.succ acc)
= Decimal.Little.succ (Nat.to_little_uint n acc).
Proof. induction n as [|n IH]; intros acc; [reflexivity|]. simpl. apply IH. Qed.

Lemma nb_digits_to_little_uint n acc :
(Decimal.nb_digits acc <= Decimal.nb_digits (Nat.to_little_uint n acc))%nat.
Proof.
induction n as [|n IH]; [simpl; lia|].
simpl. rewrite to_little_uint_succ.
pose proof (nb_digits_succ (Nat.to_little_uint n acc)). lia.
Qed.

Lemma length_str_of_nat n :
String.length (Fmt.str_of_nat n)
= Decimal.nb_digits (Nat.to_little_uint n (Decimal.D0 Decimal.Nil)).
Proof.
unfold Fmt.str_of_nat, Nat.to_uint.
pose proof (nb_digits_to_little_uint n (Decimal.D0 Decimal.Nil)) as Hpos.
rewrite <- (DecimalFacts.nb_digits_rev (Nat.to_little_uint n _)) in Hpos.
rewrite <- (DecimalFacts.nb_digits_rev (Nat.to_little_uint n _)).
unfold NilZero.string_of_uint.
destruct (Decimal.rev _) eqn:E; [simpl in Hpos; lia|..];
  rewrite <- E; apply length_string_of_uint.
Qed.

(** A larger number is not written with fewer digits. *)
Lemma length_str_of_nat_mono i n :
(i <= n)%nat ->
(String.length (Fmt.str_of_nat i) <= String.length (Fmt.str_of_nat n))%nat.
Proof.
rewrite !length_str_of_nat. induction 1 as [|n _ IH]; [lia|].
change (Nat.to_little_uint (S n) (Decimal.D0 Decimal.Nil))
  with (Nat.to_little_uint n (Decimal.Little.succ (Decimal.D0 Decimal.Nil))).
rewrite to_little_uint_succ.
pose proof (nb_digits_succ
              (Nat.to_little_uint n (Decimal.D0 Decimal.Nil))). lia.
Qed.

Lemma nth_error_enumerate {B : Type} (l : list B) : forall start i x,
nth_error l i = Some x ->
nth_error (enumerate start l) i = Some ((start + i)%nat, x).
Proof.
induction l as [|y l IH]; intros start [|i] x H; try discriminate.
- injection H as ->. simpl. now rewrite Nat.add_0_r.
- simpl in *. rewrite (IH (S start) i x H). do 2 f_equal. lia.
Qed.

Lemma length_enumerate {B : Type} (l : list B) : forall start,
List.length (enumerate start l) = List.length l.
Proof. induction l as [|y l IH]; intros start; simpl; auto. Qed.

Lemma In_enumerate {B : Type} (l : list B) : forall start i x,
In (i, x) (enumerate start l) -> In x l.
Proof.
induction l as [|y l IH]; intros start i x H; [destruct H|].
destruct H as [[= _ <-]|H]; [now left|right; eauto].
Qed.

Lemma render_report_join url wc tc :
render_report url wc tc = Str.join newline (report_lines url wc tc).
Proof. reflexivity. Qed.

Lemma lines_of_report url wc tc :
one_line url = true ->
Forall (fun x => one_line (fst x) = true) tc ->
Forall (fun x => one_line (fst x) = true) wc ->
lines_of (render_report url wc tc) = report_lines url wc tc.
Proof.
intros Hu Ht Hw. rewrite render_report_join.
unfold lines_of, newline. apply split_on_join; [discriminate|].
assert (Hone : forall s, one_line s = true ->
                         argparse.contains line_feed s = false).
{ intros s. unfold one_line. now destruct (argparse.contains _ s). }
unfold report_lines.
apply Forall_app; split; [|apply Forall_app; split;
  [|apply Forall_app; split; [|apply Forall_app; split]]].
- repeat apply Forall_cons; try apply Forall_nil; apply Hone;
    try reflexivity.
  + now rewrite one_line_app, Hu.
  + unfold one_line. now rewrite contains_repeat.
- apply Forall_map. eapply Forall_impl; [|exact Ht].
  intros [name c] H. apply Hone. unfold tag_line. cbn [fst snd] in *.
  rewrite !one_line_app, one_line_ljust, one_line_rjust; auto.
  apply one_line_str_of_nat.
- repeat apply Forall_cons; try apply Forall_nil; apply Hone;
    try reflexivity.
  now rewrite !one_line_app, one_line_str_of_nat.
- apply Forall_map. apply Forall_forall. intros [i [w c]] Hin.
  apply In_enumerate in Hin. rewrite Forall_forall in Hw.
  specialize (Hw _ Hin). apply Hone. unfold word_line. cbn [fst snd] in *.
  rewrite !one_line_app, !one_line_rjust, one_line_ljust; auto;
    apply one_line_str_of_nat.
- repeat constructor.
Qed.

End ReportLaws.

Section ReportLines.

Variable url : string.
Variables wc tc : list (string * nat).

Lemma length_report_lines :
List.length (report_lines url wc tc)
= (7 + List.length tc + List.length wc)%nat.
Proof.
unfold report_lines.
rewrite !length_app, !length_map, length_enumerate. simpl. lia.
Qed.

Lemma nth_error_lt {B : Type} (l : list B) i x :
nth_error l i = Some x -> (i < List.length l)%nat.
Proof. intros H. apply nth_error_Some. congruence. Qed.

Lemma report_lines_tag i x :
nth_error tc i = Some x ->
nth_error (report_lines url wc tc) (4 + i) = Some (tag_line x).
Proof.
intros H. unfold report_lines.
rewrite nth_error_app2 by (simpl; lia).
replace (4 + i - _)%nat with i by (simpl; lia).
rewrite nth_error_app1
  by (rewrite length_map; now apply nth_error_lt in H).
now rewrite nth_error_map, H.
Qed.

Lemma report_lines_after_tags j :
nth_error (report_lines url wc tc) (4 + List.length tc + j)
= nth_error
    ([ ""; ("Top " ++ Fmt.str_of_nat (List.length wc) ++ " words:")%string ]
     ++ map (word_line (List.length wc)) (enumerate 1 wc) ++ [ "" ]) j.
Proof.
unfold report_lines.
rewrite nth_error_app2 by (simpl; lia).
rewrite nth_error_app2 by (rewrite length_map; simpl; lia).
f_equal. rewrite length_map. simpl. lia.
Qed.

Lemma report_lines_word i x :
nth_error wc i = Some x ->
nth_error (report_lines url wc tc) (6 + List.length tc + i)
= Some (word_line (List.length wc) (S i, x)).
Proof.
intros H.
replace (6 + List.length tc + i)%nat
  with (4 + List.length tc + (2 + i))%nat by lia.
rewrite report_lines_after_tags.
rewrite nth_error_app2 by (simpl; lia).
replace (2 + i - _)%nat with i by (simpl; lia).
rewrite nth_error_app1
  by (rewrite length_map, length_enumerate; now apply nth_error_lt in H).
now rewrite nth_error_map, (nth_error_enumerate wc 1 i x H).
Qed.

Lemma report_lines_last :
nth_error (report_lines url wc tc)
          (6 + List.length tc + List.length wc) = Some "".
Proof.
replace (6 + List.length tc + List.length wc)%nat
  with (4 + List.length tc + (2 + List.length wc))%nat by lia.
rewrite report_lines_after_tags.
rewrite nth_error_app2 by (simpl; lia).
replace (2 + List.length wc - _)%nat with (List.length wc) by (simpl; lia).
rewrite nth_error_app2
  by (rewrite length_map, length_enumerate; lia).
rewrite length_map, length_enumerate, Nat.sub_diag. reflexivity.
Qed.

End ReportLines.

(** The report has one line for every tag and for every word, and six
    more, each ended by a line feed: when neither the URL nor a tag
    name nor a word holds a line feed, splitting the report at the line
    feeds gives [6 + tags + words] lines and an empty string after the
    last of them.  The first line names the URL, the second underlines
    it in its whole length, and the words are announced by their
    number. *)
Theorem render_report_lines (url : string)
    (word_counts tag_counts : list (string * nat)) :
  one_line url = true ->
  Forall (fun x => one_line (fst x) = true) tag_counts ->
  Forall (fun x => one_line (fst x) = true) word_counts ->
  let ls := lines_of (render_report url word_counts tag_counts) in
  let tags := List.length tag_counts in
  let words := List.length word_counts in
  List.length ls = (7 + tags + words)%nat
  /\ nth_error ls 0 = Some ("Report for " ++ url)%string
  /\ nth_error ls 1 = Some (Fmt.repeat "=" (11 + String.length url))
  /\ nth_error ls (5 + tags)
     = Some ("Top " ++ Fmt.str_of_nat words ++ " words:")%string
  /\ nth_error ls (6 + tags + words) = Some "".
Proof.
  intros Hu Ht Hw. cbv zeta. rewrite (lines_of_report _ _ _ Hu Ht Hw).
  split; [apply length_report_lines|].
  split; [reflexivity|]. split; [reflexivity|].
  split; [|apply report_lines_last].
  replace (5 + List.length tag_counts)%nat
    with (4 + List.length tag_counts + 1)%nat by lia.
  now rewrite report_lines_after_tags.
Qed.

Lemma render_report_lines_witness :
  one_line "http://example.com" = true
  /\ List.length
       (lines_of (render_report "http://example.com"
                    [("cat", 2%nat); ("sat", 1%nat)] [("p", 1%nat)]))
     = 10%nat.
Proof.
  assert (H : one_line "http://example.com" = true) by reflexivity.
  split; [exact H|].
  apply (render_report_lines "http://example.com"
           [("cat", 2%nat); ("sat", 1%nat)] [("p", 1%nat)] H);
    repeat constructor.
Defined.

(** The columns of the report.  The line of the [i]-th tag holds the
    name in a field of 15 characters and the count in a field of 6; a
    longer name or count is not cut, it widens the line.  The line of
    the [i]-th word starts with its rank [i + 1], and the rank takes the
    same width on every line: that of the number of words listed. *)
Theorem render_report_columns (url : string)
    (word_counts tag_counts : list (string * nat)) :
  one_line url = true ->
  Forall (fun x => one_line (fst x) = true) tag_counts ->
  Forall (fun x => one_line (fst x) = true) word_counts ->
  let ls := lines_of (render_report url word_counts tag_counts) in
  let width := String.length (Fmt.str_of_nat (List.length word_counts)) in
  (forall i name c,
     nth_error tag_counts i = Some (name, c) ->
     exists line,
       nth_error ls (4 + i) = Some line
       /\ line = ("  " ++ Fmt.ljust 15 name ++ " "
                  ++ Fmt.rjust 6 (Fmt.str_of_nat c))%string
       /\ String.length line
          = (3 + Nat.max 15 (String.length name)
             + Nat.max 6 (String.length (Fmt.str_of_nat c)))%nat)
  /\ (forall i word c,
        nth_error word_counts i = Some (word, c) ->
        exists line,
          nth_error ls (6 + List.length tag_counts + i) = Some line
          /\ line = ("  " ++ Fmt.rjust width (Fmt.str_of_nat (S i)) ++ ". "
                     ++ Fmt.ljust 20 word ++ " "
                     ++ Fmt.rjust 6 (Fmt.str_of_nat c))%string
          /\ String.length (Fmt.rjust width (Fmt.str_of_nat (S i))) = width
          /\ String.length line
             = (5 + width + Nat.max 20 (String.length word)
                + Nat.max 6 (String.length (Fmt.str_of_nat c)))%nat).
Proof.
  intros Hu Ht Hw. cbv zeta. rewrite (lines_of_report _ _ _ Hu Ht Hw).
  split.
  - intros i name c H. eexists. split; [exact (report_lines_tag _ _ _ _ _ H)|].
    split; [reflexivity|]. unfold tag_line. cbn [fst snd].
    rewrite !length_append, length_ljust, length_rjust. simpl. lia.
  - intros i word c H. eexists. split; [exact (report_lines_word _ _ _ _ _ H)|].
    split; [reflexivity|].
    assert (Hrank : String.length
                      (Fmt.rjust
                         (String.length
                            (Fmt.str_of_nat (List.length word_counts)))
                         (Fmt.str_of_nat (S i)))
                    = String.length
                        (Fmt.str_of_nat (List.length word_counts))).
    { rewrite length_rjust.
      pose proof (length_str_of_nat_mono (S i) (List.length word_counts)
                    (nth_error_lt _ _ _ H)). lia. }
    split; [exact Hrank|]. unfold word_line. cbn [fst snd].
    rewrite !length_append, Hrank, length_ljust, length_rjust. simpl. lia.
Qed.

Lemma render_report_columns_witness :
  one_line "http://example.com" = true
  /\ nth_error
       (lines_of (render_report "http://example.com"
                    [("cat", 2%nat); ("sat", 1%nat)] [("p", 1%nat)])) 4
     = Some "  p                    1".
Proof.
  assert (H : one_line "http://example.com" = true) by reflexivity.
  split; [exact H|].
  destruct (proj1 (render_report_columns "http://example.com"
                     [("cat", 2%nat); ("sat", 1%nat)] [("p", 1%nat)] H
                     ltac:(repeat constructor) ltac:(repeat constructor))
                  0%nat "p" 1%nat eq_refl) as (line & Hn & -> & _).
  exact Hn.
Defined.
